(** * mcopt: event generator and Monte Carlo minimizer

    A shallow embedding of [src/src/EventGen.cpp], [src/include/EventGen.h]
    and [src/MCminimizer.h].

    Numbers.  A C++ [double] is embedded as a real number ([R]): sums,
    products and quotients are the exact ones, so a statement about them is
    about the arithmetic the code writes down, not about its rounding.
    Where the code floors a quotient or compares with a threshold the
    rounding decides the result; those functions are embedded a second
    time on IEEE binary64 numbers ([Binary64], [CalibrationF]), with the
    operations of the code in the code's order.
    [arma::uword] is an unsigned 64-bit integer, [pad_t] is [uint16_t];
    both are embedded as [N], indices of vectors as [nat].

    Failure.  Armadillo checks bounds and sizes and throws; the conversion
    of a floating value that does not fit the destination integer type is
    undefined.  A function that can reach one of these returns an [option],
    [None] standing for "no result". *)

From Stdlib Require Import Floats.PrimFloat Floats.SpecFloat Floats.FloatOps.
From Stdlib Require Floats.FloatAxioms Uint63.
From stdpp Require Import gmap list sorting.
From Stdlib Require Import Reals Lra Lia ZArith.

#[local] Set Warnings "-inexact-float".

(** ** Armadillo vectors and matrices, as far as the code uses them *)

Module Arma.
Local Open Scope R_scope.

(** [arma::vec]: a column of doubles. *)
Abbreviation vec := (list R).

(** A row of an [n x 3] matrix, and a 3-vector such as the drift velocity. *)
Record Vec3 : Type := mkVec3 { v_x : R; v_y : R; v_z : R }.

(** A row of the [n x 4] track matrix, columns (x, y, z, numElec). *)
Record Row4 : Type := mkRow4 { r_x : R; r_y : R; r_z : R; r_q : R }.

#[export] Instance Rlt_decision (x y : R) : Decision (x < y) := Rlt_dec x y.
#[export] Instance Rgt_decision (x y : R) : Decision (x > y) := Rgt_dec x y.
#[export] Instance Rle_decision (x y : R) : Decision (x <= y) := Rle_dec x y.

(** *** Doubles *)

(** [DBL_MIN], the smallest positive normal double, 2^-1022. *)
Definition dbl_min : R := / 2 ^ 1022.

(** A product or quotient of this magnitude is not rounded to zero: as a
    double it is a nonzero divisor. *)
Definition nonzero_double (x : R) : Prop := dbl_min <= Rabs x.

(** *** Unsigned words *)

Definition uword_modulus : N := (2 ^ 64)%N.

(** [a - b] on [arma::uword] operands (both below [uword_modulus]): the
    difference wraps around below zero. *)
Definition uword_sub (a b : N) : N :=
  if decide (b <= a)%N then (a - b)%N else (uword_modulus - (b - a))%N.

(** [a + b] on [arma::uword] operands: the sum wraps around at
    [uword_modulus]. *)
Definition uword_add (a b : N) : N := ((a + b) mod uword_modulus)%N.

(** The integer part of a real, rounding toward zero. *)
Definition Ztrunc (x : R) : Z := if decide (0 <= x) then Zfloor x else Zceil x.

(** [static_cast<arma::uword>(x)]: the truncated value, provided the
    destination type can represent it; otherwise the conversion is
    undefined. *)
Definition to_uword (x : R) : option N :=
  let z := Ztrunc x in
  if decide (0 <= z < Z.of_N uword_modulus)%Z then Some (Z.to_N z) else None.

(** [static_cast<unsigned>(x)] of a double, [unsigned] having 32 bits: the
    truncated value, provided it is representable. *)
Definition to_unsigned (x : R) : option N :=
  let z := Ztrunc x in
  if decide (0 <= z < 2 ^ 32)%Z then Some (Z.to_N z) else None.

(** [static_cast<unsigned>(n)] of an [arma::uword]: reduced modulo 2^32. *)
Definition uword_to_unsigned (n : N) : N := (n mod 2 ^ 32)%N.

(** [static_cast<double>(n)] *)
Definition of_uword (n : N) : R := IZR (Z.of_N n).

(** *** Sizes and checked element access *)

Definition n_elem {A} (v : list A) : N := N.of_nat (length v).

(** [v(i)] read: bounds-checked. *)
Definition elem {A} (v : list A) (i : N) : option A := v !! N.to_nat i.

(** [v(i) = x]: bounds-checked. *)
Definition set_elem {A} (v : list A) (i : N) (x : A) : option (list A) :=
  if decide (i < n_elem v)%N then Some (<[N.to_nat i := x]> v) else None.

(** The bounds check of [v(arma::span(a, b))] and [m.rows(a, b)]. *)
Definition span_ok {A} (v : list A) (a b : N) : Prop :=
  (a <= b /\ b < n_elem v)%N.

#[export] Instance span_ok_dec {A} (v : list A) a b : Decision (span_ok v a b).
Proof. unfold span_ok. apply _. Defined.

(** [v(arma::span(a, b)) = rhs]: the span must lie inside [v] and have the
    size of [rhs]. *)
Definition assign_span {A} (v : list A) (a b : N) (rhs : list A)
  : option (list A) :=
  if decide (span_ok v a b) then
    if decide (n_elem rhs = b - a + 1)%N then
      Some (take (N.to_nat a) v ++ rhs ++ drop (N.to_nat b + 1) v)
    else None
  else None.

(** [v(arma::span(a, b)) op= c]: every element of the span is updated. *)
Definition update_span {A} (v : list A) (a b : N) (f : A -> A)
  : option (list A) :=
  if decide (span_ok v a b) then
    Some (take (N.to_nat a) v
          ++ map f (take (N.to_nat b + 1 - N.to_nat a) (drop (N.to_nat a) v))
          ++ drop (N.to_nat b + 1) v)
  else None.

(** [for (arma::uword i = lo; i < hi; i++) body], threading the state; the
    first failing iteration ends the loop with no result. *)
Definition for_range {S} (lo hi : N) (init : S) (body : N -> S -> option S)
  : option S :=
  foldl (fun acc k => s ← acc; body (lo + N.of_nat k)%N s) (Some init)
        (seq 0 (N.to_nat (hi - lo))).

(** *** Vector operations *)

(** [arma::vec v (n, arma::fill::zeros)] *)
Definition zeros (n : nat) : vec := replicate n 0.

(** [a += b]: element-wise, sizes must agree. *)
Definition vec_add (a b : vec) : option vec :=
  if decide (length a = length b) then Some (zip_with Rplus a b) else None.

(** [arma::sum] *)
Definition vec_sum (v : vec) : R := foldr Rplus 0 v.

(** [arma::diff]: [v(i+1) - v(i)], one element fewer than [v]. *)
Definition vec_diff (v : vec) : vec := zip_with (fun a b => b - a) v (tail v).

(** [v.max()]: the largest element; an empty vector has none. *)
Definition vec_max (v : vec) : option R :=
  match v with
  | [] => None
  | x :: tl => Some (foldl Rmax x tl)
  end.

(** The scan behind [v.max(index)]: the largest value so far and where it
    was first seen; [i] is the index of the head of [l]. *)
Fixpoint max_index_from (bv : R) (bi : N) (i : N) (l : vec) : R * N :=
  match l with
  | [] => (bv, bi)
  | x :: tl =>
      if decide (x > bv) then max_index_from x i (i + 1) tl
      else max_index_from bv bi (i + 1) tl
  end.

(** [v.max(index)]: the largest element and the index of its first
    occurrence; an empty vector has none. *)
Definition vec_max_index (v : vec) : option (R * N) :=
  match v with
  | [] => None
  | x :: tl => Some (max_index_from x 0 1 tl)
  end.

(** [arma::find(v > thr)]: the indices of the elements above [thr], in
    increasing order. *)
Definition find_gt (v : vec) (thr : R) : list N :=
  map fst (filter (fun p => p.2 > thr) (imap (fun i x => (N.of_nat i, x)) v)).

(** [v.elem(idx)]: the elements at the given indices. *)
Definition elems (v : vec) (idx : list N) : option vec := mapM (elem v) idx.

(** [arma::dot(idx, vals)] of an index vector and a vector of doubles. *)
Definition dot (idx : list N) (vals : vec) : option R :=
  if decide (length idx = length vals)
  then Some (vec_sum (zip_with (fun i x => of_uword i * x) idx vals))
  else None.

End Arma.

Import Arma.

(** ** Geometry and calibration (EventGen.cpp, lines 11-46) *)

Module Calibration.
Local Open Scope R_scope.

(** [result = pos + pos.col(2) * -vd.t() / (clock * 1e-4);
     result.col(2) -= pos.col(2);] for one row of [pos]. *)
Definition calibrate_row (vd : Vec3) (clock : R) (p : Vec3) : Vec3 :=
  let rx := v_x p + (v_z p * (- v_x vd)) / (clock * 1e-4) in
  let ry := v_y p + (v_z p * (- v_y vd)) / (clock * 1e-4) in
  let rz := v_z p + (v_z p * (- v_z vd)) / (clock * 1e-4) in
  {| v_x := rx; v_y := ry; v_z := rz - v_z p |}.

Definition calibrate (pos : list Vec3) (vd : Vec3) (clock : R) : list Vec3 :=
  map (calibrate_row vd clock) pos.

(** [tbs = pos.col(2) * clock * 1e-4 / (-vd(2)) + offset;
     result = pos - tbs * -vd.t() / (clock * 1e-4);
     result.col(2) = tbs;] for one row of [pos]. *)
Definition uncalibrate_row (vd : Vec3) (clock : R) (offset : Z) (p : Vec3) : Vec3 :=
  let tbs := v_z p * clock * 1e-4 / (- v_z vd) + IZR offset in
  let rx := v_x p - (tbs * (- v_x vd)) / (clock * 1e-4) in
  let ry := v_y p - (tbs * (- v_y vd)) / (clock * 1e-4) in
  {| v_x := rx; v_y := ry; v_z := tbs |}.

Definition uncalibrate (pos : list Vec3) (vd : Vec3) (clock : R) (offset : Z)
  : list Vec3 :=
  map (uncalibrate_row vd clock offset) pos.

(** [tmat * pos.t()] transposed back, then [res.col(1) -= tan(tilt)]. *)
Definition unTiltAndRecenter_row (tilt : R) (p : Vec3) : Vec3 :=
  let t00 := 1 in let t01 := 0 in let t02 := 0 in
  let t10 := 0 in let t11 := cos (- tilt) in let t12 := - sin (- tilt) in
  let t20 := 0 in let t21 := sin (- tilt) in let t22 := cos (- tilt) in
  {| v_x := t00 * v_x p + t01 * v_y p + t02 * v_z p;
     v_y := (t10 * v_x p + t11 * v_y p + t12 * v_z p) - tan tilt;
     v_z := t20 * v_x p + t21 * v_y p + t22 * v_z p |}.

Definition unTiltAndRecenter (pos : list Vec3) (tilt : R) : list Vec3 :=
  map (unTiltAndRecenter_row tilt) pos.

End Calibration.

(** The same two functions on IEEE binary64 numbers, one row at a time, for
    evaluating the code where the real-number quotient is not defined. *)
Module CalibrationF.
Local Open Scope float_scope.

Definition calibrate_row (vdx vdy vdz clock : float) (p : float * float * float)
  : float * float * float :=
  let '(x, y, z) := p in
  let rx := x + (z * (- vdx)) / (clock * 1e-4) in
  let ry := y + (z * (- vdy)) / (clock * 1e-4) in
  let rz := z + (z * (- vdz)) / (clock * 1e-4) in
  (rx, ry, rz - z).

Definition uncalibrate_row (vdx vdy vdz clock offset : float)
  (p : float * float * float) : float * float * float :=
  let '(x, y, z) := p in
  let tbs := z * clock * 1e-4 / (- vdz) + offset in
  let rx := x - (tbs * (- vdx)) / (clock * 1e-4) in
  let ry := y - (tbs * (- vdy)) / (clock * 1e-4) in
  (rx, ry, tbs).

Definition calibrate (pos : list (float * float * float))
    (vdx vdy vdz clock : float) : list (float * float * float) :=
  map (calibrate_row vdx vdy vdz clock) pos.

Definition uncalibrate (pos : list (float * float * float))
    (vdx vdy vdz clock offset : float) : list (float * float * float) :=
  map (uncalibrate_row vdx vdy vdz clock offset) pos.

End CalibrationF.

(** ** The event generator (EventGen.h, lines 46-84; EventGen.cpp, lines 58-237) *)

Module EventGen.
Import Calibration.
Local Open Scope R_scope.

(** [pad_t] *)
Abbreviation pad_t := N.

(** [PadPlane.h] is not among the sources: its two lookups are taken as
    given, a pad number for a point of the plane and the centre (x, y) of a
    pad. *)
Record PadPlane : Type := mkPadPlane {
  getPadNumberFromCoordinates : R -> R -> pad_t;
  getPadCenter : pad_t -> R * R
}.

(** The data members of [class EventGenerator]. *)
Record EventGenerator : Type := mkEventGenerator {
  vd : Vec3;
  massNum : N;
  ioniz : R;
  micromegasGain : R;
  electronicsGain : R;
  tilt : R;
  diffSigma : R;
  clock : R;
  shape : R;
  pads : PadPlane
}.

(** A row of the peaks table: (pad centre x, pad centre y, centre of
    gravity, maximum, pad number). *)
Record PeakRow : Type := mkPeakRow {
  pk_x : R; pk_y : R; pk_ctr : R; pk_max : R; pk_pad : R
}.

(** [struct Peak] *)
Record Peak : Type := mkPeak { timeBucket : N; amplitude : N }.

(** The loop runs while [i < leftEdge + width && i < size], that is up to
    the smaller of the two bounds. *)
Definition squareWave (size leftEdge width : N) (height : R) : option vec :=
  let res := zeros (N.to_nat size) in
  for_range leftEdge (N.min (uword_add leftEdge width) size) res
    (fun i res => set_elem res i height).

Definition approxSin (t : R) : R :=
  t - t*t*t / 6 + t*t*t*t*t / 120 - t*t*t*t*t*t*t / 5040.

Definition elecPulse (amplitude shape clock offset : R) : option vec :=
  let res := zeros 512 in
  let s := shape * clock in
  firstPt ← to_uword (IZR (Zceil offset));
  for_range firstPt (n_elem res) res (fun i res =>
    let t := (of_uword i - offset) / s in
    set_elem res i
      (amplitude * exp ((-3) * t) * approxSin t * t * t * t / 0.044)).

(** The contents of a freshly allocated [arma::mat]; every row is
    overwritten before it is read. *)
Definition uninit : Row4 := mkRow4 0 0 0 0.

(** The order of the keys of a [std::map<pad_t, arma::vec>]. *)
Definition key_le (a b : pad_t * vec) : Prop := (a.1 <= b.1)%N.

#[export] Instance key_le_dec a b : Decision (key_le a b).
Proof. unfold key_le. apply _. Defined.

Section Generator.

(** [Constants::E_CHG]; [Constants.h] is not among the sources. *)
Variable E_CHG : R.

Variable g : EventGenerator.

Definition numElec (en : vec) : option vec :=
  let numPts := n_elem en in
  let result := zeros (N.to_nat numPts) in
  assign_span result 1 (uword_sub numPts 1)
    (map (fun d => IZR (Zfloor (- d / ioniz g)))
         (vec_diff (map (fun e => e * 1e6 * of_uword (massNum g)) en))).

(** The offsets of the eight diffusion points, in units of [sqrt z]. *)
Definition diffPts : list (R * R) :=
  let diffSigmaDiag := diffSigma g * sqrt 2 in
  [ (diffSigma g, 0);                      (* East *)
    (- diffSigma g, 0);                    (* West *)
    (0, diffSigma g);                      (* North *)
    (0, - diffSigma g);                    (* South *)
    (diffSigmaDiag, diffSigmaDiag);        (* Northeast *)
    (diffSigmaDiag, - diffSigmaDiag);      (* Southeast *)
    (- diffSigmaDiag, diffSigmaDiag);      (* Northwest *)
    (- diffSigmaDiag, - diffSigmaDiag) ].  (* Southwest *)

Definition centerAmpl : R := 0.4.

Definition diffAmpl : R := (1 - centerAmpl) / of_uword (n_elem diffPts).

Definition diffuseElectrons (tr : list Row4) : option (list Row4) :=
  let numDiffPts := n_elem diffPts in
  let numPts := n_elem tr in
  let result := replicate (N.to_nat (numPts * (numDiffPts + 1))) uninit in
  result ← assign_span result 0 (uword_sub numPts 1) tr;
  result ← update_span result 0 (uword_sub numPts 1)
             (fun r => mkRow4 (r_x r) (r_y r) (r_z r) (r_q r * centerAmpl));
  for_range 0 numDiffPts result (fun ptIdx result =>
    let firstRow := (numPts * (ptIdx + 1))%N in
    for_range 0 numPts result (fun i result =>
      let thisRow := (firstRow + i)%N in
      t ← elem tr i;
      d ← elem diffPts ptIdx;
      set_elem result thisRow
        {| r_x := r_x t + d.1 * sqrt (r_z t);
           r_y := r_y t + d.2 * sqrt (r_z t);
           r_z := r_z t;
           r_q := r_q t * diffAmpl |})).

(** [assert(en.n_rows == nrows)] ends the call when the sizes differ; the
    two assignments into [uncalPts] check the sizes again. *)
Definition prepareTrack (pos : list Vec3) (en : vec) : option (list Row4) :=
  let nrows := n_elem pos in
  if decide (n_elem en = nrows) then
    let posTilted := unTiltAndRecenter pos (tilt g) in
    let xyz := uncalibrate posTilted (vd g) (clock g) 0 in
    ne ← numElec en;
    if decide (n_elem ne = nrows) then
      let uncalPts :=
        zip_with (fun p q => mkRow4 (v_x p) (v_y p) (v_z p) q) xyz ne in
      diffuseElectrons uncalPts
    else None
  else None.

Definition conversionFactor : R :=
  micromegasGain g * E_CHG / electronicsGain g * 4096.

(** The body of the loop of [makeEvent], for the row [row] of the prepared
    track. *)
Definition makeEvent_step (result : gmap pad_t vec) (row : Row4)
  : option (gmap pad_t vec) :=
  let pad := getPadNumberFromCoordinates (pads g) (r_x row) (r_y row) in
  if decide (pad <> 20000%N) then
    (* [result[pad]] makes an empty signal where the map has none *)
    let padSignal := default [] (result !! pad) in
    let padSignal :=
      match padSignal with [] => zeros 512 | _ => padSignal end in
    let offset := r_z row in
    if decide (offset > 511) then Some (<[pad := padSignal]> result)
    else
      pulse ← elecPulse (conversionFactor * r_q row) (shape g) (clock g) offset;
      padSignal ← vec_add padSignal pulse;
      Some (<[pad := padSignal]> result)
  else Some result.

(** The loop of [makeEvent] over the prepared track [uncal]. *)
Definition makeEvent_loop (uncal : list Row4) : option (gmap pad_t vec) :=
  for_range 0 (uword_sub (n_elem uncal) 1) ∅ (fun i result =>
    row ← elem uncal i;
    makeEvent_step result row).

Definition makeEvent (pos : list Vec3) (en : vec) : option (gmap pad_t vec) :=
  uncal ← prepareTrack pos en;
  makeEvent_loop uncal.

(** A [std::map] is traversed in increasing order of its keys. *)
Definition event_items (evt : gmap pad_t vec) : list (pad_t * vec) :=
  merge_sort key_le (map_to_list evt).

(** The body of the loop of [makePeaksTableFromSimulation]. *)
Definition peaksTable_step (rows : list PeakRow) (pair : pad_t * vec)
  : option (list PeakRow) :=
  let padNum := pair.1 in
  let sig := pair.2 in
  mx ← vec_max sig;
  let pkPts := find_gt sig (0.3 * mx) in
  pkVals ← elems sig pkPts;
  let total := vec_sum pkVals in
  if decide (total < 1e-3) then Some rows
  else
    d ← dot pkPts pkVals;
    let pkCtrGrav := d / vec_sum pkVals in
    maxVal ← vec_max sig;
    let xy := getPadCenter (pads g) padNum in
    Some (rows ++ [mkPeakRow xy.1 xy.2 pkCtrGrav maxVal (of_uword padNum)]).

Definition peaksTable_of_event (evt : gmap pad_t vec) : option (list PeakRow) :=
  foldl (fun acc pair => rows ← acc; peaksTable_step rows pair) (Some [])
        (event_items evt).

Definition makePeaksTableFromSimulation (pos : list Vec3) (en : vec)
  : option (list PeakRow) :=
  evt ← makeEvent pos en;
  peaksTable_of_event evt.

(** The body of the loop of [makePeaksFromSimulation]; [emplace] leaves an
    existing key alone. *)
Definition makePeaks_step (res : gmap pad_t Peak) (pair : pad_t * vec)
  : option (gmap pad_t Peak) :=
  m ← vec_max_index pair.2;
  let maxTB := m.2 in
  maxVal ← to_unsigned (IZR (Zfloor m.1));
  Some (match res !! pair.1 with
        | Some _ => res
        | None => <[pair.1 := mkPeak (uword_to_unsigned maxTB) maxVal]> res
        end).

(** [makePeaksFromSimulation], from the event that [makeEvent(tr)] returns
    on ([Track.h] is not among the sources). *)
Definition makePeaks_of_event (evt : gmap pad_t vec) : option (gmap pad_t Peak) :=
  foldl (fun acc pair => res ← acc; makePeaks_step res pair) (Some ∅)
        (event_items evt).

(** The loop of [makeMeshSignal] over the event. *)
Definition meshSignal_of_event (evt : gmap pad_t vec) : option vec :=
  foldl (fun acc pair => res ← acc; vec_add res pair.2) (Some (zeros 512))
        (event_items evt).

Definition makeMeshSignal (pos : list Vec3) (en : vec) : option vec :=
  evt ← makeEvent pos en;
  meshSignal_of_event evt.

(** The body of the loop of [makeHitPattern]. *)
Definition makeHitPattern_step (hits : vec) (row : Row4) : option vec :=
  let pad := getPadNumberFromCoordinates (pads g) (r_x row) (r_y row) in
  if decide (pad <> 20000%N) then
    h ← elem hits pad;
    set_elem hits pad (h + conversionFactor * r_q row)
  else Some hits.

(** The loop of [makeHitPattern] over the prepared track [uncal]. *)
Definition makeHitPattern_loop (uncal : list Row4) : option vec :=
  for_range 0 (uword_sub (n_elem uncal) 1) (zeros (N.to_nat 10240))
    (fun i hits => row ← elem uncal i; makeHitPattern_step hits row).

Definition makeHitPattern (pos : list Vec3) (en : vec) : option vec :=
  uncal ← prepareTrack pos en;
  makeHitPattern_loop uncal.

End Generator.

End EventGen.

(** ** The electron counts and the peaks table on binary64 numbers
       (EventGen.cpp, lines 77-83 and 207-237)

    [numElec] floors a quotient and [makePeaksTableFromSimulation] compares
    with two thresholds; both are embedded here on IEEE binary64 numbers.
    The peaks table starts from the event: [makeEvent] before it needs
    [std::exp], which these numbers do not come with.  Armadillo is not
    among the sources: [max], [sum] and [dot] follow what the library does
    with the elements, as described at each. *)

Module Binary64.
Local Open Scope float_scope.

Abbreviation fvec := (list float).

(** The real number a finite double stands for. *)
Definition to_R (x : float) : R :=
  match Prim2SF x with
  | S754_finite s m e => (IZR (if s then Z.neg m else Z.pos m) * powerRZ 2 e)%R
  | _ => 0%R
  end.

(** [std::floor]: the largest whole number not above [x].  A finite double
    is [m * 2^e]; with [e >= 0] it is whole.  A zero, an infinity and a NaN
    are returned as they are. *)
Definition floor (x : float) : float :=
  match Prim2SF x with
  | S754_finite s m e =>
      if (0 <=? e)%Z then x
      else
        let z := ((if s then Z.neg m else Z.pos m) / 2 ^ (- e))%Z in
        if s then - of_uint63 (Uint63.of_Z (- z)) else of_uint63 (Uint63.of_Z z)
  | _ => x
  end.

(** [static_cast<double>(n)] of an unsigned integer ([unsigned], [pad_t],
    an index); exact below 2^53. *)
Definition of_unsigned (n : N) : float := of_uint63 (Uint63.of_Z (Z.of_N n)).

(** [arma::vec v (n, arma::fill::zeros)] *)
Definition zeros (n : nat) : fvec := replicate n 0.

(** [arma::diff] *)
Definition vec_diff (v : fvec) : fvec := zip_with (fun a b => b - a) v (tail v).

(** [v.max()]: the scan keeps an element that is greater than the largest
    so far, starting from minus infinity; an empty vector has none. *)
Definition vec_max (v : fvec) : option float :=
  match v with
  | [] => None
  | _ => Some (foldl (fun m x => if m <? x then x else m) neg_infinity v)
  end.

(** [arma::find(v > thr)] *)
Definition find_gt (v : fvec) (thr : float) : list N :=
  map fst (filter (fun p => (thr <? p.2) = true)
                  (imap (fun i x => (N.of_nat i, x)) v)).

(** [v.elem(idx)] *)
Definition elems (v : fvec) (idx : list N) : option fvec := mapM (elem v) idx.

(** The loop behind [arma::sum]: the elements of even index are added into
    one accumulator, those of odd index into another. *)
Fixpoint accumulate (acc1 acc2 : float) (v : fvec) : float :=
  match v with
  | [] => acc1 + acc2
  | [x] => (acc1 + x) + acc2
  | x :: y :: tl => accumulate (acc1 + x) (acc2 + y) tl
  end.

(** [arma::sum] *)
Definition vec_sum (v : fvec) : float := accumulate 0 0 v.

(** [arma::dot(idx, vals)] of an index vector and a vector of doubles: the
    products are added in the order of the elements; the sizes must
    agree. *)
Definition dot (idx : list N) (vals : fvec) : option float :=
  if decide (length idx = length vals)
  then Some (foldl (fun acc p => acc + of_unsigned p.1 * p.2) 0 (zip idx vals))
  else None.

(** A row of the peaks table. *)
Record PeakRow : Type := mkPeakRow {
  pk_x : float; pk_y : float; pk_ctr : float; pk_max : float; pk_pad : float
}.

(** The order of the keys of a [std::map<pad_t, arma::vec>]. *)
Definition key_le (a b : N * fvec) : Prop := (a.1 <= b.1)%N.

#[export] Instance key_le_dec a b : Decision (key_le a b).
Proof. unfold key_le. apply _. Defined.

(** A [std::map] is traversed in increasing order of its keys. *)
Definition event_items (evt : gmap N fvec) : list (N * fvec) :=
  merge_sort key_le (map_to_list evt).

Section Generator.

(** The data members [massNum] and [ioniz]. *)
Variable massNum : N.
Variable ioniz : float.

(** [pads->getPadCenter]; [PadPlane.h] is not among the sources. *)
Variable getPadCenter : N -> float * float.

Definition numElec (en : fvec) : option fvec :=
  let numPts := n_elem en in
  let result := zeros (N.to_nat numPts) in
  assign_span result 1 (uword_sub numPts 1)
    (map (fun d => floor (- d / ioniz))
         (vec_diff (map (fun e => e * 1e6 * of_unsigned massNum) en))).

(** The body of the loop of [makePeaksTableFromSimulation]. *)
Definition peaksTable_step (rows : list PeakRow) (pair : N * fvec)
  : option (list PeakRow) :=
  let padNum := pair.1 in
  let sig := pair.2 in
  mx ← vec_max sig;
  let pkPts := find_gt sig (0.3 * mx) in
  pkVals ← elems sig pkPts;
  let total := vec_sum pkVals in
  if total <? 1e-3 then Some rows
  else
    d ← dot pkPts pkVals;
    let pkCtrGrav := d / vec_sum pkVals in
    maxVal ← vec_max sig;
    let xy := getPadCenter padNum in
    Some (rows ++ [mkPeakRow xy.1 xy.2 pkCtrGrav maxVal (of_unsigned padNum)]).

(** [makePeaksTableFromSimulation], from the event that [makeEvent]
    returns on. *)
Definition peaksTable_of_event (evt : gmap N fvec) : option (list PeakRow) :=
  foldl (fun acc pair => rows ← acc; peaksTable_step rows pair) (Some [])
        (event_items evt).

End Generator.

(** *** The quantities the statements about the peaks table are about *)

(** The samples of a signal above 30% of the value [mx], each with its
    time bucket. *)
Definition peak_samples (sig : fvec) (mx : float) : list (N * float) :=
  filter (fun p => (0.3 * mx <? p.2) = true)
         (imap (fun i x => (N.of_nat i, x)) sig).

(** Their total charge. *)
Definition peak_total (sig : fvec) (mx : float) : float :=
  vec_sum (map snd (peak_samples sig mx)).

(** Their charge-weighted mean time bucket. *)
Definition peak_centroid (sig : fvec) (mx : float) : float :=
  foldl (fun acc p => acc + of_unsigned p.1 * p.2) 0 (peak_samples sig mx)
  / peak_total sig mx.

(** The row a pad contributes to the peaks table, if any. *)
Definition peak_entry (getPadCenter : N -> float * float) (pair : N * fvec)
  : option PeakRow :=
  mx ← vec_max pair.2;
  if peak_total pair.2 mx <? 1e-3 then None
  else
    let xy := getPadCenter pair.1 in
    Some (mkPeakRow xy.1 xy.2 (peak_centroid pair.2 mx) mx (of_unsigned pair.1)).

End Binary64.

(** ** The Monte Carlo minimizer (MCminimizer.h)

    [MCminimizer.h] declares the minimizer; the file that defines its
    member functions is not among the sources. *)

Module MCminimizer.
Local Open Scope R_scope.

(** Modelled from the spec: the definition of [makeParams] is missing; the
    spec has it "clip every component into [mins, maxes]".  A value below
    the interval goes to its lower end, a value above it to its upper end;
    an empty interval has nothing to clip into and gives no result. *)
Definition clip (lo hi v : R) : option R :=
  if decide (lo <= hi) then
    Some (if decide (v < lo) then lo else if decide (hi < v) then hi else v)
  else None.

(** Modelled from the spec: the definition of [makeParams] is missing; one
    parameter vector is drawn "from independent per-component distributions
    centered at the current best guess (ctr) with the current spread
    (sigma)" and clipped.  The random deviate of component [i] is [d i];
    [ctr], [sigma], [mins] and [maxes] "share this shape". *)
Definition sample (d : nat -> R) (ctr sigma mins maxes : vec) : option vec :=
  mapM (fun i =>
          c ← ctr !! i; s ← sigma !! i; lo ← mins !! i; hi ← maxes !! i;
          clip lo hi (c + s * d i))
       (seq 0 (length ctr)).

(** Modelled from the spec: the definition of [makeParams] is missing;
    "draw numPts parameter vectors ...; clip every component into
    [mins, maxes]".  [draw k i] is the deviate of component [i] of vector
    [k]. *)
Definition makeParams (draw : nat -> nat -> R) (ctr sigma : vec)
    (numSets : nat) (mins maxes : vec) : option (list vec) :=
  mapM (fun k => sample (draw k) ctr sigma mins maxes) (seq 0 numSets).

(** Modelled from the spec: the result type is declared as a tuple; the
    spec lists the "final best parameter vector" and "a full history matrix
    (every sampled vector and its score)". *)
Record MCminimizeResult : Type := mkResult {
  best : vec;
  history : list vec;
  scores : list R
}.

(** Modelled from the spec: the definition of [minimize] is missing; "the
    vector with the lowest aggregate deviation becomes the new center".
    Without a sampled vector there is no winner. *)
Definition lowest (score : vec -> R) (params : list vec) : option vec :=
  match params with
  | [] => None
  | p :: ps =>
      Some (foldl (fun b q => if decide (score q < score b) then q else b) p ps)
  end.

Section Minimize.

(** The random deviates: [draw it k i] for component [i] of vector [k] of
    iteration [it]. *)
Variable draw : nat -> nat -> nat -> R.

(** [runTrack], declared in [MCminimizer.h], scores a parameter vector
    against the experimental data; its definition is missing. *)
Variable runTrack : vec -> list vec -> R.

(** The bounds of the minimizer configuration. *)
Variables mins maxes : vec.

(** Modelled from the spec: the definition of [minimize] is missing; three
    phases per iteration, "run numIters times": sample [numPts] vectors
    around [ctr] with spread [sigma], score each, take the lowest as the new
    centre and multiply [sigma] by [redFactor]. *)
Fixpoint minimize_from (it : nat) (ctr sigma : vec) (trueValues : list vec)
    (numIters numPts : nat) (redFactor : R) (hist : list vec) (chi : list R)
  : option MCminimizeResult :=
  match numIters with
  | O => Some (mkResult ctr hist chi)
  | Datatypes.S n =>
      params ← makeParams (draw it) ctr sigma numPts mins maxes;
      ctr' ← lowest (fun p => runTrack p trueValues) params;
      minimize_from (Datatypes.S it) ctr' (map (fun s => s * redFactor) sigma)
        trueValues n numPts redFactor
        (hist ++ params) (chi ++ map (fun p => runTrack p trueValues) params)
  end.

(** Modelled from the spec: the definition of [minimize] is missing; the
    loop above from the initial centre and spread, with an empty history. *)
Definition minimize (ctr0 sigma0 : vec) (trueValues : list vec)
    (numIters numPts : nat) (redFactor : R) : option MCminimizeResult :=
  minimize_from 0 ctr0 sigma0 trueValues numIters numPts redFactor [] [].

End Minimize.

End MCminimizer.

(** ** The quantities the statements below are about *)

Module Derived.
Import Calibration EventGen.
Local Open Scope R_scope.

Section Generator.
Variable g : EventGenerator.

(** The finite differences that [numElec] floors. *)
Definition numElec_tail (en : vec) : vec :=
  map (fun d => IZR (Zfloor (- d / ioniz g)))
      (vec_diff (map (fun e => e * 1e6 * of_uword (massNum g)) en)).

(** The row kept at the original location. *)
Definition center_row (t : Row4) : Row4 :=
  mkRow4 (r_x t) (r_y t) (r_z t) (r_q t * centerAmpl).

(** The row placed at the diffusion point with offset [d]. *)
Definition satellite_row (d : R * R) (t : Row4) : Row4 :=
  {| r_x := r_x t + d.1 * sqrt (r_z t);
     r_y := r_y t + d.2 * sqrt (r_z t);
     r_z := r_z t;
     r_q := r_q t * diffAmpl g |}.

(** The nine rows of the output [out] that come from row [i] of an input
    with [n] rows: row [i] itself and row [i] of each of the eight blocks. *)
Definition derived_rows (out : list Row4) (n i : nat) : list Row4 :=
  omap (fun k => out !! (n * k + i)%nat) (seq 0 9).

(** The point of the prepared track for the trajectory point [p] that frees
    [q] electrons, before diffusion. *)
Definition prepared_point (p : Vec3) (q : R) : Row4 :=
  let u := uncalibrate_row (vd g) (clock g) 0 (unTiltAndRecenter_row (tilt g) p) in
  mkRow4 (v_x u) (v_y u) (v_z u) q.

Definition prepared_points (pos : list Vec3) (en : vec) : list Row4 :=
  zip_with prepared_point pos (0 :: numElec_tail en).

(** The matrix [diffuseElectrons] builds: the rows of [tr] with reduced
    charge, then one block of rows of [tr] per diffusion point. *)
Definition diffused_rows (tr : list Row4) : list Row4 :=
  map center_row tr
  ++ concat (map (fun d => map (satellite_row d) tr) (diffPts g)).

End Generator.

(** The signal of pad [p] in the event [m] as [makeEvent] sees it: the
    stored one, or 512 zeros where the map has none (or an empty one). *)
Definition signal_at (m : gmap pad_t vec) (p : pad_t) : vec :=
  let s := default [] (m !! p) in
  match s with [] => zeros 512 | _ => s end.

(** The loop body of [makeEvent] run over the rows [rows] in order. *)
Definition makeEvent_fold (E_CHG : R) (g : EventGenerator)
    (init : gmap pad_t vec) (rows : list Row4) : option (gmap pad_t vec) :=
  foldl (fun acc row => r ← acc; makeEvent_step E_CHG g r row) (Some init) rows.

(** Every signal stored in the event has 512 samples. *)
Definition signals_512 (m : gmap pad_t vec) : Prop :=
  forall q sig, m !! q = Some sig -> length sig = 512%nat.

(** The pad of a row of the prepared track. *)
Definition pad_of (g : EventGenerator) (row : Row4) : pad_t :=
  getPadNumberFromCoordinates (pads g) (r_x row) (r_y row).

(** Two events that show the same signal on every pad. *)
Definition same_signals (m1 m2 : gmap pad_t vec) : Prop :=
  forall p, signal_at m1 p = signal_at m2 p.

(** A row that lands on a pad within the 512 time buckets. *)
Definition contributes (g : EventGenerator) (row : Row4) : Prop :=
  pad_of g row <> 20000%N /\ ~ r_z row > 511.

#[export] Instance contributes_dec g row : Decision (contributes g row).
Proof. unfold contributes. apply _. Defined.

(** Every component of [v] lies between the bounds of that component:
    [mins(i) <= v(i) <= maxes(i)]. *)
Definition within_bounds (mins maxes v : vec) : Prop :=
  forall (i : nat) (x : R), v !! i = Some x ->
    exists lo hi, mins !! i = Some lo /\ maxes !! i = Some hi /\ lo <= x <= hi.

(** The samples of a signal above 30% of the value [mx], each with its
    time bucket. *)
Definition peak_samples (sig : vec) (mx : R) : list (N * R) :=
  filter (fun p => p.2 > 0.3 * mx) (imap (fun i x => (N.of_nat i, x)) sig).

(** Their total charge. *)
Definition peak_total (sig : vec) (mx : R) : R :=
  vec_sum (map snd (peak_samples sig mx)).

(** Their charge-weighted mean time bucket. *)
Definition peak_centroid (sig : vec) (mx : R) : R :=
  vec_sum (map (fun p => of_uword p.1 * p.2) (peak_samples sig mx))
  / peak_total sig mx.

(** The row of the peaks table for pad [pad] with signal [sig] of maximum
    [mx]. *)
Definition peak_row (g : EventGenerator) (pad : pad_t) (sig : vec) (mx : R)
  : PeakRow :=
  let xy := getPadCenter (pads g) pad in
  mkPeakRow xy.1 xy.2 (peak_centroid sig mx) mx (of_uword pad).

(** The row a pad contributes to the peaks table, if any. *)
Definition peak_entry (g : EventGenerator) (pair : pad_t * vec) : option PeakRow :=
  mx ← vec_max pair.2;
  if decide (peak_total pair.2 mx < 1e-3) then None
  else Some (peak_row g pair.1 pair.2 mx).

(** The loop body of [makeHitPattern] run over the rows [rows] in order. *)
Definition hit_fold (E_CHG : R) (g : EventGenerator)
    (init : vec) (rows : list Row4) : option vec :=
  foldl (fun acc row => h ← acc; makeHitPattern_step E_CHG g h row) (Some init) rows.

(** The signal amplitude of the rows of [rows] that fall on pad [p]. *)
Definition pad_charge (E_CHG : R) (g : EventGenerator) (p : pad_t)
    (rows : list Row4) : R :=
  vec_sum (map (fun row => conversionFactor E_CHG g * r_q row)
               (filter (fun row => pad_of g row = p) rows)).

(** Sample [i] of every signal of the event. *)
Definition column (i : nat) (items : list (pad_t * vec)) : vec :=
  omap (fun pair => pair.2 !! i) items.

(** The peak [makePeaksFromSimulation] stores for a signal. *)
Definition peak_of (sig : vec) : option Peak :=
  m ← vec_max_index sig;
  maxVal ← to_unsigned (IZR (Zfloor m.1));
  Some (mkPeak (uword_to_unsigned m.2) maxVal).

(** Every signal of the event has 512 samples, none of them positive, and
    0 in time bucket 0. *)
Definition signals_nonpos (m : gmap pad_t vec) : Prop :=
  forall q sig, m !! q = Some sig ->
    length sig = 512%nat /\ Forall (fun x => x <= 0) sig /\ sig !! 0%nat = Some 0.

(** A row that lands on a pad within the 512 time buckets and carries no
    charge or a negative one. *)
Definition negative_row (g : EventGenerator) (row : Row4) : Prop :=
  pad_of g row <> 20000%N /\ 0 <= r_z row <= 511 /\ r_q row <= 0.

(** The signal of pad [p] is negative in time bucket [i]. *)
Definition negative_at (m : gmap pad_t vec) (p : pad_t) (i : nat) : Prop :=
  exists sig x, m !! p = Some sig /\ sig !! i = Some x /\ x < 0.

(** The sample [elecPulse] stores at index [i], from the first point on. *)
Definition pulse_sample (amplitude shape clock offset : R) (i : N) : R :=
  let t := (of_uword i - offset) / (shape * clock) in
  amplitude * exp ((-3) * t) * approxSin t * t * t * t / 0.044.

End Derived.

(** ** Theorems *)

Import Derived.

Section CalibrationFacts.
Import Calibration.
Local Open Scope R_scope.

Lemma Vec3_eq (a b : Vec3) :
  v_x a = v_x b -> v_y a = v_y b -> v_z a = v_z b -> a = b.
Proof. destruct a, b; simpl; intros; subst; reflexivity. Qed.

Lemma uncalibrate_calibrate_row vd clock p :
  v_z vd <> 0 -> clock <> 0 ->
  uncalibrate_row vd clock 0 (calibrate_row vd clock p) = p.
Proof.
  intros Hz Hc. apply Vec3_eq; unfold uncalibrate_row, calibrate_row; simpl;
    field; repeat split; lra.
Qed.

Lemma calibrate_uncalibrate_row vd clock p :
  v_z vd <> 0 -> clock <> 0 ->
  calibrate_row vd clock (uncalibrate_row vd clock 0 p) = p.
Proof.
  intros Hz Hc. apply Vec3_eq; unfold uncalibrate_row, calibrate_row; simpl;
    field; repeat split; lra.
Qed.

Lemma dbl_min_pos : 0 < dbl_min.
Proof. unfold dbl_min. apply Rinv_0_lt_compat, pow_lt. lra. Qed.

Lemma dbl_min_le_1 : dbl_min <= 1.
Proof.
  unfold dbl_min.
  assert (H : 1 <= 2 ^ 1022) by (apply pow_R1_Rle; lra).
  set (k := 2 ^ 1022) in *.
  apply (Rmult_le_reg_l k); [lra|]. rewrite Rinv_r by lra. lra.
Qed.

(** A divisor that is not rounded to zero is not zero. *)
Lemma nonzero_double_neq (x : R) : nonzero_double x -> x <> 0.
Proof.
  unfold nonzero_double. intros H ->. rewrite Rabs_R0 in H.
  pose proof dbl_min_pos. lra.
Qed.

Lemma nonzero_double_ge_1 (x : R) : 1 <= x -> nonzero_double x.
Proof.
  intros H. unfold nonzero_double. rewrite Rabs_pos_eq by lra.
  pose proof dbl_min_le_1. lra.
Qed.

Lemma nonzero_double_clock (clock : R) :
  nonzero_double (clock * 1e-4) -> clock <> 0.
Proof. intros H%nonzero_double_neq ->. apply H. lra. Qed.

(** C1 (as amended): for a drift velocity with nonzero z-component and a
    clock frequency whose product with 1e-4, the divisor of both functions,
    is at least [DBL_MIN] in magnitude (so that it is not zero as a double),
    [uncalibrate] with offset 0 undoes [calibrate] and [calibrate] undoes
    [uncalibrate] with offset 0, on every position matrix, in exact
    arithmetic; the rounding of the doubles is not part of the statement. *)
Theorem calibrate_uncalibrate_inverse (p : list Vec3) (vd : Vec3) (clock : R) :
  v_z vd <> 0 -> nonzero_double (clock * 1e-4) ->
  uncalibrate (calibrate p vd clock) vd clock 0 = p /\
  calibrate (uncalibrate p vd clock 0) vd clock = p.
Proof.
  intros Hz Hc%nonzero_double_clock. unfold uncalibrate, calibrate. split.
  - induction p as [|r p IH]; simpl; [reflexivity|].
    rewrite uncalibrate_calibrate_row by assumption. now f_equal.
  - induction p as [|r p IH]; simpl; [reflexivity|].
    rewrite calibrate_uncalibrate_row by assumption. now f_equal.
Qed.

(** The point at x = 1, y = 2 in time bucket 3 lies at (0.985, 1.9925,
    0.03) m, and is in time bucket 3 again. *)
Lemma calibrate_uncalibrate_inverse_witness :
  let p := [mkVec3 1 2 3; mkVec3 0 0 0.5] in
  let vd := mkVec3 0.5 0.25 (-1) in
  (uncalibrate (calibrate p vd 1e6) vd 1e6 0 = p /\
   calibrate (uncalibrate p vd 1e6 0) vd 1e6 = p) /\
  calibrate p vd 1e6 = [mkVec3 0.985 1.9925 0.03; mkVec3 (-0.0025) (-0.00125) 0.005].
Proof.
  intros p vd. split.
  - apply (calibrate_uncalibrate_inverse p vd 1e6).
    + simpl. lra.
    + apply nonzero_double_ge_1. lra.
  - unfold calibrate, calibrate_row. simpl.
    f_equal; [|f_equal]; apply Vec3_eq; simpl; lra.
Defined.

(** C1 as stated fails at clock frequency 0, where the code divides by
    [clock * 1e-4 = 0]: run on binary64 numbers, as the code runs, the point
    (0, 0, 1) comes back from either round trip with every coordinate
    not-a-number.  It fails in the same way at the nonzero clock frequency
    1e-320, whose product with 1e-4 is rounded to zero.  At clock frequency
    1e21 the divisor is an ordinary number, but the drift length of z = 1
    is lost when it is added to z, and the point comes back as (0, 0, 0):
    the round trip is the identity in exact arithmetic only. *)
Lemma calibrate_roundtrip_clock_zero :
  let p := [(0, 0, 1)]%float in
  let there_and_back clock :=
    CalibrationF.uncalibrate (CalibrationF.calibrate p 0 0 (-1) clock)
                             0 0 (-1) clock 0 in
  let back_and_there clock :=
    CalibrationF.calibrate (CalibrationF.uncalibrate p 0 0 (-1) clock 0)
                           0 0 (-1) clock in
  (there_and_back 0 = [(nan, nan, nan)] /\
   back_and_there 0 = [(nan, nan, nan)] /\
   1e-320 * 1e-4 = 0 /\
   there_and_back 1e-320 = [(nan, nan, infinity)] /\
   back_and_there 1e-320 = [(nan, nan, nan)] /\
   there_and_back 1e21 = [(0, 0, 0)] /\
   back_and_there 1e21 = [(0, 0, 0)])%float.
Proof. vm_compute. repeat split; reflexivity. Qed.

(** On binary64 numbers the round trip of an ordinary point agrees with the
    point up to rounding. *)
Example calibrate_roundtrip_binary64 :
  (CalibrationF.uncalibrate
     (CalibrationF.calibrate [(1, 2, 3)] 0.5 0.25 (-1) 1e6) 0.5 0.25 (-1) 1e6 0
   = [(0.99999999999999989, 2, 2.9999999999999805)])%float.
Proof. vm_compute. reflexivity. Qed.

End CalibrationFacts.

(** ** Loops and checked accesses *)

Section ArmaFacts.
Local Open Scope N_scope.

Context {S : Type}.
Implicit Types (body : N -> S -> option S) (init : S).

Lemma for_range_empty lo hi init body :
  hi <= lo -> for_range lo hi init body = Some init.
Proof.
  intros H. unfold for_range.
  replace (hi - lo) with 0 by lia. reflexivity.
Qed.

Lemma for_range_snoc lo hi init body :
  lo <= hi ->
  for_range lo (hi + 1) init body = s ← for_range lo hi init body; body hi s.
Proof.
  intros H. unfold for_range.
  replace (N.to_nat (hi + 1 - lo)) with (Datatypes.S (N.to_nat (hi - lo))) by lia.
  rewrite seq_S, foldl_app. simpl.
  replace (lo + N.of_nat (N.to_nat (hi - lo))) with hi by lia.
  reflexivity.
Qed.

(** The invariant rule for a loop whose iterations all succeed. *)
Lemma for_range_invariant (I : N -> S -> Prop) lo hi init body :
  lo <= hi ->
  I lo init ->
  (forall i s, lo <= i < hi -> I i s -> exists s', body i s = Some s' /\ I (i + 1) s') ->
  exists s, for_range lo hi init body = Some s /\ I hi s.
Proof.
  intros Hle Hinit Hstep.
  assert (Hgen : forall n : nat, lo + N.of_nat n <= hi ->
            exists s, for_range lo (lo + N.of_nat n) init body = Some s
                      /\ I (lo + N.of_nat n) s).
  { induction n as [|n IH]; intros Hn.
    - exists init. rewrite for_range_empty by lia.
      replace (lo + N.of_nat 0) with lo by lia. auto.
    - destruct IH as (s & Hs & HI); [lia|].
      destruct (Hstep (lo + N.of_nat n) s) as (s' & Hb & HI'); [lia|assumption|].
      exists s'.
      replace (lo + N.of_nat (Datatypes.S n)) with (lo + N.of_nat n + 1) by lia.
      rewrite for_range_snoc by lia. rewrite Hs. simpl. auto. }
  destruct (Hgen (N.to_nat (hi - lo))) as (s & Hs & HI); [lia|].
  replace (lo + N.of_nat (N.to_nat (hi - lo))) with hi in * by lia.
  eauto.
Qed.

End ArmaFacts.

Section VecFacts.
Local Open Scope R_scope.

Lemma length_zeros n : length (zeros n) = n.
Proof. apply length_replicate. Qed.

Lemma length_vec_diff v : length (vec_diff v) = Nat.pred (length v).
Proof.
  unfold vec_diff. rewrite length_zip_with.
  destruct v as [|x v]; [reflexivity|].
  change (length (tail (x :: v))) with (length v).
  change (length (x :: v)) with (Datatypes.S (length v)). lia.
Qed.

Lemma uword_sub_le a b : (b <= a)%N -> uword_sub a b = (a - b)%N.
Proof. intros H. unfold uword_sub. now rewrite decide_True. Qed.

End VecFacts.

(** ** Binary64 numbers: order *)

Section SpecOrder.

Ltac sf_cases :=
  repeat match goal with
  | H : context [Pos.compare_cont Eq ?a ?b] |- _ =>
      change (Pos.compare_cont Eq a b) with (Pos.compare a b) in H
  | |- context [Pos.compare_cont Eq ?a ?b] =>
      change (Pos.compare_cont Eq a b) with (Pos.compare a b)
  end;
  repeat match goal with
  | H : context [Z.compare ?a ?b] |- _ => destruct (Z.compare_spec a b); simpl in H
  | H : context [Pos.compare ?a ?b] |- _ => destruct (Pos.compare_spec a b); simpl in H
  | |- context [Z.compare ?a ?b] => destruct (Z.compare_spec a b); simpl
  | |- context [Pos.compare ?a ?b] => destruct (Pos.compare_spec a b); simpl
  end;
  try discriminate; try reflexivity; try lia; auto.

Lemma SFltb_irrefl a : SFltb a a = false.
Proof.
  unfold SFltb. destruct a as [[]|[]| |[] m e]; simpl; try reflexivity.
  - rewrite Z.compare_refl. change (Pos.compare_cont Eq m m) with (Pos.compare m m).
    now rewrite Pos.compare_refl.
  - rewrite Z.compare_refl. change (Pos.compare_cont Eq m m) with (Pos.compare m m).
    now rewrite Pos.compare_refl.
Qed.

Lemma SFltb_trans a b c :
  SFltb a b = true -> SFltb b c = true -> SFltb a c = true.
Proof.
  unfold SFltb.
  destruct a as [[]|[]| |[] m1 e1], b as [[]|[]| |[] m2 e2], c as [[]|[]| |[] m3 e3];
    simpl; intros H1 H2; try discriminate; try reflexivity; sf_cases.
Qed.

Lemma SFltb_between a b c :
  SFltb a c = true -> b <> S754_nan -> SFltb a b = true \/ SFltb b c = true.
Proof.
  unfold SFltb.
  destruct a as [[]|[]| |[] m1 e1], b as [[]|[]| |[] m2 e2], c as [[]|[]| |[] m3 e3];
    simpl; intros H1 H2; try discriminate; try congruence; auto; sf_cases.
Qed.

Lemma SFltb_not_nan a b : SFltb a b = true -> b <> S754_nan.
Proof. unfold SFltb. destruct a, b; simpl; congruence. Qed.

End SpecOrder.

Section Binary64Order.
Local Open Scope float_scope.

(** A double that compares as smaller or greater is a number. *)
Lemma ltb_number (a b : float) : (a <? b) = true -> Prim2SF b <> S754_nan.
Proof. rewrite FloatAxioms.ltb_spec. apply SFltb_not_nan. Qed.

Lemma ltb_irrefl (a : float) : (a <? a) = false.
Proof. rewrite FloatAxioms.ltb_spec. apply SFltb_irrefl. Qed.

Lemma ltb_trans (a b c : float) :
  (a <? b) = true -> (b <? c) = true -> (a <? c) = true.
Proof. rewrite !FloatAxioms.ltb_spec. apply SFltb_trans. Qed.

(** A number lies above the smaller or below the greater of two numbers in
    order. *)
Lemma ltb_between (a b c : float) :
  (a <? c) = true -> Prim2SF b <> S754_nan -> (a <? b) = true \/ (b <? c) = true.
Proof. rewrite !FloatAxioms.ltb_spec. apply SFltb_between. Qed.

(** The scan of [max] ends on a number that no element exceeds. *)
Lemma scan_max_ub (l : Binary64.fvec) :
  forall m : float, Prim2SF m <> S754_nan ->
    Prim2SF (foldl (fun m x => if m <? x then x else m) m l) <> S754_nan /\
    (foldl (fun m x => if m <? x then x else m) m l <? m) = false /\
    forall x, x ∈ l -> (foldl (fun m x => if m <? x then x else m) m l <? x) = false.
Proof.
  induction l as [|y l IH]; intros m Hm; simpl.
  - split; [exact Hm|]. split; [apply ltb_irrefl|].
    intros x Hx. now apply elem_of_nil in Hx.
  - destruct (m <? y) eqn:Hmy.
    + destruct (IH y (ltb_number m y Hmy)) as (Hr & Hry & Hl).
      set (r := foldl _ y l) in *.
      split; [exact Hr|]. split.
      * destruct (r <? m) eqn:Hrm; [|reflexivity].
        rewrite (ltb_trans r m y Hrm Hmy) in Hry. discriminate.
      * intros x [->|Hx]%elem_of_cons; [exact Hry|now apply Hl].
    + destruct (IH m Hm) as (Hr & Hrm & Hl).
      set (r := foldl _ m l) in *.
      split; [exact Hr|]. split; [exact Hrm|].
      intros x [->|Hx]%elem_of_cons; [|now apply Hl].
      destruct (r <? y) eqn:Hry; [|reflexivity].
      destruct (ltb_between r m y Hry Hm) as [H|H]; congruence.
Qed.

Lemma b64_vec_max_ub (sig : Binary64.fvec) (mx x : float) :
  Binary64.vec_max sig = Some mx -> x ∈ sig -> (mx <? x) = false.
Proof.
  destruct sig as [|a l]; [discriminate|]. unfold Binary64.vec_max. intros [= <-] Hx.
  apply (scan_max_ub (a :: l) neg_infinity); [|exact Hx].
  vm_compute. discriminate.
Qed.

Lemma b64_vec_max_is_Some (sig : Binary64.fvec) :
  sig <> [] -> is_Some (Binary64.vec_max sig).
Proof. destruct sig; [congruence|]. simpl. eauto. Qed.

End Binary64Order.

(** ** Electron counts *)

Section NumElecFacts.
Import EventGen.
Local Open Scope R_scope.

Variable g : EventGenerator.

Lemma length_numElec_tail en : length (numElec_tail g en) = Nat.pred (length en).
Proof.
  unfold numElec_tail. now rewrite length_map, length_vec_diff, length_map.
Qed.

Lemma numElec_some en :
  (2 <= length en)%nat -> numElec g en = Some (0 :: numElec_tail g en).
Proof.
  intros Hlen. unfold numElec, assign_span, n_elem.
  rewrite uword_sub_le by lia.
  rewrite decide_True.
  2:{ unfold span_ok, n_elem. rewrite length_zeros. lia. }
  fold (numElec_tail g en).
  rewrite decide_True by (rewrite length_numElec_tail; lia).
  rewrite Nat2N.id. unfold zeros.
  replace (N.to_nat (N.of_nat (length en) - 1) + 1)%nat with (length en) by lia.
  rewrite drop_replicate, Nat.sub_diag, app_nil_r.
  destruct (length en) as [|n]; [lia|]. reflexivity.
Qed.

Lemma numElec_none en : (length en < 2)%nat -> numElec g en = None.
Proof.
  intros Hlen. unfold numElec, assign_span.
  destruct en as [|e [|e' en]]; simpl in Hlen; try lia.
  - (* numPts = 0: the upper end of the span wraps around *)
    rewrite decide_False; [reflexivity|].
    intros [_ H]. vm_compute in H. discriminate H.
  - (* numPts = 1: the span runs from 1 to 0 *)
    rewrite decide_False; [reflexivity|].
    intros [H _]. vm_compute in H. now apply H.
Qed.

End NumElecFacts.

Section NumElecBinary64.
Import Binary64.
Local Open Scope float_scope.

Variable massNum : N.
Variable ioniz : float.

Lemma b64_length_vec_diff (v : fvec) : length (vec_diff v) = Nat.pred (length v).
Proof.
  unfold vec_diff. rewrite length_zip_with.
  destruct v as [|x v]; [reflexivity|].
  change (length (tail (x :: v))) with (length v).
  change (length (x :: v)) with (Datatypes.S (length v)). lia.
Qed.

Lemma b64_lookup_vec_diff (v : fvec) (i : nat) (a b : float) :
  v !! i = Some a -> v !! Datatypes.S i = Some b -> vec_diff v !! i = Some (b - a).
Proof.
  intros Ha Hb. unfold vec_diff.
  rewrite lookup_zip_with, lookup_tail, Ha, Hb. reflexivity.
Qed.

Lemma b64_numElec_some (en : fvec) :
  (2 <= length en)%nat ->
  numElec massNum ioniz en
  = Some (0 :: map (fun d => floor (- d / ioniz))
                   (vec_diff (map (fun e => e * 1e6 * of_unsigned massNum) en))).
Proof.
  intros Hlen. unfold numElec, assign_span, n_elem.
  rewrite uword_sub_le by lia.
  rewrite decide_True.
  2:{ unfold span_ok, n_elem, zeros. rewrite length_replicate. lia. }
  rewrite decide_True.
  2:{ rewrite length_map, b64_length_vec_diff, length_map. lia. }
  rewrite Nat2N.id. unfold zeros.
  replace (N.to_nat (N.of_nat (length en) - 1) + 1)%nat with (length en) by lia.
  rewrite drop_replicate, Nat.sub_diag, app_nil_r.
  destruct (length en) as [|n]; [lia|]. reflexivity.
Qed.

End NumElecBinary64.

Section NumElecClaims.
Import EventGen.
Local Open Scope R_scope.

(** C7 (as amended): for an energy vector [en] with at least two elements,
    [numElec] returns a vector as long as [en], whose first element is 0
    and whose element at every index [i >= 1] is
    [floor (-(en(i) * 1e6 * massNum - en(i-1) * 1e6 * massNum) / ioniz)],
    every operation being the binary64 one: each energy is scaled, and the
    product rounded, before the difference is taken. *)
Theorem numElec_spec (massNum : N) (ioniz : float) (en : Binary64.fvec) :
  (2 <= length en)%nat ->
  exists res,
    Binary64.numElec massNum ioniz en = Some res /\
    length res = length en /\
    res !! 0%nat = Some 0%float /\
    forall (i : nat) (e_prev e_i : float),
      (1 <= i)%nat ->
      en !! (i - 1)%nat = Some e_prev -> en !! i = Some e_i ->
      res !! i =
        Some (Binary64.floor
                (- (e_i * 1e6 * Binary64.of_unsigned massNum
                    - e_prev * 1e6 * Binary64.of_unsigned massNum) / ioniz))%float.
Proof.
  intros Hlen. eexists. split; [now apply b64_numElec_some|]. split.
  { simpl. rewrite length_map, b64_length_vec_diff, length_map. lia. }
  split; [reflexivity|].
  intros i e_prev e_i Hi Hprev Hcur.
  destruct i as [|j]; [lia|]. simpl in *.
  rewrite Nat.sub_0_r in Hprev.
  rewrite list_lookup_fmap.
  erewrite b64_lookup_vec_diff.
  2:{ rewrite list_lookup_fmap, Hprev. reflexivity. }
  2:{ rewrite list_lookup_fmap, Hcur. reflexivity. }
  reflexivity.
Qed.

(** The energies 4.52, 4.51 and 3 MeV with mass number 4 and ionization
    potential 36.5 eV: the quotients 1095.89... and 165479.45... are rounded
    down. *)
Lemma numElec_spec_witness :
  let en := [4.52; 4.51; 3]%float in
  exists res,
    Binary64.numElec 4 36.5 en = Some res /\
    length res = 3%nat /\
    res !! 0%nat = Some 0%float /\
    (forall (i : nat) (e_prev e_i : float),
       (1 <= i)%nat ->
       en !! (i - 1)%nat = Some e_prev -> en !! i = Some e_i ->
       res !! i =
         Some (Binary64.floor
                 (- (e_i * 1e6 * Binary64.of_unsigned 4
                     - e_prev * 1e6 * Binary64.of_unsigned 4) / 36.5))%float) /\
    res = [0; 1095; 165479]%float.
Proof.
  intros en.
  destruct (numElec_spec 4 36.5 en) as (res & Hres & Hlen & H0 & Hval);
    [simpl; lia|].
  exists res. split; [exact Hres|]. split; [exact Hlen|]. split; [exact H0|].
  split; [exact Hval|].
  assert (Hev : Binary64.numElec 4 36.5 en = Some [0; 1095; 165479]%float)
    by (vm_compute; reflexivity).
  congruence.
Defined.

(** C7 as stated fails: the code takes the difference of the scaled and
    rounded energies, not of the energies.  For the energies 4.52 MeV and
    4.51 MeV (the doubles nearest to them), mass number 4 and ionization
    potential 50 eV the code stores 800, while
    [floor (-(en(1) - en(0)) * 1e6 * massNum / ioniz)] is 799, evaluated on
    binary64 numbers as well as on the real numbers the two doubles stand
    for. *)
Lemma numElec_scaled_before_difference :
  Binary64.numElec 4 50 [4.52; 4.51]%float = Some [0; 800]%float /\
  (Binary64.floor (- (4.51 - 4.52) * 1e6 * Binary64.of_unsigned 4 / 50) = 799)%float /\
  Zfloor (- (Binary64.to_R 4.51 - Binary64.to_R 4.52) * 1e6 * 4 / 50)%R = 799%Z.
Proof.
  split; [vm_compute; reflexivity|]. split; [vm_compute; reflexivity|].
  unfold Binary64.to_R.
  replace (Prim2SF 4.52) with (S754_finite false 5089067578928660 (-50))
    by (vm_compute; reflexivity).
  replace (Prim2SF 4.51) with (S754_finite false 5077808579860234 (-50))
    by (vm_compute; reflexivity).
  apply Zfloor_eq.
  change (powerRZ 2 (-50)) with (/ 2 ^ 50)%R.
  replace (2 ^ 50)%R with 1125899906842624%R by (simpl; lra).
  lra.
Qed.

(** The second sample of the energies 3 MeV, 2 MeV with mass number 4 and
    ionization potential 40 eV frees 100000 electrons. *)
Example numElec_example :
  let g := mkEventGenerator (mkVec3 0 0 (-1)) 4 40 1 1 0 1 1e6 1
                            (mkPadPlane (fun _ _ => 7%N) (fun _ => (0, 0))) in
  numElec g [3; 2]%R = Some [0; 100000]%R.
Proof.
  intros g. rewrite numElec_some by (simpl; lia).
  unfold numElec_tail, vec_diff, of_uword. simpl.
  do 3 f_equal. apply (f_equal IZR), Zfloor_eq. lra.
Qed.

Example numElec_example_binary64 :
  Binary64.numElec 4 40 [3; 2]%float = Some [0; 100000]%float.
Proof. vm_compute. reflexivity. Qed.

End NumElecClaims.

(** ** Diffusion *)

Section FillRows.
Context {A B : Type}.

(** A loop that writes [f (tr(i))] to row [base + i] for every row [i] of
    [tr] fills that block of rows and leaves every other row alone. *)
Lemma for_range_fill_rows (tr : list A) (f : A -> B) (base : N) (res : list B)
    (body : N -> list B -> option (list B)) :
  (forall i s t, elem tr i = Some t -> body i s = set_elem s (base + i) (f t)) ->
  (N.to_nat base + length tr <= length res)%nat ->
  exists s,
    for_range 0 (n_elem tr) res body = Some s /\
    length s = length res /\
    (forall j, (j < N.to_nat base \/ N.to_nat base + length tr <= j)%nat ->
               s !! j = res !! j) /\
    (forall j t, tr !! j = Some t -> s !! (N.to_nat base + j)%nat = Some (f t)).
Proof.
  intros Hbody Hfit.
  pose (I := fun (i : N) (s : list B) =>
    length s = length res /\
    (forall j, (j < N.to_nat base \/ N.to_nat base + N.to_nat i <= j)%nat ->
               s !! j = res !! j) /\
    (forall j t, (j < N.to_nat i)%nat -> tr !! j = Some t ->
                 s !! (N.to_nat base + j)%nat = Some (f t))).
  destruct (for_range_invariant I 0 (n_elem tr) res body) as (s & Hs & Hlen & Hout & Hin).
  - lia.
  - split; [reflexivity|]. split; [reflexivity|].
    intros j t Hj. simpl in Hj. lia.
  - intros i s [_ Hi] (Hlen & Hout & Hin). unfold n_elem in Hi.
    destruct (lookup_lt_is_Some_2 tr (N.to_nat i)) as [t Ht]; [lia|].
    rewrite (Hbody i s t Ht). unfold set_elem, n_elem.
    rewrite decide_True by lia.
    eexists; split; [reflexivity|]. split; [|split].
    + now rewrite length_insert.
    + intros j Hj. rewrite list_lookup_insert_ne by lia. apply Hout. lia.
    + intros j t' Hj Ht'.
      destruct (decide (j = N.to_nat i)) as [->|Hne].
      * replace (N.to_nat base + N.to_nat i)%nat with (N.to_nat (base + i)) by lia.
        rewrite list_lookup_insert_eq by lia. congruence.
      * rewrite list_lookup_insert_ne by lia. apply Hin; [lia|assumption].
  - exists s. unfold n_elem in *. rewrite Nat2N.id in *.
    split; [assumption|]. split; [assumption|]. split; [assumption|].
    intros j t Ht. apply Hin; [|assumption]. eapply lookup_lt_Some, Ht.
Qed.

End FillRows.

Section DiffuseFacts.
Import EventGen.
Local Open Scope R_scope.

Variable g : EventGenerator.

Lemma n_elem_diffPts : n_elem (diffPts g) = 8%N.
Proof. reflexivity. Qed.

Lemma diffAmpl_value : diffAmpl g = 0.6 / 8.
Proof. unfold diffAmpl, centerAmpl. rewrite n_elem_diffPts. unfold of_uword. simpl. lra. Qed.

Lemma block_index_lt (n p k i : nat) :
  (i < n)%nat -> (p < k)%nat -> (n * (p + 1) + i < n * (k + 1))%nat.
Proof. intros. nia. Qed.

Lemma block_index_fit (n k : nat) :
  (k < 8)%nat -> (n * (k + 1) + n <= n * 9)%nat.
Proof. intros. nia. Qed.

(** The two statements that copy [tr] into the first rows and scale the
    charges there. *)
Lemma diffuse_centers (tr : list Row4) :
  tr <> [] ->
  let numPts := n_elem tr in
  let result := replicate (N.to_nat (numPts * (n_elem (diffPts g) + 1))) uninit in
  let result1 := tr ++ replicate (length tr * 8) uninit in
  assign_span result 0 (uword_sub numPts 1) tr = Some result1 /\
  update_span result1 0 (uword_sub numPts 1)
     (fun r => mkRow4 (r_x r) (r_y r) (r_z r) (r_q r * centerAmpl))
  = Some (map center_row tr ++ replicate (length tr * 8) uninit).
Proof.
  intros Hne numPts result result1.
  assert (Hn : (1 <= length tr)%nat) by (destruct tr; [congruence|simpl; lia]).
  assert (Hres : result = replicate (length tr * 9) uninit).
  { unfold result, numPts. rewrite n_elem_diffPts. unfold n_elem. f_equal. lia. }
  rewrite Hres. unfold numPts, n_elem. rewrite uword_sub_le by lia.
  assert (Hend : (N.to_nat (N.of_nat (length tr) - 1) + 1)%nat = length tr) by lia.
  split.
  - unfold assign_span.
    rewrite decide_True.
    2:{ unfold span_ok, n_elem. rewrite length_replicate. lia. }
    rewrite decide_True by (unfold n_elem; lia).
    simpl. rewrite Hend, drop_replicate. unfold result1.
    do 3 f_equal. lia.
  - unfold update_span.
    rewrite decide_True.
    2:{ unfold span_ok, n_elem, result1.
        rewrite length_app, length_replicate. lia. }
    simpl. rewrite Hend. change (N.to_nat 0) with 0%nat.
    unfold result1.
    rewrite Nat.sub_0_r, drop_0, take_app_length, drop_app_length.
    reflexivity.
Qed.

(** The rows of the matrix [diffuseElectrons] returns: [tr] with reduced
    charge first, then one block of [tr.n_rows] rows per diffusion point. *)
Lemma diffuseElectrons_rows (tr : list Row4) :
  tr <> [] ->
  exists out,
    diffuseElectrons g tr = Some out /\
    length out = (length tr * 9)%nat /\
    (forall i t, tr !! i = Some t -> out !! i = Some (center_row t)) /\
    (forall k d i t,
        diffPts g !! k = Some d -> tr !! i = Some t ->
        out !! (length tr * (k + 1) + i)%nat = Some (satellite_row g d t)).
Proof.
  intros Hne. unfold diffuseElectrons.
  destruct (diffuse_centers tr Hne) as [-> Hupd]. simpl.
  rewrite Hupd. simpl.
  set (res2 := map center_row tr ++ replicate (length tr * 8) uninit).
  pose (J := fun (k : N) (s : list Row4) =>
    length s = (length tr * 9)%nat /\
    (forall j, (j < length tr)%nat -> s !! j = res2 !! j) /\
    (forall p d i t, (p < N.to_nat k)%nat ->
        diffPts g !! p = Some d -> tr !! i = Some t ->
        s !! (length tr * (p + 1) + i)%nat = Some (satellite_row g d t))).
  match goal with
  | |- exists out, for_range 0 ?hi res2 ?body = Some out /\ _ =>
      destruct (for_range_invariant J 0 hi res2 body) as (out & Hout & Hlen & Hctr & Hsat)
  end.
  - lia.
  - split; [|split].
    + unfold res2. rewrite length_app, length_map, length_replicate. lia.
    + reflexivity.
    + intros p d i t Hp. simpl in Hp. lia.
  - intros k s [_ Hk] (Hlen & Hctr & Hsat). rewrite n_elem_diffPts in Hk.
    destruct (lookup_lt_is_Some_2 (diffPts g) (N.to_nat k)) as [d Hd].
    { change (length (diffPts g)) with 8%nat. lia. }
    destruct (for_range_fill_rows tr (satellite_row g d)
                (n_elem tr * (k + 1))%N s
                (fun i result =>
                   t ← elem tr i;
                   d ← elem (diffPts g) k;
                   set_elem result (n_elem tr * (k + 1) + i)%N
                     {| r_x := r_x t + d.1 * sqrt (r_z t);
                        r_y := r_y t + d.2 * sqrt (r_z t);
                        r_z := r_z t;
                        r_q := r_q t * diffAmpl g |}))
      as (s' & Hs' & Hlen' & Hout' & Hin').
    { intros i s0 t Ht. rewrite Ht. unfold elem at 1. rewrite Hd. reflexivity. }
    { rewrite Hlen. unfold n_elem.
      pose proof (block_index_fit (length tr) (N.to_nat k)). lia. }
    exists s'. split; [exact Hs'|].
    assert (Hbase : N.to_nat (n_elem tr * (k + 1)) = (length tr * (N.to_nat k + 1))%nat)
      by (unfold n_elem; lia).
    rewrite Hbase in *.
    split; [|split].
    + congruence.
    + intros j Hj. rewrite Hout'; [now apply Hctr|]. left. nia.
    + intros p d' i t Hp Hd' Ht.
      destruct (decide (p = N.to_nat k)) as [->|Hne'].
      * rewrite Hd in Hd'. injection Hd' as <-. now apply Hin'.
      * rewrite Hout'; [apply Hsat; [lia|assumption..]|].
        left. apply block_index_lt; [eapply lookup_lt_Some, Ht|lia].
  - exists out. split; [exact Hout|]. split; [exact Hlen|]. split.
    + intros i t Ht. rewrite Hctr by (eapply lookup_lt_Some, Ht).
      unfold res2. rewrite lookup_app_l by (rewrite length_map; eapply lookup_lt_Some, Ht).
      now rewrite list_lookup_fmap, Ht.
    + intros k d i t Hd Ht. apply Hsat; [|assumption..].
      apply lookup_lt_Some in Hd. rewrite n_elem_diffPts. exact Hd.
Qed.

Lemma diffuseElectrons_empty : diffuseElectrons g [] = None.
Proof. reflexivity. Qed.

End DiffuseFacts.

Section DiffuseClaims.
Import EventGen.
Local Open Scope R_scope.

(** C2: for every row [t = tr(i)] of the input of [diffuseElectrons], with
    charge [A = r_q t], the output has 9 times as many rows as the input;
    its row [i] is [t] with charge [0.4 * A]; its row [i] of block [k + 1],
    for each of the eight diffusion points [k], has charge [(0.6 / 8) * A];
    and the charges of these nine rows sum to [A]. *)
Theorem diffuseElectrons_charge (g : EventGenerator) (tr : list Row4)
    (i : nat) (t : Row4) :
  tr !! i = Some t ->
  exists out,
    diffuseElectrons g tr = Some out /\
    length out = (9 * length tr)%nat /\
    out !! i = Some (mkRow4 (r_x t) (r_y t) (r_z t) (0.4 * r_q t)) /\
    length (diffPts g) = 8%nat /\
    (forall k d, diffPts g !! k = Some d ->
       out !! (length tr * (k + 1) + i)%nat =
         Some (mkRow4 (r_x t + d.1 * sqrt (r_z t)) (r_y t + d.2 * sqrt (r_z t))
                      (r_z t) (0.6 / 8 * r_q t))) /\
    length (derived_rows out (length tr) i) = 9%nat /\
    vec_sum (map r_q (derived_rows out (length tr) i)) = r_q t.
Proof.
  intros Ht.
  assert (Hne : tr <> []) by (intros ->; discriminate Ht).
  destruct (diffuseElectrons_rows g tr Hne) as (out & Hout & Hlen & Hctr & Hsat).
  exists out. split; [exact Hout|]. split; [lia|].
  assert (Hc : out !! i = Some (mkRow4 (r_x t) (r_y t) (r_z t) (0.4 * r_q t))).
  { rewrite (Hctr i t Ht). unfold center_row, centerAmpl. do 2 f_equal. lra. }
  assert (Hs : forall k d, diffPts g !! k = Some d ->
       out !! (length tr * (k + 1) + i)%nat =
         Some (mkRow4 (r_x t + d.1 * sqrt (r_z t)) (r_y t + d.2 * sqrt (r_z t))
                      (r_z t) (0.6 / 8 * r_q t))).
  { intros k d Hd. rewrite (Hsat k d i t Hd Ht).
    unfold satellite_row. rewrite diffAmpl_value. do 2 f_equal. lra. }
  split; [exact Hc|]. split; [reflexivity|]. split; [exact Hs|].
  unfold derived_rows.
  change (seq 0 9) with [0; 1; 2; 3; 4; 5; 6; 7; 8]%nat.
  pose proof (Hs 0%nat _ eq_refl) as H0. pose proof (Hs 1%nat _ eq_refl) as H1.
  pose proof (Hs 2%nat _ eq_refl) as H2. pose proof (Hs 3%nat _ eq_refl) as H3.
  pose proof (Hs 4%nat _ eq_refl) as H4. pose proof (Hs 5%nat _ eq_refl) as H5.
  pose proof (Hs 6%nat _ eq_refl) as H6. pose proof (Hs 7%nat _ eq_refl) as H7.
  cbn [Nat.add] in H0, H1, H2, H3, H4, H5, H6, H7.
  cbn [omap list_omap].
  rewrite Nat.mul_0_r, Nat.add_0_l, Hc, H0, H1, H2, H3, H4, H5, H6, H7.
  split; [reflexivity|]. cbn [map vec_sum foldr r_q]. lra.
Qed.

Lemma diffuseElectrons_charge_witness :
  let g := mkEventGenerator (mkVec3 0 0 (-1)) 4 40 1 1 0 1 1e6 1
                            (mkPadPlane (fun _ _ => 7%N) (fun _ => (0, 0))) in
  let t := mkRow4 1 2 4 100 in
  let tr := [mkRow4 0 0 1 50; t] in
  exists out,
    diffuseElectrons g tr = Some out /\
    length out = 18%nat /\
    out !! 1%nat = Some (mkRow4 (r_x t) (r_y t) (r_z t) (0.4 * r_q t)) /\
    length (diffPts g) = 8%nat /\
    (forall k d, diffPts g !! k = Some d ->
       out !! (2 * (k + 1) + 1)%nat =
         Some (mkRow4 (r_x t + d.1 * sqrt (r_z t)) (r_y t + d.2 * sqrt (r_z t))
                      (r_z t) (0.6 / 8 * r_q t))) /\
    length (derived_rows out 2 1) = 9%nat /\
    vec_sum (map r_q (derived_rows out 2 1)) = r_q t.
Proof.
  intros g t tr. apply (diffuseElectrons_charge g tr 1 t). reflexivity.
Defined.

End DiffuseClaims.

(** ** The prepared track *)

Section PrepareTrackFacts.
Import Calibration EventGen.
Local Open Scope R_scope.

Variable g : EventGenerator.

Lemma length_prepared_points pos en :
  length en = length pos -> (1 <= length pos)%nat ->
  length (prepared_points g pos en) = length pos.
Proof.
  intros Hlen Hpos. unfold prepared_points.
  rewrite length_zip_with. simpl. rewrite length_numElec_tail. lia.
Qed.

Lemma prepareTrack_some pos en :
  length en = length pos -> (2 <= length pos)%nat ->
  prepareTrack g pos en = diffuseElectrons g (prepared_points g pos en).
Proof.
  intros Hlen Hpos. unfold prepareTrack.
  rewrite decide_True by (unfold n_elem; lia).
  rewrite numElec_some by lia. simpl.
  rewrite decide_True.
  2:{ unfold n_elem. simpl. rewrite length_numElec_tail. lia. }
  f_equal. unfold prepared_points, uncalibrate, unTiltAndRecenter.
  generalize (0 :: numElec_tail g en). clear.
  induction pos as [|p pos IH]; intros [|q qs]; simpl; try reflexivity.
  f_equal. apply IH.
Qed.

Lemma prepareTrack_assert pos en :
  length en <> length pos -> prepareTrack g pos en = None.
Proof.
  intros Hlen. unfold prepareTrack.
  rewrite decide_False; [reflexivity|]. unfold n_elem. lia.
Qed.

Lemma prepareTrack_is_Some pos en :
  length en = length pos -> (2 <= length pos)%nat ->
  is_Some (prepareTrack g pos en).
Proof.
  intros Hlen Hpos. rewrite prepareTrack_some by assumption.
  destruct (diffuseElectrons_rows g (prepared_points g pos en)) as (out & -> & _).
  - intros Hnil. apply (f_equal length) in Hnil.
    rewrite length_prepared_points in Hnil by lia. simpl in Hnil. lia.
  - eauto.
Qed.

End PrepareTrackFacts.

Section NumElecSafety.
Import Calibration EventGen.
Local Open Scope R_scope.

(** C10: [numElec] fails exactly on energy vectors with fewer than two
    elements (the span from 1 to [numPts - 1] is then out of bounds); and
    on a trajectory of at least two points [prepareTrack], through which
    [makeEvent] reaches [numElec], returns a result exactly when the
    energies are as many as the points, so the failure of [numElec] is not
    reached there. *)
Theorem numElec_error_branch (g : EventGenerator) (en : vec) :
  (numElec g en = None <-> (length en < 2)%nat) /\
  (forall pos : list Vec3, (2 <= length pos)%nat ->
     (length en = length pos -> is_Some (numElec g en)) /\
     (is_Some (prepareTrack g pos en) <-> length en = length pos)).
Proof.
  split.
  - split.
    + intros Hnone. destruct (decide (length en < 2)%nat) as [|Hge]; [assumption|].
      rewrite numElec_some in Hnone by lia. discriminate.
    + apply numElec_none.
  - intros pos Hpos. split.
    + intros Hlen. rewrite numElec_some by lia. eauto.
    + split.
      * intros Hsome. destruct (decide (length en = length pos)) as [|Hne]; [assumption|].
        rewrite prepareTrack_assert in Hsome by assumption.
        destruct Hsome as [? ?]. discriminate.
      * intros Hlen. now apply prepareTrack_is_Some.
Qed.

Lemma numElec_error_branch_witness :
  let g := mkEventGenerator (mkVec3 0 0 (-1)) 4 40 1 1 0 1 1e6 1
                            (mkPadPlane (fun _ _ => 7%N) (fun _ => (0, 0))) in
  numElec g [] = None /\ numElec g [3] = None /\
  is_Some (numElec g [3; 2]) /\
  is_Some (prepareTrack g [mkVec3 0 0 0; mkVec3 0 0 0.5] [3; 2]).
Proof.
  intros g. split; [|split; [|split]].
  - apply (proj1 (numElec_error_branch g [])). simpl. lia.
  - apply (proj1 (numElec_error_branch g [3])). simpl. lia.
  - apply (proj2 (numElec_error_branch g [3; 2]) [mkVec3 0 0 0; mkVec3 0 0 0.5]);
      simpl; lia.
  - apply (proj2 (numElec_error_branch g [3; 2]) [mkVec3 0 0 0; mkVec3 0 0 0.5]);
      simpl; lia.
Defined.

End NumElecSafety.

Section DerivedRowsFacts.
Import Calibration EventGen.
Local Open Scope R_scope.

Variable g : EventGenerator.

Lemma diffuseElectrons_derived_rows (tr : list Row4) (i : nat) (t : Row4) :
  tr !! i = Some t ->
  exists out,
    diffuseElectrons g tr = Some out /\
    derived_rows out (length tr) i
      = center_row t :: map (fun d => satellite_row g d t) (diffPts g).
Proof.
  intros Ht.
  assert (Hne : tr <> []) by (intros ->; discriminate Ht).
  destruct (diffuseElectrons_rows g tr Hne) as (out & Hout & _ & Hctr & Hsat).
  exists out. split; [exact Hout|].
  unfold derived_rows.
  change (seq 0 9) with [0; 1; 2; 3; 4; 5; 6; 7; 8]%nat.
  pose proof (fun k d H => Hsat k d i t H Ht) as Hs.
  pose proof (Hs 0%nat _ eq_refl) as H0. pose proof (Hs 1%nat _ eq_refl) as H1.
  pose proof (Hs 2%nat _ eq_refl) as H2. pose proof (Hs 3%nat _ eq_refl) as H3.
  pose proof (Hs 4%nat _ eq_refl) as H4. pose proof (Hs 5%nat _ eq_refl) as H5.
  pose proof (Hs 6%nat _ eq_refl) as H6. pose proof (Hs 7%nat _ eq_refl) as H7.
  cbn [Nat.add] in H0, H1, H2, H3, H4, H5, H6, H7.
  cbn [omap list_omap].
  rewrite Nat.mul_0_r, Nat.add_0_l, (Hctr i t Ht), H0, H1, H2, H3, H4, H5, H6, H7.
  reflexivity.
Qed.

End DerivedRowsFacts.

Section EndToEnd.
Import Calibration EventGen.
Local Open Scope R_scope.

(** C8: with zero tilt, drift velocity (0, 0, -1) cm/us and a clock of
    1 MHz, a two-point trajectory whose second point is at z = 0.5 m gets
    time bucket 50 for that point from [unTiltAndRecenter] followed by
    [uncalibrate] with offset 0, and [prepareTrack] returns a track in which
    the nine rows of the second point all carry time bucket 50. *)
Theorem prepareTrack_time_bucket (g : EventGenerator) (x0 y0 x1 y1 e0 e1 : R) :
  tilt g = 0 -> vd g = mkVec3 0 0 (-1) -> clock g = 1e6 ->
  let pos := [mkVec3 x0 y0 0; mkVec3 x1 y1 0.5] in
  uncalibrate (unTiltAndRecenter pos (tilt g)) (vd g) (clock g) 0 !! 1%nat
    = Some (mkVec3 x1 y1 50) /\
  50 = 0.5 * 1e6 * 1e-4 / 1 /\
  exists out,
    prepareTrack g pos [e0; e1] = Some out /\
    length (derived_rows out 2 1) = 9%nat /\
    Forall (fun row => r_z row = 50) (derived_rows out 2 1).
Proof.
  intros Htilt Hvd Hclock pos.
  assert (Hrow : uncalibrate_row (vd g) (clock g) 0
                   (unTiltAndRecenter_row (tilt g) (mkVec3 x1 y1 0.5))
                 = mkVec3 x1 y1 50).
  { rewrite Htilt, Hvd, Hclock.
    unfold uncalibrate_row, unTiltAndRecenter_row. simpl.
    rewrite Ropp_0, cos_0, sin_0, tan_0.
    replace (- (-1)) with 1 by lra.
    apply Vec3_eq; simpl; lra. }
  split; [|split].
  - unfold pos, uncalibrate, unTiltAndRecenter. simpl. now rewrite Hrow.
  - lra.
  - rewrite prepareTrack_some by (simpl; lia).
    destruct (diffuseElectrons_derived_rows g (prepared_points g pos [e0; e1]) 1
                (prepared_point g (mkVec3 x1 y1 0.5)
                   (IZR (Zfloor (- (e1 * 1e6 * of_uword (massNum g)
                                    - e0 * 1e6 * of_uword (massNum g)) / ioniz g)))))
      as (out & Hout & Hrows).
    { reflexivity. }
    exists out. split; [exact Hout|].
    change (length (prepared_points g pos [e0; e1])) with 2%nat in Hrows.
    rewrite Hrows. split; [reflexivity|].
    unfold prepared_point. rewrite Hrow. simpl.
    repeat constructor.
Qed.

Lemma prepareTrack_time_bucket_witness :
  let g := mkEventGenerator (mkVec3 0 0 (-1)) 4 40 1 1 0 1 1e6 1
                            (mkPadPlane (fun _ _ => 7%N) (fun _ => (0, 0))) in
  let pos := [mkVec3 0 0 0; mkVec3 0 0 0.5] in
  uncalibrate (unTiltAndRecenter pos (tilt g)) (vd g) (clock g) 0 !! 1%nat
    = Some (mkVec3 0 0 50) /\
  50 = 0.5 * 1e6 * 1e-4 / 1 /\
  exists out,
    prepareTrack g pos [3; 2] = Some out /\
    length (derived_rows out 2 1) = 9%nat /\
    Forall (fun row => r_z row = 50) (derived_rows out 2 1).
Proof.
  intros g pos. apply (prepareTrack_time_bucket g 0 0 0 0 3 2); reflexivity.
Defined.

(** The time bucket of the same point as binary64 arithmetic computes it
    in [uncalibrate]: exactly 50. *)
Example uncalibrate_time_bucket_binary64 :
  let '(_, _, z) :=
    CalibrationF.uncalibrate_row 0 0 (-1) 1e6 0 (0, 0, 0.5)%float in
  PrimFloat.eqb z 50 = true.
Proof. vm_compute. reflexivity. Qed.

End EndToEnd.

(** ** The electronics pulse *)

Section PulseFacts.
Import EventGen.
Local Open Scope R_scope.

Lemma Ztrunc_IZR (z : Z) : Ztrunc (IZR z) = z.
Proof.
  unfold Ztrunc. destruct (decide (0 <= IZR z)).
  - apply ZfloorZ.
  - apply Zceil_eq. lra.
Qed.

Lemma to_uword_IZR (z : Z) :
  to_uword (IZR z) =
    if decide (0 <= z < Z.of_N uword_modulus)%Z then Some (Z.to_N z) else None.
Proof. unfold to_uword. now rewrite Ztrunc_IZR. Qed.

Lemma elecPulse_samples (amplitude shape clock offset : R) :
  (0 <= Zceil offset < Z.of_N uword_modulus)%Z ->
  exists res,
    elecPulse amplitude shape clock offset = Some res /\
    length res = 512%nat /\
    forall i : nat, (i < 512)%nat ->
      res !! i = Some (if decide (Z.of_nat i < Zceil offset)%Z then 0
                       else pulse_sample amplitude shape clock offset (N.of_nat i)).
Proof.
  intros Hrange. unfold elecPulse.
  rewrite to_uword_IZR, decide_True by assumption. simpl.
  set (firstPt := Z.to_N (Zceil offset)).
  assert (Hn : n_elem (zeros 512) = 512%N) by reflexivity.
  rewrite Hn.
  destruct (decide (firstPt <= 512)%N) as [Hle|Hgt].
  - pose (I := fun (k : N) (s : vec) =>
      length s = 512%nat /\
      forall i : nat, (i < 512)%nat ->
        s !! i = Some (if decide (firstPt <= N.of_nat i < k)%N
                       then pulse_sample amplitude shape clock offset (N.of_nat i)
                       else 0)).
    match goal with
    | |- exists res, for_range firstPt 512 ?init ?body = Some res /\ _ =>
        destruct (for_range_invariant I firstPt 512%N init body)
          as (res & Hres & Hlen & Hval)
    end.
    + exact Hle.
    + split; [apply length_zeros|]. intros i Hi.
      rewrite decide_False by lia. unfold zeros. now apply lookup_replicate_2.
    + intros k s [Hk1 Hk2] [Hlen Hval]. unfold set_elem, n_elem.
      rewrite decide_True by lia.
      eexists; split; [reflexivity|]. split; [now rewrite length_insert|].
      intros i Hi. destruct (decide (i = N.to_nat k)) as [->|Hne].
      * rewrite list_lookup_insert_eq by lia.
        rewrite decide_True by lia. rewrite N2Nat.id. reflexivity.
      * rewrite list_lookup_insert_ne by lia. rewrite Hval by assumption.
        destruct (decide (firstPt <= N.of_nat i < k)%N);
          [rewrite decide_True by lia|rewrite decide_False by lia]; reflexivity.
    + exists res. split; [exact Hres|]. split; [exact Hlen|].
      intros i Hi. rewrite Hval by assumption.
      destruct (decide (Z.of_nat i < Zceil offset)%Z);
        [rewrite decide_False by lia|rewrite decide_True by lia]; reflexivity.
  - rewrite for_range_empty by lia.
    exists (zeros 512). split; [reflexivity|]. split; [apply length_zeros|].
    intros i Hi. rewrite decide_True by lia.
    unfold zeros. now apply lookup_replicate_2.
Qed.

Lemma elecPulse_length amplitude shape clock offset pulse :
  elecPulse amplitude shape clock offset = Some pulse -> length pulse = 512%nat.
Proof.
  intros H.
  destruct (decide (0 <= Zceil offset < Z.of_N uword_modulus)%Z) as [Hr|Hr].
  - destruct (elecPulse_samples amplitude shape clock offset Hr) as (res & Hres & Hlen & _).
    congruence.
  - unfold elecPulse in H. rewrite to_uword_IZR, decide_False in H by assumption.
    discriminate.
Qed.

Lemma elecPulse_undefined amplitude shape clock offset :
  ~ (0 <= Zceil offset < Z.of_N uword_modulus)%Z ->
  elecPulse amplitude shape clock offset = None.
Proof.
  intros Hr. unfold elecPulse. now rewrite to_uword_IZR, decide_False by assumption.
Qed.

End PulseFacts.

Section PulseClaims.
Import EventGen.
Local Open Scope R_scope.

(** C6 (as amended): for every amplitude, shape time and clock frequency,
    and every offset whose ceiling an [arma::uword] can represent,
    [elecPulse] returns a vector of 512 samples whose entry at every index
    [i < ceil offset] is exactly zero. *)
Theorem elecPulse_causal (amplitude shape clock offset : R) :
  (0 <= Zceil offset < 2 ^ 64)%Z ->
  exists res,
    elecPulse amplitude shape clock offset = Some res /\
    length res = 512%nat /\
    forall i : nat, (i < 512)%nat -> (Z.of_nat i < Zceil offset)%Z ->
      res !! i = Some 0.
Proof.
  intros Hrange.
  destruct (elecPulse_samples amplitude shape clock offset) as (res & Hres & Hlen & Hval).
  { exact Hrange. }
  exists res. split; [exact Hres|]. split; [exact Hlen|].
  intros i Hi Hlt. rewrite Hval by assumption. now rewrite decide_True.
Qed.

Lemma elecPulse_causal_witness :
  exists res,
    elecPulse 1 1 1 2.5 = Some res /\
    length res = 512%nat /\
    forall i : nat, (i < 512)%nat -> (Z.of_nat i < Zceil 2.5)%Z ->
      res !! i = Some 0.
Proof.
  apply (elecPulse_causal 1 1 1 2.5).
  replace (Zceil 2.5) with 3%Z by (symmetry; apply Zceil_eq; lra). lia.
Defined.

(** C6 as stated fails for an offset whose ceiling does not fit an
    [arma::uword]: at offset 2^64 the conversion
    [static_cast<arma::uword>(std::ceil(offset))] is undefined and
    [elecPulse] has no result. *)
Lemma elecPulse_offset_out_of_range :
  elecPulse 1 1 1 (IZR (2 ^ 64)) = None.
Proof.
  apply elecPulse_undefined.
  replace (Zceil (IZR (2 ^ 64))) with (2 ^ 64)%Z by (symmetry; apply Zceil_eq; lra).
  intros [_ H]. vm_compute in H. discriminate H.
Qed.

End PulseClaims.

(** ** The diffused track as a list *)

Section DiffusedRows.
Import EventGen.
Local Open Scope R_scope.

Lemma lookup_concat_uniform {A} (bs : list (list A)) (n k i : nat) (b : list A) :
  Forall (fun b => length b = n) bs ->
  bs !! k = Some b -> (i < n)%nat ->
  concat bs !! (n * k + i)%nat = b !! i.
Proof.
  intros Hall. revert k. induction Hall as [|b0 bs Hb0 Hall IH]; intros k Hk Hi.
  - discriminate.
  - destruct k as [|k]; simpl in *.
    + injection Hk as ->. rewrite Nat.mul_0_r. simpl.
      apply lookup_app_l. lia.
    + rewrite lookup_app_r by nia.
      replace (n * Datatypes.S k + i - length b0)%nat with (n * k + i)%nat by nia.
      now apply IH.
Qed.

Variable g : EventGenerator.

Lemma length_diffused_rows tr : length (diffused_rows g tr) = (length tr * 9)%nat.
Proof.
  unfold diffused_rows, diffPts. simpl.
  repeat rewrite length_app. repeat rewrite length_map. simpl. lia.
Qed.

Lemma diffuseElectrons_some (tr : list Row4) :
  tr <> [] -> diffuseElectrons g tr = Some (diffused_rows g tr).
Proof.
  intros Hne.
  destruct (diffuseElectrons_rows g tr Hne) as (out & -> & Hlen & Hctr & Hsat).
  f_equal. apply list_eq. intros j.
  assert (Hn : (0 < length tr)%nat) by (destruct tr; [congruence|simpl; lia]).
  destruct (decide (j < length tr * 9)%nat) as [Hj|Hj].
  2:{ rewrite !(lookup_ge_None_2 _ j); [reflexivity| |]; [rewrite length_diffused_rows|]; lia. }
  pose proof (Nat.div_mod_eq j (length tr)) as Hdiv.
  pose proof (Nat.mod_upper_bound j (length tr) ltac:(lia)) as Hmod.
  assert (Hk : (j / length tr < 9)%nat) by (apply Nat.Div0.div_lt_upper_bound; lia).
  destruct (lookup_lt_is_Some_2 tr (j mod length tr) Hmod) as [t Ht].
  unfold diffused_rows.
  destruct (j / length tr)%nat as [|k] eqn:Hq.
  - rewrite Nat.mul_0_r, Nat.add_0_l in Hdiv. rewrite Hdiv.
    rewrite (Hctr _ t Ht), lookup_app_l by (rewrite length_map; lia).
    now rewrite list_lookup_fmap, Ht.
  - destruct (lookup_lt_is_Some_2 (diffPts g) k) as [d Hd].
    { change (length (diffPts g)) with 8%nat. lia. }
    replace j with (length tr * (k + 1) + j mod length tr)%nat at 1 by lia.
    rewrite (Hsat k d _ t Hd Ht).
    rewrite lookup_app_r by (rewrite length_map; nia).
    rewrite length_map.
    replace (j - length tr)%nat with (length tr * k + j mod length tr)%nat by nia.
    rewrite (lookup_concat_uniform _ (length tr) k _ (map (satellite_row g d) tr)).
    + now rewrite list_lookup_fmap, Ht.
    + apply Forall_forall. intros b Hb.
      apply list_elem_of_fmap in Hb as (d' & -> & _). now rewrite length_map.
    + now rewrite list_lookup_fmap, Hd.
    + exact Hmod.
Qed.

Lemma prepareTrack_eq pos en :
  length en = length pos -> (2 <= length pos)%nat ->
  prepareTrack g pos en = Some (diffused_rows g (prepared_points g pos en)).
Proof.
  intros Hlen Hpos. rewrite prepareTrack_some by assumption.
  apply diffuseElectrons_some. intros Hnil. apply (f_equal length) in Hnil.
  rewrite length_prepared_points in Hnil by lia. simpl in Hnil. lia.
Qed.

End DiffusedRows.

(** ** The event *)

Section LoopOverRows.
Context {S A : Type}.

Lemma foldl_bind_None (f : S -> A -> option S) (l : list A) :
  foldl (fun acc x => s ← acc; f s x) None l = None.
Proof. induction l as [|x l IH]; simpl; [reflexivity|exact IH]. Qed.

(** A loop whose first iteration fails has no result. *)
Lemma for_range_first_fails (lo hi : N) (init : S) (body : N -> S -> option S) :
  (lo < hi)%N -> body lo init = None -> for_range lo hi init body = None.
Proof.
  intros Hlt Hfail. unfold for_range.
  destruct (N.to_nat (hi - lo)) as [|m] eqn:Hm; [lia|].
  simpl. rewrite N.add_0_r, Hfail.
  generalize (seq 1 m). intros l. induction l as [|x l IH]; simpl; [reflexivity|exact IH].
Qed.

(** A loop that reads row [i] of a matrix in iteration [i], over the first
    rows of the matrix, is a fold over these rows. *)
Lemma for_range_rows (f : S -> A -> option S) (rows extra : list A) (init : S) :
  for_range 0 (n_elem rows) init
    (fun i s => row ← elem (rows ++ extra) i; f s row)
  = foldl (fun acc row => s ← acc; f s row) (Some init) rows.
Proof.
  revert extra. induction rows as [|x rows IH] using rev_ind; intros extra.
  - reflexivity.
  - replace (n_elem (rows ++ [x])) with (n_elem rows + 1)%N
      by (unfold n_elem; rewrite length_app; simpl; lia).
    rewrite for_range_snoc by lia.
    rewrite <- app_assoc. rewrite IH. rewrite foldl_app. simpl.
    destruct (foldl _ _ rows) as [s|]; simpl; [|reflexivity].
    unfold elem, n_elem. rewrite Nat2N.id.
    rewrite lookup_app_r by lia. rewrite Nat.sub_diag. reflexivity.
Qed.

End LoopOverRows.

Section EventFacts.
Import EventGen.
Local Open Scope R_scope.

Variable E_CHG : R.
Variable g : EventGenerator.

Lemma makeEvent_loop_snoc (rows : list Row4) (last : Row4) :
  makeEvent_loop E_CHG g (rows ++ [last]) = makeEvent_fold E_CHG g ∅ rows.
Proof.
  unfold makeEvent_loop, makeEvent_fold.
  replace (uword_sub (n_elem (rows ++ [last])) 1) with (n_elem rows).
  - apply (for_range_rows (makeEvent_step E_CHG g)).
  - rewrite uword_sub_le; unfold n_elem; rewrite length_app; simpl; lia.
Qed.

(** On an empty track the bound [n_rows - 1] wraps around and the first
    access is out of bounds. *)
Lemma makeEvent_loop_nil : makeEvent_loop E_CHG g [] = None.
Proof.
  unfold makeEvent_loop. apply for_range_first_fails; reflexivity.
Qed.

Lemma signal_at_nonempty (m : gmap pad_t vec) p : signal_at m p <> [].
Proof.
  unfold signal_at. destruct (default [] (m !! p)); [|discriminate].
  unfold zeros. simpl. discriminate.
Qed.

Lemma signal_at_insert (m : gmap pad_t vec) p q (s : vec) :
  s <> [] ->
  signal_at (<[p := s]> m) q = if decide (p = q) then s else signal_at m q.
Proof.
  intros Hs. unfold signal_at. destruct (decide (p = q)) as [->|Hne].
  - rewrite lookup_insert_eq. simpl. destruct s; [congruence|reflexivity].
  - now rewrite lookup_insert_ne.
Qed.

Lemma makeEvent_step_sentinel (result : gmap pad_t vec) (row : Row4) :
  pad_of g row = 20000%N -> makeEvent_step E_CHG g result row = Some result.
Proof.
  intros Hpad. unfold makeEvent_step. fold (pad_of g row).
  rewrite decide_False; [reflexivity|]. intros Hne. now apply Hne.
Qed.

Lemma makeEvent_step_overflow (result : gmap pad_t vec) (row : Row4) :
  pad_of g row <> 20000%N -> r_z row > 511 ->
  makeEvent_step E_CHG g result row
    = Some (<[pad_of g row := signal_at result (pad_of g row)]> result).
Proof.
  intros Hpad Hz. unfold makeEvent_step. fold (pad_of g row).
  rewrite decide_True by assumption. rewrite decide_True by assumption.
  reflexivity.
Qed.

Lemma makeEvent_step_pulse (result : gmap pad_t vec) (row : Row4) :
  pad_of g row <> 20000%N -> ~ r_z row > 511 ->
  makeEvent_step E_CHG g result row
    = (pulse ← elecPulse (conversionFactor E_CHG g * r_q row) (shape g) (clock g) (r_z row);
       padSignal ← vec_add (signal_at result (pad_of g row)) pulse;
       Some (<[pad_of g row := padSignal]> result)).
Proof.
  intros Hpad Hz. unfold makeEvent_step. fold (pad_of g row).
  rewrite decide_True by assumption. rewrite decide_False by assumption.
  reflexivity.
Qed.

End EventFacts.

Section EventInvariant.
Import EventGen.
Local Open Scope R_scope.

Variable E_CHG : R.
Variable g : EventGenerator.

Lemma makeEvent_fold_cons (m : gmap pad_t vec) (row : Row4) (rows : list Row4) :
  makeEvent_fold E_CHG g m (row :: rows)
  = (m' ← makeEvent_step E_CHG g m row; makeEvent_fold E_CHG g m' rows).
Proof.
  unfold makeEvent_fold. simpl.
  destruct (makeEvent_step E_CHG g m row); simpl; [reflexivity|].
  apply foldl_bind_None.
Qed.

Lemma signal_at_length m q : signals_512 m -> length (signal_at m q) = 512%nat.
Proof.
  intros Hm. unfold signal_at. destruct (m !! q) as [sig|] eqn:Hq; simpl.
  - pose proof (Hm q sig Hq) as Hlen. destruct sig; [discriminate Hlen|exact Hlen].
  - reflexivity.
Qed.

Lemma signals_512_insert m q sig :
  signals_512 m -> length sig = 512%nat -> signals_512 (<[q := sig]> m).
Proof.
  intros Hm Hsig q' sig' Hq'. destruct (decide (q = q')) as [->|Hne].
  - rewrite lookup_insert_eq in Hq'. congruence.
  - rewrite lookup_insert_ne in Hq' by assumption. eapply Hm, Hq'.
Qed.

Lemma signals_512_empty : signals_512 ∅.
Proof. intros q sig Hq. rewrite lookup_empty in Hq. discriminate. Qed.

Lemma Zceil_in_range (z : R) :
  -1 < z -> ~ z > 511 -> (0 <= Zceil z < Z.of_N uword_modulus)%Z.
Proof.
  intros Hlo Hhi. pose proof (Zceil_bound z) as [Hb1 Hb2].
  assert (H0 : (-1 < Zceil z)%Z) by (apply lt_IZR; lra).
  assert (H1 : (Zceil z < 512)%Z) by (apply lt_IZR; lra).
  change (Z.of_N uword_modulus) with (2 ^ 64)%Z. lia.
Qed.

(** One iteration on a row that is neither off the pad plane nor past the
    last time bucket adds a pulse to the signal of the row's pad. *)
Lemma makeEvent_step_defined (m : gmap pad_t vec) (row : Row4) :
  signals_512 m ->
  pad_of g row <> 20000%N -> ~ r_z row > 511 -> -1 < r_z row ->
  exists sig, length sig = 512%nat /\
    makeEvent_step E_CHG g m row = Some (<[pad_of g row := sig]> m).
Proof.
  intros Hm Hpad Hz Hlo. rewrite makeEvent_step_pulse by assumption.
  destruct (elecPulse_samples (conversionFactor E_CHG g * r_q row) (shape g) (clock g)
              (r_z row)) as (pulse & -> & Hlen & _).
  { now apply Zceil_in_range. }
  simpl. unfold vec_add.
  rewrite decide_True by (rewrite signal_at_length by assumption; lia).
  simpl. eexists; split; [|reflexivity].
  rewrite length_zip_with, signal_at_length by assumption. lia.
Qed.

(** A pad [p] whose rows are all past the last time bucket keeps an
    all-zero signal through the loop, and gets one as soon as one of its
    rows is met. *)
Lemma makeEvent_fold_zero_pad (p : pad_t) (rows : list Row4) :
  forall m : gmap pad_t vec,
  signals_512 m ->
  (m !! p = None \/ m !! p = Some (zeros 512)) ->
  (forall row, row ∈ rows -> pad_of g row = p -> r_z row > 511) ->
  (forall row, row ∈ rows -> pad_of g row <> 20000%N -> ~ r_z row > 511 ->
               -1 < r_z row) ->
  exists evt,
    makeEvent_fold E_CHG g m rows = Some evt /\
    signals_512 evt /\
    (p <> 20000%N ->
     m !! p = Some (zeros 512) \/ (exists row, row ∈ rows /\ pad_of g row = p) ->
     evt !! p = Some (zeros 512)).
Proof.
  induction rows as [|row rows IH]; intros m Hm Hp Hover Hdef.
  - exists m. split; [reflexivity|]. split; [assumption|].
    intros _ [H|(row & Hin & _)]; [assumption|]. now apply elem_of_nil in Hin.
  - rewrite makeEvent_fold_cons.
    assert (Hover' : forall r, r ∈ rows -> pad_of g r = p -> r_z r > 511).
    { intros r Hr. apply Hover. now right. }
    assert (Hdef' : forall r, r ∈ rows -> pad_of g r <> 20000%N ->
                       ~ r_z r > 511 -> -1 < r_z r).
    { intros r Hr. apply Hdef. now right. }
    destruct (decide (pad_of g row = 20000%N)) as [Hs|Hs].
    { (* off the pad plane *)
      rewrite makeEvent_step_sentinel by assumption. simpl.
      destruct (IH m Hm Hp Hover' Hdef') as (evt & Hevt & Hlen & Hz).
      exists evt. split; [assumption|]. split; [assumption|].
      intros Hp20 [H|(r & Hin & Hr)]; [now apply Hz; [|left]|].
      apply elem_of_cons in Hin as [->|Hin]; [congruence|].
      apply Hz; [assumption|]. right. eauto. }
    destruct (decide (r_z row > 511)) as [Hz|Hz].
    { (* past the last time bucket *)
      rewrite makeEvent_step_overflow by assumption. simpl.
      set (m' := <[pad_of g row := signal_at m (pad_of g row)]> m).
      assert (Hm' : signals_512 m').
      { apply signals_512_insert; [assumption|now apply signal_at_length]. }
      assert (Hp' : (m' !! p = None \/ m' !! p = Some (zeros 512)) /\
                    (pad_of g row = p -> m' !! p = Some (zeros 512)) /\
                    (m !! p = Some (zeros 512) -> m' !! p = Some (zeros 512))).
      { unfold m'. destruct (decide (pad_of g row = p)) as [->|Hne].
        - rewrite lookup_insert_eq.
          assert (Hsig : signal_at m p = zeros 512).
          { unfold signal_at. destruct Hp as [-> | ->]; reflexivity. }
          rewrite Hsig. auto.
        - rewrite lookup_insert_ne by assumption. split; [assumption|].
          split; [congruence|auto]. }
      destruct Hp' as (Hp1 & Hp2 & Hp3).
      destruct (IH m' Hm' Hp1 Hover' Hdef') as (evt & Hevt & Hlen & Hzero).
      exists evt. split; [assumption|]. split; [assumption|].
      intros Hp20 [H|(r & Hin & Hr)]; [apply Hzero; auto|].
      apply elem_of_cons in Hin as [->|Hin]; [apply Hzero; auto|].
      apply Hzero; [assumption|]. right. eauto. }
    (* a pulse is added: the pad is not [p] *)
    assert (Hne : pad_of g row <> p).
    { intros Heq. apply Hz. apply Hover; [now left|assumption]. }
    destruct (makeEvent_step_defined m row) as (sig & Hsig & ->);
      [assumption|assumption|assumption|apply Hdef; [now left|assumption..]|].
    simpl.
    destruct (IH (<[pad_of g row := sig]> m)) as (evt & Hevt & Hlen & Hzero).
    + now apply signals_512_insert.
    + rewrite lookup_insert_ne by assumption. exact Hp.
    + exact Hover'.
    + exact Hdef'.
    + exists evt. split; [assumption|]. split; [assumption|].
      intros Hp20 [H|(r & Hin & Hr)].
      * apply Hzero; [assumption|]. left. now rewrite lookup_insert_ne.
      * apply elem_of_cons in Hin as [->|Hin]; [congruence|].
        apply Hzero; [assumption|]. right. eauto.
Qed.

Lemma prepareTrack_Some_inv pos en uncal :
  prepareTrack g pos en = Some uncal ->
  length en = length pos /\ (2 <= length pos)%nat /\
  uncal = diffused_rows g (prepared_points g pos en).
Proof.
  intros H.
  destruct (decide (length en = length pos)) as [Hlen|Hlen].
  2:{ rewrite prepareTrack_assert in H by assumption. discriminate. }
  destruct (decide (2 <= length pos)%nat) as [Hpos|Hpos].
  - rewrite prepareTrack_eq in H by assumption. injection H as <-. auto.
  - unfold prepareTrack in H. rewrite decide_True in H by (unfold n_elem; lia).
    rewrite numElec_none in H by lia. discriminate.
Qed.

Lemma prepareTrack_snoc pos en uncal :
  prepareTrack g pos en = Some uncal ->
  uncal = removelast uncal ++ [List.last uncal uninit].
Proof.
  intros H. apply prepareTrack_Some_inv in H as (Hlen & Hpos & ->).
  apply app_removelast_last. intros Hnil. apply (f_equal length) in Hnil.
  rewrite length_diffused_rows, length_prepared_points in Hnil by lia.
  simpl in Hnil. lia.
Qed.

Lemma makeEvent_fold_removelast pos en uncal :
  prepareTrack g pos en = Some uncal ->
  makeEvent E_CHG g pos en = makeEvent_fold E_CHG g ∅ (removelast uncal).
Proof.
  intros H. unfold makeEvent. rewrite H. simpl.
  rewrite (prepareTrack_snoc pos en uncal H) at 1.
  apply makeEvent_loop_snoc.
Qed.

End EventInvariant.

Section TrackRows.
Import Calibration EventGen.
Local Open Scope R_scope.

Variable g : EventGenerator.

Lemma elem_of_removelast {A} (l : list A) (x : A) : x ∈ removelast l -> x ∈ l.
Proof.
  destruct l as [|a l] using rev_ind; [auto|].
  rewrite removelast_last. intros H. apply elem_of_app. now left.
Qed.

(** Diffusion leaves the time bucket of a point alone. *)
Lemma diffused_rows_z (tr : list Row4) (row : Row4) :
  row ∈ diffused_rows g tr -> exists t, t ∈ tr /\ r_z row = r_z t.
Proof.
  unfold diffused_rows. intros [H|H]%elem_of_app.
  - apply list_elem_of_fmap in H as (t & -> & Ht). eauto.
  - apply list_elem_of_In, in_concat in H as (blk & Hblk & Hrow).
    apply in_map_iff in Hblk as (d & <- & _).
    apply in_map_iff in Hrow as (t & <- & Ht).
    exists t. split; [now apply list_elem_of_In|reflexivity].
Qed.

(** The time bucket of every row of the prepared track is that of one of
    the trajectory points. *)
Lemma prepared_rows_z (pos : list Vec3) (en : vec) (row : Row4) :
  row ∈ diffused_rows g (prepared_points g pos en) ->
  exists p, p ∈ pos /\
    r_z row = v_z (uncalibrate_row (vd g) (clock g) 0
                     (unTiltAndRecenter_row (tilt g) p)).
Proof.
  intros (t & Ht & ->)%diffused_rows_z.
  unfold prepared_points in Ht.
  apply elem_of_zip_with in Ht as (p & q & -> & Hp & _).
  exists p. split; [assumption|reflexivity].
Qed.

End TrackRows.

Section DroppedRows.
Import EventGen.
Local Open Scope R_scope.

Variable E_CHG : R.
Variable g : EventGenerator.

Lemma same_signals_insert (m1 m2 : gmap pad_t vec) (p : pad_t) (s : vec) :
  same_signals m1 m2 -> same_signals (<[p := s]> m1) (<[p := s]> m2).
Proof.
  intros H q. unfold signal_at. destruct (decide (p = q)) as [->|Hne].
  - now rewrite !lookup_insert_eq.
  - rewrite !lookup_insert_ne by assumption. apply H.
Qed.

Lemma same_signals_overflow (m : gmap pad_t vec) (p : pad_t) :
  same_signals (<[p := signal_at m p]> m) m.
Proof.
  intros q. rewrite signal_at_insert by apply signal_at_nonempty.
  destruct (decide (p = q)) as [->|]; reflexivity.
Qed.

(** The loop body gives the same signals from events that show the same
    signals. *)
Lemma makeEvent_step_same_signals (m1 m2 : gmap pad_t vec) (row : Row4) :
  same_signals m1 m2 ->
  option_Forall2 same_signals
    (makeEvent_step E_CHG g m1 row) (makeEvent_step E_CHG g m2 row).
Proof.
  intros H.
  destruct (decide (pad_of g row = 20000%N)) as [Hs|Hs].
  { rewrite !makeEvent_step_sentinel by assumption. now constructor. }
  destruct (decide (r_z row > 511)) as [Hz|Hz].
  { rewrite !makeEvent_step_overflow by assumption. constructor.
    rewrite (H (pad_of g row)). now apply same_signals_insert. }
  rewrite !makeEvent_step_pulse by assumption. rewrite (H (pad_of g row)).
  destruct (elecPulse _ _ _ _) as [pulse|]; simpl; [|constructor].
  destruct (vec_add _ pulse) as [s|]; simpl; constructor.
  now apply same_signals_insert.
Qed.

(** Rows off the pad plane and rows past the last time bucket can be left
    out of the track: the loop fails or succeeds as before, and the signals
    of the event are the same. *)
Lemma makeEvent_fold_dropped (rows : list Row4) :
  forall m1 m2 : gmap pad_t vec,
    same_signals m1 m2 ->
    option_Forall2 same_signals
      (makeEvent_fold E_CHG g m1 rows)
      (makeEvent_fold E_CHG g m2 (filter (contributes g) rows)).
Proof.
  induction rows as [|row rows IH]; intros m1 m2 H.
  - now constructor.
  - rewrite makeEvent_fold_cons.
    destruct (decide (contributes g row)) as [Hc|Hc].
    + rewrite filter_cons_True by assumption. rewrite makeEvent_fold_cons.
      destruct (makeEvent_step_same_signals m1 m2 row H) as [m1' m2' H'|]; simpl.
      * now apply IH.
      * constructor.
    + rewrite filter_cons_False by assumption.
      destruct (decide (pad_of g row = 20000%N)) as [Hs|Hs].
      * rewrite makeEvent_step_sentinel by assumption. simpl. now apply IH.
      * assert (Hz : r_z row > 511).
        { destruct (decide (r_z row > 511)) as [|Hz]; [assumption|].
          exfalso. apply Hc. now split. }
        rewrite makeEvent_step_overflow by assumption. simpl.
        apply IH. intros q. rewrite same_signals_overflow. apply H.
Qed.

End DroppedRows.

Section EventClaims.
Import Calibration EventGen.
Local Open Scope R_scope.

(** C4: [makeEvent] runs its loop body over the rows of the prepared track
    in order, all but the last one; an iteration on a row whose pad lookup
    gives 20000 returns the event unchanged; an iteration on a row of
    another pad whose time bucket exceeds 511 raises nothing and leaves the
    signal of every pad as it was; and the event is, signal for signal, the
    one of the track without such rows. *)
Theorem makeEvent_skips (E_CHG : R) (g : EventGenerator)
    (pos : list Vec3) (en : vec) (uncal : list Row4)
    (result : gmap pad_t vec) (row : Row4) :
  (prepareTrack g pos en = Some uncal ->
   makeEvent E_CHG g pos en = makeEvent_fold E_CHG g ∅ (removelast uncal)) /\
  (pad_of g row = 20000%N ->
   makeEvent_step E_CHG g result row = Some result) /\
  (pad_of g row <> 20000%N -> r_z row > 511 ->
   exists result',
     makeEvent_step E_CHG g result row = Some result' /\
     forall p, signal_at result' p = signal_at result p) /\
  (prepareTrack g pos en = Some uncal ->
   option_Forall2 same_signals
     (makeEvent E_CHG g pos en)
     (makeEvent_fold E_CHG g ∅ (filter (contributes g) (removelast uncal)))).
Proof.
  split; [|split; [|split]].
  - apply makeEvent_fold_removelast.
  - apply makeEvent_step_sentinel.
  - intros Hpad Hz. rewrite makeEvent_step_overflow by assumption.
    eexists; split; [reflexivity|]. apply same_signals_overflow.
  - intros Hprep. rewrite (makeEvent_fold_removelast E_CHG g pos en uncal Hprep).
    now apply makeEvent_fold_dropped.
Qed.

Lemma makeEvent_skips_witness :
  let plane := mkPadPlane (fun x _ => if decide (x < 0) then 20000%N else 7%N)
                          (fun _ => (0, 0)) in
  let g := mkEventGenerator (mkVec3 0 0 (-1)) 4 40 1 1 0 1 1e6 1 plane in
  let pos := [mkVec3 0 0 6; mkVec3 0 0 7] in
  let uncal := diffused_rows g (prepared_points g pos [3; 2]) in
  makeEvent 1 g pos [3; 2] = makeEvent_fold 1 g ∅ (removelast uncal) /\
  makeEvent_step 1 g ∅ (mkRow4 (-1) 0 5 10) = Some ∅ /\
  (exists result',
    makeEvent_step 1 g ∅ (mkRow4 1 0 600 10) = Some result' /\
    forall p, signal_at result' p = signal_at ∅ p) /\
  option_Forall2 same_signals
    (makeEvent 1 g pos [3; 2])
    (makeEvent_fold 1 g ∅ (filter (contributes g) (removelast uncal))).
Proof.
  intros plane g pos uncal.
  assert (Hoff : pad_of g (mkRow4 (-1) 0 5 10) = 20000%N).
  { unfold pad_of. simpl. rewrite decide_True by lra. reflexivity. }
  assert (Hon : pad_of g (mkRow4 1 0 600 10) <> 20000%N).
  { unfold pad_of. simpl. rewrite decide_False by lra. discriminate. }
  assert (Hprep : prepareTrack g pos [3; 2] = Some uncal).
  { apply prepareTrack_eq; simpl; lia. }
  split; [|split; [|split]].
  - apply (makeEvent_skips 1 g pos [3; 2] uncal ∅ uninit). exact Hprep.
  - apply (makeEvent_skips 1 g pos [3; 2] uncal ∅ (mkRow4 (-1) 0 5 10)).
    exact Hoff.
  - apply (makeEvent_skips 1 g pos [3; 2] uncal ∅ (mkRow4 1 0 600 10)).
    + exact Hon.
    + simpl. lra.
  - apply (makeEvent_skips 1 g pos [3; 2] uncal ∅ uninit). exact Hprep.
Defined.

(** C9: when [prepareTrack] returns the track [uncal] and, among its rows
    other than the last, pad [p] (not the sentinel) has at least one row and
    all rows of [p] are past time bucket 511, [makeEvent] returns an event
    that has [p] as a key with an all-zero 512-sample signal.  (The rows of
    the other pads are assumed to have time buckets above -1, so that their
    pulses are defined.) *)
Theorem makeEvent_zero_signal (E_CHG : R) (g : EventGenerator)
    (pos : list Vec3) (en : vec) (uncal : list Row4) (p : pad_t) :
  prepareTrack g pos en = Some uncal ->
  p <> 20000%N ->
  (exists row, row ∈ removelast uncal /\ pad_of g row = p) ->
  (forall row, row ∈ removelast uncal -> pad_of g row = p -> r_z row > 511) ->
  (forall row, row ∈ removelast uncal -> pad_of g row <> 20000%N ->
               ~ r_z row > 511 -> -1 < r_z row) ->
  exists evt,
    makeEvent E_CHG g pos en = Some evt /\
    evt !! p = Some (zeros 512).
Proof.
  intros Hprep Hp Hex Hover Hdef.
  rewrite (makeEvent_fold_removelast E_CHG g pos en uncal Hprep).
  destruct (makeEvent_fold_zero_pad E_CHG g p (removelast uncal) ∅)
    as (evt & Hevt & _ & Hzero).
  - apply signals_512_empty.
  - left. apply lookup_empty.
  - exact Hover.
  - exact Hdef.
  - exists evt. split; [exact Hevt|]. apply Hzero; [exact Hp|]. now right.
Qed.

Lemma makeEvent_zero_signal_witness :
  let g := mkEventGenerator (mkVec3 0 0 (-1)) 4 40 1 1 0 1 1e6 1
                            (mkPadPlane (fun _ _ => 7%N) (fun _ => (0, 0))) in
  exists evt,
    makeEvent 1 g [mkVec3 0 0 6; mkVec3 0 0 7] [3; 2] = Some evt /\
    evt !! 7%N = Some (zeros 512).
Proof.
  intros g.
  set (pos := [mkVec3 0 0 6; mkVec3 0 0 7]).
  set (uncal := diffused_rows g (prepared_points g pos [3; 2])).
  assert (Hz : forall row, row ∈ removelast uncal -> r_z row > 511).
  { intros row Hrow%elem_of_removelast.
    apply prepared_rows_z in Hrow as (pt & Hpt & ->).
    unfold uncalibrate_row, unTiltAndRecenter_row. simpl.
    rewrite Ropp_0, cos_0, sin_0. replace (- (-1)) with 1 by lra.
    apply elem_of_cons in Hpt as [->|Hpt]; [simpl; lra|].
    apply elem_of_cons in Hpt as [->|Hpt]; [simpl; lra|].
    now apply elem_of_nil in Hpt. }
  apply (makeEvent_zero_signal 1 g pos [3; 2] uncal 7%N).
  - apply prepareTrack_eq; simpl; lia.
  - discriminate.
  - exists (center_row (prepared_point g (mkVec3 0 0 6) 0)).
    split; [|reflexivity].
    apply (list_elem_of_lookup_2 _ 0%nat). reflexivity.
  - intros row Hrow _. now apply Hz.
  - intros row Hrow _ Hnot. exfalso. apply Hnot. now apply Hz.
Defined.

End EventClaims.

(** ** The peaks table *)

Section PeaksFacts.
Import EventGen.
Local Open Scope R_scope.

Lemma peak_samples_elem (sig : vec) (mx : R) (p : N * R) :
  p ∈ peak_samples sig mx <->
  p.2 > 0.3 * mx /\ exists i : nat, p.1 = N.of_nat i /\ sig !! i = Some p.2.
Proof.
  unfold peak_samples. rewrite list_elem_of_filter, elem_of_lookup_imap.
  split.
  - intros (Hgt & i & x & -> & Hx). simpl. split; [exact Hgt|]. eauto.
  - intros (Hgt & i & Hi & Hx). split; [exact Hgt|].
    exists i, p.2. split; [|exact Hx]. destruct p; simpl in *. now subst.
Qed.

Lemma find_gt_peak_samples (sig : vec) (mx : R) :
  find_gt sig (0.3 * mx) = map fst (peak_samples sig mx).
Proof. reflexivity. Qed.

Lemma elems_fst_snd (sig : vec) (l : list (N * R)) :
  Forall (fun p => elem sig p.1 = Some p.2) l ->
  elems sig (map fst l) = Some (map snd l).
Proof.
  intros Hl. unfold elems. apply mapM_Some_2.
  induction Hl as [|p l Hp Hl IH]; simpl; constructor; assumption.
Qed.

Lemma elems_peak_samples (sig : vec) (mx : R) :
  elems sig (find_gt sig (0.3 * mx)) = Some (map snd (peak_samples sig mx)).
Proof.
  rewrite find_gt_peak_samples. apply elems_fst_snd.
  apply Forall_forall. intros p (_ & i & Hi & Hx)%peak_samples_elem.
  unfold elem. rewrite Hi, Nat2N.id. exact Hx.
Qed.

Lemma dot_fst_snd (l : list (N * R)) :
  dot (map fst l) (map snd l)
  = Some (vec_sum (map (fun p => of_uword p.1 * p.2) l)).
Proof.
  unfold dot. rewrite decide_True by now rewrite !length_map.
  f_equal. f_equal. induction l as [|p l IH]; simpl; [reflexivity|now rewrite IH].
Qed.

Variable g : EventGenerator.

(** One iteration of the loop of the peaks table, in terms of the
    quantities above. *)
Lemma peaksTable_step_entry (rows : list PeakRow) (pair : pad_t * vec) :
  pair.2 <> [] ->
  peaksTable_step g rows pair
  = Some (rows ++ match peak_entry g pair with Some r => [r] | None => [] end).
Proof.
  intros Hne. unfold peaksTable_step, peak_entry.
  destruct (vec_max pair.2) as [mx|] eqn:Hmx.
  2:{ destruct pair as [pad [|x sig]]; [now contradiction Hne|discriminate Hmx]. }
  simpl. rewrite elems_peak_samples. simpl.
  fold (peak_total pair.2 mx).
  destruct (decide (peak_total pair.2 mx < 1e-3)) as [Hlow|Hhigh].
  - now rewrite app_nil_r.
  - rewrite find_gt_peak_samples, dot_fst_snd. reflexivity.
Qed.

Lemma peaksTable_fold (items : list (pad_t * vec)) (rows : list PeakRow) :
  Forall (fun pair => pair.2 <> []) items ->
  foldl (fun acc pair => rows ← acc; peaksTable_step g rows pair) (Some rows) items
  = Some (rows ++ omap (peak_entry g) items).
Proof.
  intros Hitems. revert rows.
  induction Hitems as [|pair items Hpair Hitems IH]; intros rows; simpl.
  - now rewrite app_nil_r.
  - rewrite peaksTable_step_entry by assumption. rewrite IH.
    destruct (peak_entry g pair); simpl; now rewrite <- app_assoc.
Qed.

Lemma event_items_elem (evt : gmap pad_t vec) (pad : pad_t) (sig : vec) :
  (pad, sig) ∈ event_items evt <-> evt !! pad = Some sig.
Proof.
  unfold event_items. rewrite merge_sort_Permutation.
  apply elem_of_map_to_list.
Qed.

(** The table for an event without empty signals: the rows of its pads, in
    increasing order of the pad numbers. *)
Lemma peaksTable_of_event_some (evt : gmap pad_t vec) :
  (forall pad sig, evt !! pad = Some sig -> sig <> []) ->
  peaksTable_of_event g evt = Some (omap (peak_entry g) (event_items evt)).
Proof.
  intros Hevt. unfold peaksTable_of_event.
  rewrite peaksTable_fold; [reflexivity|].
  apply Forall_forall. intros [pad sig] Hin%event_items_elem. simpl. eauto.
Qed.

Lemma peak_samples_none (sig : vec) (mx : R) :
  Forall (fun x => ~ x > 0.3 * mx) sig -> peak_samples sig mx = [].
Proof.
  intros Hsig. destruct (peak_samples sig mx) as [|p l] eqn:Hl; [reflexivity|].
  assert (Hp : p ∈ peak_samples sig mx) by (rewrite Hl; left).
  apply peak_samples_elem in Hp as (Hgt & i & _ & Hx).
  rewrite Forall_forall in Hsig. exfalso.
  eapply Hsig; [|exact Hgt]. eapply list_elem_of_lookup_2, Hx.
Qed.

Lemma foldl_Rmax_zero (l : vec) :
  Forall (fun x => x = 0) l -> foldl Rmax 0 l = 0.
Proof.
  induction 1 as [|x l -> _ IH]; simpl; [reflexivity|].
  rewrite Rmax_left by lra. exact IH.
Qed.

Lemma vec_max_zero (sig : vec) (mx : R) :
  Forall (fun x => x = 0) sig -> vec_max sig = Some mx -> mx = 0.
Proof.
  intros Hsig Hmx. destruct Hsig as [|x l -> Hl]; [discriminate|].
  simpl in Hmx. rewrite foldl_Rmax_zero in Hmx by assumption. congruence.
Qed.

Lemma filter_none {A} (P : A -> Prop) `{!forall x, Decision (P x)} (l : list A) :
  Forall (fun x => ~ P x) l -> filter P l = [].
Proof.
  induction 1 as [|x l Hx _ IH]; [reflexivity|]. now rewrite filter_cons_False.
Qed.

Lemma foldl_Rmax_zeros (a : R) (n : nat) :
  0 <= a -> foldl Rmax a (zeros n) = a.
Proof.
  intros Ha. induction n as [|n IH]; [reflexivity|].
  unfold zeros. simpl. rewrite Rmax_left by lra. exact IH.
Qed.

(** A signal with a single sample of at least 1e-3, in time bucket 0,
    contributes the row of that sample. *)
Lemma peak_entry_single (pad : pad_t) (a : R) (n : nat) :
  1e-3 <= a ->
  peak_entry g (pad, a :: zeros n) = Some (peak_row g pad (a :: zeros n) a).
Proof.
  intros Ha. unfold peak_entry. cbn [fst snd].
  assert (Hmx : vec_max (a :: zeros n) = Some a).
  { unfold vec_max. now rewrite foldl_Rmax_zeros by lra. }
  rewrite Hmx. cbn [mbind option_bind].
  assert (Hs : peak_samples (a :: zeros n) a = [(0%N, a)]).
  { unfold peak_samples. cbn [imap]. rewrite filter_cons_True by (simpl; lra).
    f_equal. apply filter_none, Forall_forall.
    intros p (i & x & -> & Hx)%elem_of_lookup_imap. simpl.
    unfold zeros in Hx. apply lookup_replicate in Hx as [-> _]. lra. }
  unfold peak_total. rewrite Hs. simpl.
  rewrite decide_False by lra. reflexivity.
Qed.

(** An all-zero signal contributes no row. *)
Lemma peak_entry_zero (pad : pad_t) (sig : vec) :
  Forall (fun x => x = 0) sig -> peak_entry g (pad, sig) = None.
Proof.
  intros Hsig. unfold peak_entry. simpl.
  destruct (vec_max sig) as [mx|] eqn:Hmx; [|reflexivity]. simpl.
  pose proof (vec_max_zero sig mx Hsig Hmx) as ->.
  unfold peak_total. rewrite peak_samples_none.
  - simpl. rewrite decide_True by lra. reflexivity.
  - eapply Forall_impl; [exact Hsig|]. intros x ->. lra.
Qed.

End PeaksFacts.

Section EventSignals.
Import Calibration EventGen.
Local Open Scope R_scope.

Variable E_CHG : R.
Variable g : EventGenerator.

Lemma vec_add_length (a b s : vec) : vec_add a b = Some s -> length s = length a.
Proof.
  unfold vec_add. destruct (decide (length a = length b)) as [Hlen|]; [|discriminate].
  intros [= <-]. rewrite length_zip_with. lia.
Qed.

Lemma makeEvent_step_signals_512 (m m' : gmap pad_t vec) (row : Row4) :
  signals_512 m -> makeEvent_step E_CHG g m row = Some m' -> signals_512 m'.
Proof.
  intros Hm Hstep.
  destruct (decide (pad_of g row = 20000%N)) as [Hs|Hs].
  { rewrite makeEvent_step_sentinel in Hstep by assumption.
    injection Hstep as <-. exact Hm. }
  destruct (decide (r_z row > 511)) as [Hz|Hz].
  { rewrite makeEvent_step_overflow in Hstep by assumption. injection Hstep as <-.
    apply signals_512_insert; [assumption|now apply signal_at_length]. }
  rewrite makeEvent_step_pulse in Hstep by assumption.
  destruct (elecPulse _ _ _ _) as [pulse|]; [|discriminate]. simpl in Hstep.
  destruct (vec_add _ pulse) as [s|] eqn:Hadd; [|discriminate]. simpl in Hstep.
  injection Hstep as <-. apply signals_512_insert; [assumption|].
  apply vec_add_length in Hadd. rewrite Hadd. now apply signal_at_length.
Qed.

Lemma makeEvent_fold_signals_512 (rows : list Row4) :
  forall m evt, signals_512 m -> makeEvent_fold E_CHG g m rows = Some evt ->
                signals_512 evt.
Proof.
  induction rows as [|row rows IH]; intros m evt Hm Hfold.
  - injection Hfold as <-. exact Hm.
  - rewrite makeEvent_fold_cons in Hfold.
    destruct (makeEvent_step E_CHG g m row) as [m'|] eqn:Hstep; [|discriminate].
    simpl in Hfold. eapply IH; [|exact Hfold].
    eapply makeEvent_step_signals_512; eassumption.
Qed.

(** Every signal of an event [makeEvent] returns has 512 samples. *)
Lemma makeEvent_signals_512 pos en evt :
  makeEvent E_CHG g pos en = Some evt -> signals_512 evt.
Proof.
  intros H. destruct (prepareTrack g pos en) as [uncal|] eqn:Hprep.
  - rewrite (makeEvent_fold_removelast E_CHG g pos en uncal Hprep) in H.
    eapply makeEvent_fold_signals_512; [apply signals_512_empty|exact H].
  - unfold makeEvent in H. rewrite Hprep in H. discriminate.
Qed.

(** The event of a track whose rows all fall on pad [p] past the last time
    bucket. *)
Lemma makeEvent_fold_all_overflow (p : pad_t) (rows : list Row4) :
  p <> 20000%N -> rows <> [] ->
  (forall row, row ∈ rows -> pad_of g row = p /\ r_z row > 511) ->
  makeEvent_fold E_CHG g ∅ rows = Some {[p := zeros 512]}.
Proof.
  intros Hp Hne Hrows.
  assert (Hgen : forall m : gmap pad_t vec,
             m = ∅ \/ m = {[p := zeros 512]} ->
             makeEvent_fold E_CHG g m rows
             = Some (match rows with [] => m | _ => {[p := zeros 512]} end)).
  { clear Hne. induction rows as [|row rows IH]; intros m Hm; [reflexivity|].
    rewrite makeEvent_fold_cons.
    destruct (Hrows row ltac:(left)) as [Hpad Hz].
    rewrite makeEvent_step_overflow by (rewrite ?Hpad; assumption).
    rewrite Hpad. simpl.
    assert (Hm' : <[p := signal_at m p]> m = {[p := zeros 512]}).
    { destruct Hm as [-> | ->].
      - unfold signal_at. rewrite lookup_empty. simpl. apply insert_empty.
      - unfold signal_at. rewrite lookup_singleton_eq. apply insert_singleton_eq. }
    rewrite Hm'. rewrite IH.
    + destruct rows; reflexivity.
    + intros r Hr. apply Hrows. now right.
    + now right. }
  rewrite Hgen by now left. destruct rows; [congruence|reflexivity].
Qed.

End EventSignals.

Section PeaksClaims.
Import Calibration EventGen.
Local Open Scope R_scope.

Lemma foldl_Rmax_ge (l : vec) :
  forall a, a <= foldl Rmax a l /\ forall x, x ∈ l -> x <= foldl Rmax a l.
Proof.
  induction l as [|y l IH]; intros a; simpl.
  - split; [lra|]. intros x Hx. now apply elem_of_nil in Hx.
  - destruct (IH (Rmax a y)) as [Ha Hl].
    pose proof (Rmax_l a y). pose proof (Rmax_r a y).
    split; [lra|]. intros x [->|Hx]%elem_of_cons; [lra|now apply Hl].
Qed.

Lemma vec_max_ge (sig : vec) (mx x : R) :
  vec_max sig = Some mx -> x ∈ sig -> x <= mx.
Proof.
  destruct sig as [|a l]; [discriminate|]. simpl. intros [= <-].
  destruct (foldl_Rmax_ge l a) as [Ha Hl].
  intros [->|Hx]%elem_of_cons; [exact Ha|now apply Hl].
Qed.

(** A signal that is all zero, or whose maximum equals 30% of itself, has
    no sample above the threshold. *)
Lemma peak_total_floor (sig : vec) (mx : R) :
  vec_max sig = Some mx ->
  Forall (fun x => x = 0) sig \/ mx = 0.3 * mx ->
  peak_total sig mx < 1e-3.
Proof.
  intros Hmx Hcase.
  assert (Hnone : peak_samples sig mx = []).
  { apply peak_samples_none, Forall_forall. intros x Hx.
    destruct Hcase as [Hzero|Hbnd].
    - pose proof (vec_max_zero sig mx Hzero Hmx) as ->.
      rewrite Forall_forall in Hzero. rewrite (Hzero x Hx). lra.
    - pose proof (vec_max_ge sig mx x Hmx Hx). lra. }
  unfold peak_total. rewrite Hnone. simpl. lra.
Qed.

Lemma makeEvent_all_overflow_example :
  let g := mkEventGenerator (mkVec3 0 0 (-1)) 4 40 1 1 0 1 1e6 1
                            (mkPadPlane (fun _ _ => 7%N) (fun _ => (0, 0))) in
  makeEvent 1 g [mkVec3 0 0 6; mkVec3 0 0 7] [3; 2] = Some {[7%N := zeros 512]}.
Proof.
  intros g.
  set (pos := [mkVec3 0 0 6; mkVec3 0 0 7]).
  assert (Hprep : prepareTrack g pos [3; 2]
                  = Some (diffused_rows g (prepared_points g pos [3; 2])))
    by (apply prepareTrack_eq; simpl; lia).
  rewrite (makeEvent_fold_removelast 1 g pos [3; 2] _ Hprep).
  apply makeEvent_fold_all_overflow.
  - discriminate.
  - discriminate.
  - intros row Hrow%elem_of_removelast. split; [reflexivity|].
    apply prepared_rows_z in Hrow as (pt & Hpt & ->).
    unfold uncalibrate_row, unTiltAndRecenter_row. simpl.
    rewrite Ropp_0, cos_0, sin_0. replace (- (-1)) with 1 by lra.
    apply elem_of_cons in Hpt as [->|Hpt]; [simpl; lra|].
    apply elem_of_cons in Hpt as [->|Hpt]; [simpl; lra|].
    now apply elem_of_nil in Hpt.
Qed.

End PeaksClaims.

(** ** Signals without a positive sample

    A point where the energy grows has a negative electron count, and the
    pulses of its rows are negative. *)

Section NegativeSignals.
Import Calibration EventGen.
Local Open Scope R_scope.

Variable E_CHG : R.
Variable g : EventGenerator.
Hypothesis Hconv : 0 < conversionFactor E_CHG g.
Hypothesis Hs : 511 <= shape g * clock g.

Lemma approxSin_lower (t : R) : 0 <= t <= 1 -> t * (5 / 6) <= approxSin t.
Proof.
  intros [H0 H1]. unfold approxSin.
  assert (Hsq : 0 <= t * t <= 1) by nra.
  assert (H3 : t * t * t / 6 <= t / 6).
  { replace (t * t * t / 6) with (t * (t * t) / 6) by field. nra. }
  assert (H5 : 0 <= t * t * t * t * t / 120 - t * t * t * t * t * t * t / 5040).
  { replace (t * t * t * t * t / 120 - t * t * t * t * t * t * t / 5040)
      with (t * ((t * t) * (t * t)) * (1 / 120 - t * t / 5040)) by field.
    apply Rmult_le_pos; [apply Rmult_le_pos; [lra|nra]|nra]. }
  lra.
Qed.

(** The time of sample [i] relative to the arrival, in units of the
    shaping time. *)
Lemma pulse_time (offset : R) (i : nat) :
  0 <= offset -> (Zceil offset <= Z.of_nat i)%Z -> (i < 512)%nat ->
  0 <= (of_uword (N.of_nat i) - offset) / (shape g * clock g) <= 1 /\
  (offset < INR i -> 0 < (of_uword (N.of_nat i) - offset) / (shape g * clock g)).
Proof.
  intros Hoff Hceil Hi.
  assert (Hi' : of_uword (N.of_nat i) = INR i).
  { unfold of_uword. now rewrite nat_N_Z, <- INR_IZR_INZ. }
  rewrite Hi'.
  assert (Hle : offset <= INR i).
  { pose proof (Zceil_bound offset) as [_ Hb]. apply IZR_le in Hceil.
    rewrite <- INR_IZR_INZ in Hceil. lra. }
  assert (Hhi : INR i <= 511).
  { assert (H : (i <= 511)%nat) by lia. apply le_INR in H.
    replace (INR 511) with 511 in H by (rewrite INR_IZR_INZ; reflexivity). exact H. }
  assert (Hinv : 0 < / (shape g * clock g)) by (apply Rinv_0_lt_compat; lra).
  split; [split|].
  - apply Rmult_le_pos; lra.
  - apply (Rmult_le_reg_r (shape g * clock g)); [lra|].
    unfold Rdiv. rewrite Rmult_assoc, Rinv_l by lra. lra.
  - intros Hlt. apply Rmult_lt_0_compat; lra.
Qed.

Lemma pulse_sample_sign (amplitude offset : R) (i : nat) :
  amplitude <= 0 -> 0 <= offset -> (Zceil offset <= Z.of_nat i)%Z -> (i < 512)%nat ->
  pulse_sample amplitude (shape g) (clock g) offset (N.of_nat i) <= 0 /\
  (amplitude < 0 -> offset < INR i ->
   pulse_sample amplitude (shape g) (clock g) offset (N.of_nat i) < 0).
Proof.
  intros Ha Hoff Hceil Hi. unfold pulse_sample.
  destruct (pulse_time offset i Hoff Hceil Hi) as [[Ht0 Ht1] Htpos].
  set (t := (of_uword (N.of_nat i) - offset) / (shape g * clock g)) in *.
  pose proof (approxSin_lower t (conj Ht0 Ht1)) as Hsin.
  pose proof (exp_pos (-3 * t)) as Hexp.
  set (e := exp (-3 * t)) in *. set (a := approxSin t) in *.
  clearbody a e. clearbody t.
  assert (Ha0 : 0 <= a) by nra.
  assert (Hc : 0 < / 0.044) by (apply Rinv_0_lt_compat; lra).
  assert (Hp : 0 <= e * a * t * t * t / 0.044).
  { apply Rmult_le_pos; [|lra]. repeat apply Rmult_le_pos; lra. }
  replace (amplitude * e * a * t * t * t / 0.044)
    with (amplitude * (e * a * t * t * t / 0.044)) by (unfold Rdiv; ring).
  split; [nra|].
  intros Hneg Hlt. specialize (Htpos Hlt).
  assert (Ha1 : 0 < a) by nra.
  assert (Hp' : 0 < e * a * t * t * t / 0.044).
  { apply Rmult_lt_0_compat; [|lra]. repeat apply Rmult_lt_0_compat; lra. }
  nra.
Qed.

(** A pulse of negative or zero amplitude has no positive sample. *)
Lemma elecPulse_nonpos (amplitude offset : R) :
  amplitude <= 0 -> 0 <= offset <= 511 ->
  exists pulse,
    elecPulse amplitude (shape g) (clock g) offset = Some pulse /\
    length pulse = 512%nat /\
    Forall (fun x => x <= 0) pulse /\
    pulse !! 0%nat = Some 0 /\
    forall i : nat, (i < 512)%nat -> amplitude < 0 -> offset < INR i ->
      exists x, pulse !! i = Some x /\ x < 0.
Proof.
  intros Ha [Hlo Hhi].
  destruct (elecPulse_samples amplitude (shape g) (clock g) offset)
    as (pulse & Hpulse & Hlen & Hval).
  { apply Zceil_in_range; lra. }
  exists pulse. split; [exact Hpulse|]. split; [exact Hlen|]. split; [|split].
  - apply Forall_lookup. intros i x Hx.
    assert (Hi : (i < 512)%nat) by (apply lookup_lt_Some in Hx; lia).
    rewrite (Hval i Hi) in Hx. injection Hx as <-.
    destruct (decide (Z.of_nat i < Zceil offset)%Z) as [|Hge]; [lra|].
    apply pulse_sample_sign; [assumption|assumption|lia|assumption].
  - rewrite (Hval 0%nat) by lia. f_equal.
    destruct (decide (Z.of_nat 0 < Zceil offset)%Z) as [|Hge]; [reflexivity|].
    assert (H0 : offset = 0).
    { pose proof (Zceil_bound offset) as [_ Hb].
      assert (Hc : (Zceil offset <= 0)%Z) by lia. apply IZR_le in Hc. lra. }
    unfold pulse_sample, of_uword. rewrite H0. simpl.
    unfold Rminus. rewrite Ropp_0, Rplus_0_r. unfold Rdiv. ring.
  - intros i Hi Hneg Hlt. eexists. split; [apply (Hval i Hi)|].
    assert (Hge : ~ (Z.of_nat i < Zceil offset)%Z).
    { intros Hc. pose proof (Zceil_bound offset) as [Hb _].
      assert (Hc' : (Z.of_nat i <= Zceil offset - 1)%Z) by lia.
      apply IZR_le in Hc'. rewrite minus_IZR, <- INR_IZR_INZ in Hc'. lra. }
    rewrite decide_False by exact Hge.
    apply pulse_sample_sign; [assumption|assumption|lia|assumption|assumption|assumption].
Qed.

Lemma signal_at_nonpos (m : gmap pad_t vec) (p : pad_t) :
  signals_nonpos m ->
  length (signal_at m p) = 512%nat /\
  Forall (fun x => x <= 0) (signal_at m p) /\
  signal_at m p !! 0%nat = Some 0.
Proof.
  intros Hm. unfold signal_at. destruct (m !! p) as [sig|] eqn:Hp;
    cbn [from_option id].
  - destruct (Hm p sig Hp) as (Hlen & Hall & H0).
    destruct sig; [discriminate Hlen|]. auto.
  - split; [apply length_zeros|]. split; [|reflexivity].
    apply Forall_forall. intros x Hx. apply elem_of_replicate in Hx as [-> _]. lra.
Qed.

(** One iteration of [makeEvent] on a row without positive charge. *)
Lemma makeEvent_step_nonpos (m : gmap pad_t vec) (row : Row4) :
  signals_nonpos m -> negative_row g row ->
  exists m',
    makeEvent_step E_CHG g m row = Some m' /\
    signals_nonpos m' /\
    (forall p i, negative_at m p i -> negative_at m' p i) /\
    (forall i : nat, (i < 512)%nat -> r_q row < 0 -> r_z row < INR i ->
       negative_at m' (pad_of g row) i).
Proof.
  intros Hm (Hpad & [Hz0 Hz1] & Hq).
  assert (Hamp : conversionFactor E_CHG g * r_q row <= 0) by nra.
  destruct (elecPulse_nonpos (conversionFactor E_CHG g * r_q row) (r_z row) Hamp
              (conj Hz0 Hz1)) as (pulse & Hpulse & Hlen & Hall & Hp0 & Hneg).
  destruct (signal_at_nonpos m (pad_of g row) Hm) as (Hslen & Hsall & Hs0).
  rewrite makeEvent_step_pulse by (assumption || lra).
  rewrite Hpulse. simpl. unfold vec_add. rewrite decide_True by lia. simpl.
  set (new := zip_with Rplus (signal_at m (pad_of g row)) pulse).
  assert (Hnew : forall i x, new !! i = Some x ->
            exists a b, signal_at m (pad_of g row) !! i = Some a /\
                        pulse !! i = Some b /\ x = a + b /\ a <= 0 /\ b <= 0).
  { intros i x Hx. unfold new in Hx.
    apply lookup_zip_with_Some in Hx as (a & b & -> & Ha & Hb).
    exists a, b. repeat split; try assumption.
    - rewrite Forall_lookup in Hsall. eapply Hsall, Ha.
    - rewrite Forall_lookup in Hall. eapply Hall, Hb. }
  eexists. split; [reflexivity|]. split; [|split].
  - intros q sig Hsig.
    destruct (decide (pad_of g row = q)) as [<-|Hne].
    + rewrite lookup_insert_eq in Hsig. injection Hsig as <-.
      split; [unfold new; rewrite length_zip_with; lia|]. split.
      * apply Forall_lookup. intros i x Hx.
        destruct (Hnew i x Hx) as (a & b & _ & _ & -> & Ha & Hb). lra.
      * unfold new. rewrite lookup_zip_with, Hs0. simpl. rewrite Hp0. simpl.
        f_equal. lra.
    + rewrite lookup_insert_ne in Hsig by assumption. eapply Hm, Hsig.
  - intros p i (sig & x & Hsig & Hx & Hlt).
    destruct (decide (pad_of g row = p)) as [<-|Hne].
    + assert (Hsa : signal_at m (pad_of g row) = sig).
      { unfold signal_at. rewrite Hsig. simpl.
        destruct sig; [now rewrite lookup_nil in Hx|reflexivity]. }
      assert (Hi : (i < 512)%nat).
      { apply lookup_lt_Some in Hx. rewrite <- Hsa, Hslen in Hx. exact Hx. }
      destruct (lookup_lt_is_Some_2 pulse i) as [b Hb]; [lia|].
      exists new, (x + b). split; [apply lookup_insert_eq|]. split.
      * unfold new. rewrite lookup_zip_with, Hsa, Hx. simpl. now rewrite Hb.
      * rewrite Forall_lookup in Hall. specialize (Hall i b Hb). lra.
    + exists sig, x. split; [now rewrite lookup_insert_ne|]. auto.
  - intros i Hi Hqneg Hlt.
    assert (Hamp' : conversionFactor E_CHG g * r_q row < 0) by nra.
    destruct (Hneg i Hi Hamp' Hlt) as (b & Hb & Hbneg).
    destruct (lookup_lt_is_Some_2 (signal_at m (pad_of g row)) i) as [a Ha]; [lia|].
    exists new, (a + b). split; [apply lookup_insert_eq|]. split.
    + unfold new. rewrite lookup_zip_with, Ha. simpl. now rewrite Hb.
    + rewrite Forall_lookup in Hsall. specialize (Hsall i a Ha). lra.
Qed.

(** The loop of [makeEvent] over rows without positive charge: no signal
    gets a positive sample, and a sample that is negative stays so. *)
Lemma makeEvent_fold_nonpos (rows : list Row4) :
  forall m : gmap pad_t vec,
    signals_nonpos m -> Forall (negative_row g) rows ->
    exists evt,
      makeEvent_fold E_CHG g m rows = Some evt /\
      signals_nonpos evt /\
      (forall p i, negative_at m p i -> negative_at evt p i) /\
      (forall row (i : nat), row ∈ rows -> (i < 512)%nat -> r_q row < 0 ->
         r_z row < INR i -> negative_at evt (pad_of g row) i).
Proof.
  induction rows as [|row rows IH]; intros m Hm Hrows.
  - exists m. split; [reflexivity|]. split; [exact Hm|]. split; [auto|].
    intros row i Hin. now apply elem_of_nil in Hin.
  - apply Forall_cons in Hrows as [Hrow Hrows].
    destruct (makeEvent_step_nonpos m row Hm Hrow) as (m' & Hstep & Hm' & Hkeep & Hnew).
    destruct (IH m' Hm' Hrows) as (evt & Hfold & Hevt & Hkeep' & Hnew').
    exists evt. rewrite makeEvent_fold_cons, Hstep. simpl.
    split; [exact Hfold|]. split; [exact Hevt|]. split; [auto|].
    intros r i [->|Hin]%elem_of_cons Hi Hq Hz.
    + apply Hkeep'. now apply Hnew.
    + now apply Hnew'.
Qed.

Lemma foldl_Rmax_elem (l : vec) :
  forall a, foldl Rmax a l = a \/ foldl Rmax a l ∈ l.
Proof.
  induction l as [|y l IH]; intros a; simpl; [now left|].
  destruct (IH (Rmax a y)) as [H|H]; [|right; now right].
  rewrite H. unfold Rmax. destruct (Rle_dec a y); [right; left|now left].
Qed.

(** The maximum of a signal is one of its samples. *)
Lemma vec_max_elem (sig : vec) (mx : R) : vec_max sig = Some mx -> mx ∈ sig.
Proof.
  destruct sig as [|a l]; [discriminate|]. simpl. intros [= <-].
  destruct (foldl_Rmax_elem l a) as [->|H]; [left|now right].
Qed.

Lemma omap_none {A B} (f : A -> option B) (l : list A) :
  (forall x, x ∈ l -> f x = None) -> omap f l = [].
Proof.
  induction l as [|x l IH]; intros Hl; [reflexivity|].
  change (omap f (x :: l))
    with (match f x with Some y => y :: omap f l | None => omap f l end).
  rewrite (Hl x) by left. apply IH. intros y Hy. apply Hl. now right.
Qed.

(** An event without a positive sample has an empty peaks table. *)
Lemma peaksTable_nonpos (evt : gmap pad_t vec) :
  signals_nonpos evt ->
  peaksTable_of_event g evt = Some [] /\
  forall pad sig, evt !! pad = Some sig -> vec_max sig = Some 0.
Proof.
  intros Hevt.
  assert (Hmax : forall pad sig, evt !! pad = Some sig -> vec_max sig = Some 0).
  { intros pad sig Hsig. destruct (Hevt pad sig Hsig) as (Hlen & Hall & H0).
    destruct (vec_max sig) as [mx|] eqn:Hmx.
    2:{ destruct sig; [discriminate Hlen|discriminate Hmx]. }
    f_equal. apply Rle_antisym.
    - rewrite Forall_forall in Hall. apply Hall. eapply vec_max_elem, Hmx.
    - eapply vec_max_ge; [exact Hmx|]. eapply list_elem_of_lookup_2, H0. }
  split; [|exact Hmax].
  rewrite peaksTable_of_event_some.
  2:{ intros pad sig Hsig ->. apply Hevt in Hsig as [Hlen _]. discriminate. }
  f_equal. apply omap_none. intros [pad sig] Hin%event_items_elem.
  unfold peak_entry. cbn [fst snd]. rewrite (Hmax pad sig Hin). cbn [mbind option_bind].
  rewrite decide_True; [reflexivity|].
  apply peak_total_floor; [exact (Hmax pad sig Hin)|]. right. lra.
Qed.

Lemma makePeaksTable_negative_pulse_gen (pos : list Vec3) (en : vec) (p : pad_t) (i : nat) :
  length en = length pos -> (2 <= length pos)%nat ->
  Forall (negative_row g) (removelast (diffused_rows g (prepared_points g pos en))) ->
  (exists row, row ∈ removelast (diffused_rows g (prepared_points g pos en)) /\
               pad_of g row = p /\ (i < 512)%nat /\ r_q row < 0 /\ r_z row < INR i) ->
  exists evt sig x,
    makeEvent E_CHG g pos en = Some evt /\
    evt !! p = Some sig /\ vec_max sig = Some 0 /\
    sig !! i = Some x /\ x < 0 /\
    makePeaksTableFromSimulation E_CHG g pos en = Some [].
Proof.
  intros Hlen Hpos Hrows (row & Hin & Hpad & Hi & Hq & Hz).
  pose proof (prepareTrack_eq g pos en Hlen Hpos) as Hprep.
  pose proof (makeEvent_fold_removelast E_CHG g pos en _ Hprep) as Hev.
  destruct (makeEvent_fold_nonpos _ ∅ ltac:(intros q s Hq'; now rewrite lookup_empty in Hq')
              Hrows) as (evt & Hfold & Hevt & _ & Hnew).
  destruct (Hnew row i Hin Hi Hq Hz) as (sig & x & Hsig & Hx & Hneg).
  rewrite Hpad in Hsig.
  destruct (peaksTable_nonpos evt Hevt) as [Htab Hmax].
  exists evt, sig, x. rewrite Hev. split; [exact Hfold|]. split; [exact Hsig|].
  split; [eapply Hmax, Hsig|]. split; [exact Hx|]. split; [exact Hneg|].
  unfold makePeaksTableFromSimulation. rewrite Hev, Hfold. exact Htab.
Qed.

End NegativeSignals.

Section NegativePulseExample.
Import Calibration EventGen.
Local Open Scope R_scope.

(** A complete call: two points at z = 0 and z = 0.5 m with energies 2 MeV
    and 3 MeV.  The count of the second point is -100000; the signal of pad
    7 is 0 up to time bucket 50 and negative in time bucket 51, its maximum
    is 0, and the peaks table is empty, whatever the (positive) value of
    [Constants::E_CHG] is. *)
Lemma makePeaksTable_negative_pulse (E_CHG : R) :
  0 < E_CHG ->
  let g := mkEventGenerator (mkVec3 0 0 (-1)) 4 40 1 1 0 1 1e6 1
                            (mkPadPlane (fun _ _ => 7%N) (fun _ => (0, 0))) in
  let pos := [mkVec3 0 0 0; mkVec3 0 0 0.5] in
  exists evt sig x,
    makeEvent E_CHG g pos [2; 3] = Some evt /\
    evt !! 7%N = Some sig /\ vec_max sig = Some 0 /\
    sig !! 51%nat = Some x /\ x < 0 /\
    makePeaksTableFromSimulation E_CHG g pos [2; 3] = Some [].
Proof.
  intros HE g pos.
  assert (Hq : numElec_tail g [2; 3] = [-100000]).
  { unfold numElec_tail, vec_diff, of_uword. simpl.
    do 2 f_equal. change (-100000) with (IZR (-100000)). f_equal. apply Zfloor_eq.
    simpl. lra. }
  assert (Hpts : prepared_points g pos [2; 3]
                 = [mkRow4 0 0 0 0; mkRow4 0 0 50 (-100000)]).
  { unfold prepared_points. rewrite Hq. unfold pos. cbn [zip_with].
    unfold prepared_point, uncalibrate_row, unTiltAndRecenter_row. simpl.
    rewrite Ropp_0, cos_0, sin_0, tan_0. replace (- (-1)) with 1 by lra.
    f_equal; [|f_equal]; f_equal; lra. }
  apply (makePeaksTable_negative_pulse_gen E_CHG g).
  - unfold conversionFactor. simpl. lra.
  - simpl. lra.
  - reflexivity.
  - simpl. lia.
  - rewrite Hpts. apply Forall_forall. intros row Hrow%elem_of_removelast.
    split; [discriminate|].
    unfold diffused_rows in Hrow. apply elem_of_app in Hrow as [Hrow|Hrow].
    + apply list_elem_of_fmap in Hrow as (t & -> & Ht). unfold center_row, centerAmpl.
      apply elem_of_cons in Ht as [->|Ht]; [simpl; lra|].
      apply elem_of_cons in Ht as [->|Ht]; [simpl; lra|].
      now apply elem_of_nil in Ht.
    + apply list_elem_of_In, in_concat in Hrow as (blk & Hblk & Hrow).
      apply in_map_iff in Hblk as (d & <- & _).
      apply in_map_iff in Hrow as (t & <- & Ht%list_elem_of_In).
      unfold satellite_row. cbn [r_z r_q]. rewrite diffAmpl_value.
      apply elem_of_cons in Ht as [->|Ht]; [simpl; lra|].
      apply elem_of_cons in Ht as [->|Ht]; [simpl; lra|].
      now apply elem_of_nil in Ht.
  - rewrite Hpts. exists (center_row (mkRow4 0 0 50 (-100000))).
    split.
    { unfold diffused_rows, diffPts. cbn [map concat app removelast].
      apply elem_of_cons. right. apply elem_of_cons. now left. }
    split; [reflexivity|]. split; [lia|]. unfold center_row, centerAmpl. simpl.
    split; lra.
Qed.

End NegativePulseExample.

(** ** The peaks table on binary64 numbers *)

Section PeaksBinary64.
Import Binary64.
Local Open Scope float_scope.

Lemma b64_peak_samples_elem (sig : fvec) (mx : float) (p : N * float) :
  p ∈ peak_samples sig mx <->
  (0.3 * mx <? p.2) = true /\ exists i : nat, p.1 = N.of_nat i /\ sig !! i = Some p.2.
Proof.
  unfold peak_samples. rewrite list_elem_of_filter, elem_of_lookup_imap.
  split.
  - intros (Hgt & i & x & -> & Hx). simpl. split; [exact Hgt|]. eauto.
  - intros (Hgt & i & Hi & Hx). split; [exact Hgt|].
    exists i, p.2. split; [|exact Hx]. destruct p; simpl in *. now subst.
Qed.

Lemma b64_elems_fst_snd (sig : fvec) (l : list (N * float)) :
  Forall (fun p => elem sig p.1 = Some p.2) l ->
  elems sig (map fst l) = Some (map snd l).
Proof.
  intros Hl. unfold elems. apply mapM_Some_2.
  induction Hl as [|p l Hp Hl IH]; simpl; constructor; assumption.
Qed.

Lemma b64_elems_peak_samples (sig : fvec) (mx : float) :
  elems sig (find_gt sig (0.3 * mx)) = Some (map snd (peak_samples sig mx)).
Proof.
  change (find_gt sig (0.3 * mx)) with (map fst (peak_samples sig mx)).
  apply b64_elems_fst_snd.
  apply Forall_forall. intros p (_ & i & Hi & Hx)%b64_peak_samples_elem.
  unfold elem. rewrite Hi, Nat2N.id. exact Hx.
Qed.

Lemma b64_dot_fst_snd (l : list (N * float)) :
  dot (map fst l) (map snd l)
  = Some (foldl (fun acc p => acc + of_unsigned p.1 * p.2) 0 l).
Proof.
  unfold dot. rewrite decide_True by now rewrite !length_map.
  f_equal. f_equal. apply zip_fst_snd.
Qed.

Variable getPadCenter : N -> float * float.

(** One iteration of the loop of the peaks table, in terms of the
    quantities above. *)
Lemma b64_peaksTable_step_entry (rows : list PeakRow) (pair : N * fvec) :
  pair.2 <> [] ->
  peaksTable_step getPadCenter rows pair
  = Some (rows ++ match peak_entry getPadCenter pair with
                  | Some r => [r] | None => [] end).
Proof.
  intros Hne. unfold peaksTable_step, peak_entry.
  destruct (b64_vec_max_is_Some pair.2 Hne) as [mx Hmx]. rewrite Hmx. simpl.
  rewrite b64_elems_peak_samples. simpl.
  fold (peak_total pair.2 mx).
  destruct (peak_total pair.2 mx <? 1e-3) eqn:Hlow.
  - now rewrite app_nil_r.
  - change (find_gt pair.2 (0.3 * mx)) with (map fst (peak_samples pair.2 mx)).
    rewrite b64_dot_fst_snd. reflexivity.
Qed.

Lemma b64_peaksTable_fold (items : list (N * fvec)) (rows : list PeakRow) :
  Forall (fun pair => pair.2 <> []) items ->
  foldl (fun acc pair => rows ← acc; peaksTable_step getPadCenter rows pair)
        (Some rows) items
  = Some (rows ++ omap (peak_entry getPadCenter) items).
Proof.
  intros Hitems. revert rows.
  induction Hitems as [|pair items Hpair Hitems IH]; intros rows; simpl.
  - now rewrite app_nil_r.
  - rewrite b64_peaksTable_step_entry by assumption. rewrite IH.
    destruct (peak_entry getPadCenter pair); simpl; now rewrite <- app_assoc.
Qed.

Lemma b64_event_items_elem (evt : gmap N fvec) (pad : N) (sig : fvec) :
  (pad, sig) ∈ event_items evt <-> evt !! pad = Some sig.
Proof.
  unfold event_items. rewrite merge_sort_Permutation.
  apply elem_of_map_to_list.
Qed.

(** The maximum of an all-zero signal is zero. *)
Lemma b64_vec_max_zero (sig : fvec) (mx : float) :
  Forall (fun x => x = 0) sig -> vec_max sig = Some mx -> mx = 0.
Proof.
  intros Hsig. destruct Hsig as [|x l -> Hl]; [discriminate|].
  unfold vec_max. intros [= <-]. simpl.
  change (if neg_infinity <? 0 then 0 else neg_infinity) with 0.
  induction Hl as [|y l -> _ IH]; [reflexivity|]. simpl.
  change (if 0 <? 0 then 0 else 0) with 0. exact IH.
Qed.

(** A signal whose maximum equals 30% of itself has no sample above the
    threshold, and so no row. *)
Lemma b64_peak_entry_boundary (pad : N) (sig : fvec) (mx : float) :
  vec_max sig = Some mx -> mx = 0.3 * mx ->
  peak_entry getPadCenter (pad, sig) = None.
Proof.
  intros Hmx Hbnd. unfold peak_entry. simpl. rewrite Hmx. simpl.
  assert (Hnone : peak_samples sig mx = []).
  { destruct (peak_samples sig mx) as [|p l] eqn:Hl; [reflexivity|].
    assert (Hp : p ∈ peak_samples sig mx) by (rewrite Hl; left).
    apply b64_peak_samples_elem in Hp as (Hgt & i & _ & Hx).
    rewrite <- Hbnd in Hgt.
    rewrite (b64_vec_max_ub sig mx p.2 Hmx) in Hgt; [discriminate|].
    eapply list_elem_of_lookup_2, Hx. }
  unfold peak_total. rewrite Hnone. reflexivity.
Qed.

End PeaksBinary64.

Section PeaksTableClaims.
Import Binary64.
Local Open Scope float_scope.

(** C5 (as amended): the table [makePeaksTableFromSimulation] builds from
    an event without empty signals has, in the order of the pad numbers,
    one row for every pad whose charge above the threshold is not below
    1e-3, and no other row.  The row is (pad centre x, pad centre y, centre
    of gravity, maximum, pad number), the centre of gravity being the
    charge-weighted mean time bucket of the samples that are strictly above
    0.3 times the maximum, the product rounded as the code computes it; a
    sample exactly at the threshold is not counted.  A pad whose charge
    above the threshold is below 1e-3 has no row; so has a pad whose signal
    is all zero, and a pad whose maximum is exactly at the threshold,
    [maximum = 0.3 * maximum]. *)
Theorem peaksTable_rows (getPadCenter : N -> float * float)
    (evt : gmap N fvec) :
  (forall pad sig, evt !! pad = Some sig -> sig <> []) ->
  peaksTable_of_event getPadCenter evt
    = Some (omap (peak_entry getPadCenter) (event_items evt)) /\
  (forall pad sig, (pad, sig) ∈ event_items evt <-> evt !! pad = Some sig) /\
  (forall pad sig, evt !! pad = Some sig ->
     exists mx, vec_max sig = Some mx /\
       (forall (i : nat) x, sig !! i = Some x ->
          ((N.of_nat i, x) ∈ peak_samples sig mx <-> (0.3 * mx <? x) = true) /\
          (x = 0.3 * mx -> (N.of_nat i, x) ∉ peak_samples sig mx)) /\
       ((peak_total sig mx <? 1e-3) = false ->
        peak_entry getPadCenter (pad, sig)
        = Some (mkPeakRow (getPadCenter pad).1 (getPadCenter pad).2
                          (peak_centroid sig mx) mx (of_unsigned pad))) /\
       ((peak_total sig mx <? 1e-3) = true \/ Forall (fun x => x = 0) sig
        \/ mx = 0.3 * mx ->
        peak_entry getPadCenter (pad, sig) = None)).
Proof.
  intros Hne. split; [|split].
  - unfold peaksTable_of_event. rewrite b64_peaksTable_fold; [reflexivity|].
    apply Forall_forall. intros [pad sig] Hin%b64_event_items_elem. simpl. eauto.
  - intros pad sig. apply b64_event_items_elem.
  - intros pad sig Hsig.
    destruct (b64_vec_max_is_Some sig (Hne pad sig Hsig)) as [mx Hmx].
    exists mx. split; [exact Hmx|]. split; [|split].
    + intros i x Hx. rewrite b64_peak_samples_elem. simpl. split; [split|].
      * now intros [Hgt _].
      * intros Hgt. split; [exact Hgt|]. eauto.
      * intros -> [Hgt _]. rewrite ltb_irrefl in Hgt. discriminate.
    + intros Htot. unfold peak_entry. simpl. rewrite Hmx. simpl.
      now rewrite Htot.
    + intros [Hlow|[Hzero|Hbnd]].
      * unfold peak_entry. simpl. rewrite Hmx. simpl. now rewrite Hlow.
      * apply (b64_peak_entry_boundary getPadCenter pad sig mx Hmx).
        now rewrite (b64_vec_max_zero sig mx Hzero Hmx).
      * now apply (b64_peak_entry_boundary getPadCenter pad sig mx Hmx).
Qed.

(** Three pads.  Pad 3 has its maximum 10 in time bucket 0, and its sample
    3, at the threshold, is not counted: centre of gravity 0.  Pad 7 has its
    maximum 7; the samples 7 and 2.5 are counted and 2.1, at the threshold,
    is not: centre of gravity (2 * 7 + 5 * 2.5) / 9.5.  The all-zero pad 9
    has no row. *)
Lemma peaksTable_rows_witness :
  let getPadCenter := fun pad : N => (of_unsigned pad, 0) in
  let evt : gmap N fvec :=
    {[ 3%N := 10 :: 3 :: zeros 510;
       7%N := 0 :: 1 :: 7 :: 2.1 :: 1.5 :: 2.5 :: zeros 506;
       9%N := zeros 512 ]} in
  (peaksTable_of_event getPadCenter evt
     = Some (omap (peak_entry getPadCenter) (event_items evt)) /\
  (forall pad sig, (pad, sig) ∈ event_items evt <-> evt !! pad = Some sig) /\
  (forall pad sig, evt !! pad = Some sig ->
     exists mx, vec_max sig = Some mx /\
       (forall (i : nat) x, sig !! i = Some x ->
          ((N.of_nat i, x) ∈ peak_samples sig mx <-> (0.3 * mx <? x) = true) /\
          (x = 0.3 * mx -> (N.of_nat i, x) ∉ peak_samples sig mx)) /\
       ((peak_total sig mx <? 1e-3) = false ->
        peak_entry getPadCenter (pad, sig)
        = Some (mkPeakRow (getPadCenter pad).1 (getPadCenter pad).2
                          (peak_centroid sig mx) mx (of_unsigned pad))) /\
       ((peak_total sig mx <? 1e-3) = true \/ Forall (fun x => x = 0) sig
        \/ mx = 0.3 * mx ->
        peak_entry getPadCenter (pad, sig) = None))) /\
  omap (peak_entry getPadCenter) (event_items evt)
  = [mkPeakRow 3 0 0 10 3; mkPeakRow 7 0 2.7894736842105261 7 7].
Proof.
  intros getPadCenter evt. split; [|vm_compute; reflexivity].
  apply (peaksTable_rows getPadCenter evt).
  intros pad sig Hsig ->. unfold evt in Hsig.
  apply lookup_insert_Some in Hsig as [[_ Hsig]|[_ Hsig]]; [discriminate|].
  apply lookup_insert_Some in Hsig as [[_ Hsig]|[_ Hsig]]; [discriminate|].
  apply lookup_singleton_Some in Hsig as [_ Hsig]. discriminate.
Defined.

(** C5 as stated fails on its last clause, whichever way it is read.  A
    signal whose maximum is exactly at the threshold has maximum
    [0.3 * maximum], that is 0, and such a signal has no row, also when it
    is not all zero.  The complete call below, on a trajectory whose energy
    grows, gives pad 7 a signal with maximum 0 and a negative sample in time
    bucket 51, and returns an empty table; on binary64 numbers the signal
    (0, -1, 0, ...) has no row either.  And a sample exactly at the threshold
    is not counted: in the signal (10, 3, 0, ...) the sample 3 equals
    [0.3 * 10], and the centre of gravity of the row is 0, the time bucket
    of the maximum alone. *)
Lemma peaksTable_boundary_excluded :
  (let g := EventGen.mkEventGenerator (mkVec3 0 0 (-1)) 4 40 1 1 0 1 1e6 1
              (EventGen.mkPadPlane (fun _ _ => 7%N) (fun _ => (0, 0))) in
   let pos := [mkVec3 0 0 0; mkVec3 0 0 0.5] in
   exists evt sig x,
     EventGen.makeEvent 1.602176565e-19 g pos [2; 3] = Some evt /\
     evt !! 7%N = Some sig /\ Arma.vec_max sig = Some 0 /\ 0 = 0.3 * 0 /\
     sig !! 51%nat = Some x /\ x < 0 /\
     EventGen.makePeaksTableFromSimulation 1.602176565e-19 g pos [2; 3]
     = Some [])%R /\
  (let getPadCenter := fun pad : N => (of_unsigned pad, 0) in
   vec_max (0 :: -1 :: zeros 510) = Some 0 /\
   0.3 * 0 = 0 /\
   peaksTable_of_event getPadCenter {[ 7%N := 0 :: -1 :: zeros 510 ]} = Some [] /\
   vec_max (10 :: 3 :: zeros 510) = Some 10 /\
   0.3 * 10 = 3 /\
   peaksTable_of_event getPadCenter {[ 7%N := 10 :: 3 :: zeros 510 ]}
   = Some [mkPeakRow 7 0 0 10 7]).
Proof.
  split.
  - destruct (makePeaksTable_negative_pulse 1.602176565e-19 ltac:(lra))
      as (evt & sig & x & Hevt & Hsig & Hmx & Hx & Hneg & Htab).
    exists evt, sig, x. repeat split; try assumption. lra.
  - vm_compute. repeat split; reflexivity.
Qed.

End PeaksTableClaims.

(** ** Sampled parameter vectors *)

Section MinimizerFacts.
Import MCminimizer.
Local Open Scope R_scope.

Lemma clip_bounds lo hi v x : clip lo hi v = Some x -> lo <= x <= hi.
Proof.
  unfold clip. destruct (decide (lo <= hi)) as [Hle|]; [|discriminate].
  intros [= <-].
  destruct (decide (v < lo)); [lra|]. destruct (decide (hi < v)); lra.
Qed.

Lemma clip_is_Some lo hi v : lo <= hi -> is_Some (clip lo hi v).
Proof. intros Hle. unfold clip. rewrite decide_True by assumption. eauto. Qed.

Lemma sample_within_bounds d ctr sigma mins maxes v :
  sample d ctr sigma mins maxes = Some v -> within_bounds mins maxes v.
Proof.
  unfold sample. intros Hv%mapM_Some_1 i x Hx.
  destruct (Forall2_lookup_r _ _ _ _ _ Hv Hx) as (j & Hj & Hclip).
  apply lookup_seq in Hj as [-> _]. simpl in Hclip.
  destruct (ctr !! i) as [c|]; [|discriminate]. simpl in Hclip.
  destruct (sigma !! i) as [s|]; [|discriminate]. simpl in Hclip.
  destruct (mins !! i) as [lo|]; [|discriminate]. simpl in Hclip.
  destruct (maxes !! i) as [hi|]; [|discriminate]. simpl in Hclip.
  exists lo, hi. split; [reflexivity|]. split; [reflexivity|].
  eapply clip_bounds, Hclip.
Qed.

Lemma makeParams_within_bounds draw ctr sigma numSets mins maxes params :
  makeParams draw ctr sigma numSets mins maxes = Some params ->
  Forall (within_bounds mins maxes) params.
Proof.
  unfold makeParams. intros Hp%mapM_Some_1.
  apply Forall_forall. intros v Hv.
  apply list_elem_of_lookup in Hv as [k Hk].
  destruct (Forall2_lookup_r _ _ _ _ _ Hp Hk) as (j & _ & Hs).
  eapply sample_within_bounds, Hs.
Qed.

Lemma makeParams_length draw ctr sigma numSets mins maxes params :
  makeParams draw ctr sigma numSets mins maxes = Some params ->
  length params = numSets.
Proof.
  unfold makeParams. intros Hp%mapM_Some_1.
  apply Forall2_length in Hp. rewrite length_seq in Hp. congruence.
Qed.

(** With bounds of the shape of [ctr], lower ones not above upper ones,
    sampling has a result. *)
Lemma sample_is_Some d ctr sigma mins maxes :
  length sigma = length ctr -> length mins = length ctr ->
  Forall2 Rle mins maxes ->
  is_Some (sample d ctr sigma mins maxes).
Proof.
  intros Hs Hm Hle. unfold sample.
  apply mapM_is_Some, Forall_forall. intros i Hi%elem_of_seq.
  pose proof (Forall2_length _ _ _ Hle) as Hlen. unfold compose.
  destruct (lookup_lt_is_Some_2 ctr i) as [c ->]; [lia|].
  destruct (lookup_lt_is_Some_2 sigma i) as [s ->]; [lia|].
  destruct (lookup_lt_is_Some_2 mins i) as [lo Hlo]; [lia|].
  destruct (lookup_lt_is_Some_2 maxes i) as [hi Hhi]; [lia|].
  rewrite Hlo, Hhi. simpl. apply clip_is_Some.
  eapply Forall2_lookup_lr; eassumption.
Qed.

Lemma makeParams_is_Some draw ctr sigma numSets mins maxes :
  length sigma = length ctr -> length mins = length ctr ->
  Forall2 Rle mins maxes ->
  is_Some (makeParams draw ctr sigma numSets mins maxes).
Proof.
  intros Hs Hm Hle. unfold makeParams.
  apply mapM_is_Some, Forall_forall. intros k _. unfold compose.
  now apply sample_is_Some.
Qed.

Lemma sample_length d ctr sigma mins maxes v :
  sample d ctr sigma mins maxes = Some v -> length v = length ctr.
Proof.
  unfold sample. intros Hv%mapM_Some_1.
  apply Forall2_length in Hv. rewrite length_seq in Hv. congruence.
Qed.

Section Loop.
Variable draw : nat -> nat -> nat -> R.
Variable runTrack : vec -> list vec -> R.
Variables mins maxes : vec.

Lemma minimize_from_within_bounds trueValues numPts redFactor numIters :
  forall it ctr sigma hist chi res,
    Forall (within_bounds mins maxes) hist ->
    minimize_from draw runTrack mins maxes it ctr sigma trueValues
                  numIters numPts redFactor hist chi = Some res ->
    Forall (within_bounds mins maxes) (history res).
Proof.
  induction numIters as [|n IH]; intros it ctr sigma hist chi res Hhist Hres;
    simpl in Hres.
  - injection Hres as <-. exact Hhist.
  - destruct (makeParams (draw it) ctr sigma numPts mins maxes) as [params|] eqn:Hp;
      [|discriminate]. simpl in Hres.
    destruct (lowest _ params) as [ctr'|]; [|discriminate]. simpl in Hres.
    eapply IH; [|exact Hres].
    apply Forall_app. split; [exact Hhist|].
    eapply makeParams_within_bounds, Hp.
Qed.

Lemma lowest_elem score params p : lowest score params = Some p -> p ∈ params.
Proof.
  destruct params as [|q qs]; [discriminate|]. simpl. intros [= <-].
  revert q. induction qs as [|r qs IH]; intros q; simpl; [left|].
  destruct (decide (score r < score q)).
  - right. apply IH.
  - pose proof (IH q) as [Heq|Hin]%elem_of_cons; [rewrite Heq; left|].
    right. now right.
Qed.

(** With well-formed bounds and at least one vector per iteration, the
    minimization runs to its end. *)
Lemma minimize_from_is_Some trueValues numPts redFactor numIters :
  (1 <= numPts)%nat -> Forall2 Rle mins maxes ->
  forall it ctr sigma hist chi,
    length sigma = length ctr -> length mins = length ctr ->
    is_Some (minimize_from draw runTrack mins maxes it ctr sigma trueValues
                           numIters numPts redFactor hist chi).
Proof.
  intros Hpts Hle. induction numIters as [|n IH]; intros it ctr sigma hist chi Hs Hm;
    simpl; [eauto|].
  destruct (makeParams_is_Some (draw it) ctr sigma numPts mins maxes Hs Hm Hle)
    as [params Hp].
  rewrite Hp. simpl.
  destruct (lowest (fun p => runTrack p trueValues) params) as [ctr'|] eqn:Hlow.
  2:{ apply makeParams_length in Hp. destruct params; simpl in *; [lia|discriminate]. }
  simpl. apply IH.
  - rewrite length_map. apply lowest_elem in Hlow.
    apply list_elem_of_lookup in Hlow as [k Hk].
    unfold makeParams in Hp. apply mapM_Some_1 in Hp.
    destruct (Forall2_lookup_r _ _ _ _ _ Hp Hk) as (j & _ & Hsample).
    apply sample_length in Hsample. congruence.
  - apply lowest_elem in Hlow.
    apply list_elem_of_lookup in Hlow as [k Hk].
    unfold makeParams in Hp. apply mapM_Some_1 in Hp.
    destruct (Forall2_lookup_r _ _ _ _ _ Hp Hk) as (j & _ & Hsample).
    apply sample_length in Hsample. congruence.
Qed.

End Loop.

End MinimizerFacts.

Section MinimizerClaims.
Import MCminimizer.
Local Open Scope R_scope.

(** C3: every parameter vector [makeParams] produces, and so every
    parameter vector sampled in any iteration of [minimize] (the vectors of
    its history), has every component [i] between [mins(i)] and
    [maxes(i)]. *)
Theorem sampled_params_within_bounds
    (draw : nat -> nat -> nat -> R) (runTrack : vec -> list vec -> R)
    (mins maxes : vec) :
  (forall (d : nat -> nat -> R) (ctr sigma : vec) (numSets : nat)
          (params : list vec) (v : vec),
      makeParams d ctr sigma numSets mins maxes = Some params ->
      v ∈ params -> within_bounds mins maxes v) /\
  (forall (ctr0 sigma0 : vec) (trueValues : list vec) (numIters numPts : nat)
          (redFactor : R) (res : MCminimizeResult) (v : vec),
      minimize draw runTrack mins maxes ctr0 sigma0 trueValues
               numIters numPts redFactor = Some res ->
      v ∈ history res -> within_bounds mins maxes v).
Proof.
  split.
  - intros d ctr sigma numSets params v Hp Hv.
    apply makeParams_within_bounds in Hp. rewrite Forall_forall in Hp. auto.
  - intros ctr0 sigma0 trueValues numIters numPts redFactor res v Hres Hv.
    unfold minimize in Hres.
    apply minimize_from_within_bounds in Hres; [|constructor].
    rewrite Forall_forall in Hres. auto.
Qed.

Lemma sampled_params_within_bounds_witness :
  let draw := fun (it k i : nat) => INR it + INR k - INR i in
  let runTrack := fun (p : vec) (_ : list vec) => vec_sum p in
  let mins := [0; -1] in
  let maxes := [1; 10] in
  (exists params,
     makeParams (draw 0%nat) [0.5; 5] [1; 20] 3 mins maxes = Some params /\
     forall v, v ∈ params -> within_bounds mins maxes v) /\
  (exists res,
     minimize draw runTrack mins maxes [0.5; 5] [1; 20] [] 4 3 0.5 = Some res /\
     forall v, v ∈ history res -> within_bounds mins maxes v).
Proof.
  intros draw runTrack mins maxes.
  assert (Hle : Forall2 Rle mins maxes).
  { repeat constructor; lra. }
  split.
  - destruct (makeParams_is_Some (draw 0%nat) [0.5; 5] [1; 20] 3 mins maxes)
      as [params Hp]; [reflexivity|reflexivity|exact Hle|].
    exists params. split; [exact Hp|]. intros v Hv.
    exact (proj1 (sampled_params_within_bounds draw runTrack mins maxes)
             (draw 0%nat) [0.5; 5] [1; 20] 3%nat params v Hp Hv).
  - destruct (minimize_from_is_Some draw runTrack mins maxes [] 3 0.5 4
                ltac:(lia) Hle 0%nat [0.5; 5] [1; 20] [] [])
      as [res Hres]; [reflexivity|reflexivity|].
    exists res. split; [exact Hres|]. intros v Hv.
    exact (proj2 (sampled_params_within_bounds draw runTrack mins maxes)
             [0.5; 5] [1; 20] [] 4%nat 3%nat 0.5 res v Hres Hv).
Defined.

(** One sampled vector, worked out: around (0.5, 5) with spread (1, 20) and
    deviates (2, -1), the first component is clipped to its upper bound and
    the second to its lower bound. *)
Example sample_example :
  sample (fun i => match i with O => 2 | _ => -1 end) [0.5; 5] [1; 20] [0; -1] [1; 10]
  = Some [1; -1].
Proof.
  unfold sample, clip. simpl.
  rewrite (decide_True (P := 0 <= 1)) by lra.
  rewrite (decide_False (P := 0.5 + 1 * 2 < 0)) by lra.
  rewrite (decide_True (P := 1 < 0.5 + 1 * 2)) by lra.
  rewrite (decide_True (P := -1 <= 10)) by lra.
  rewrite (decide_True (P := 5 + 20 * -1 < -1)) by lra.
  reflexivity.
Qed.

End MinimizerClaims.

(** * Further properties of the code *)

(** ** Calibration with an offset, and the tilt *)

Section CalibrationMore.
Import Calibration.
Local Open Scope R_scope.

(** [calibrate] after [uncalibrate] with a time-bucket offset gives back x
    and y, and z moved by the drift length of [offset] time buckets: exactly
    in exact arithmetic, for a divisor [clock * 1e-4] that is not zero as a
    double. *)
Theorem calibrate_uncalibrate_offset (p : list Vec3) (vd : Vec3) (clock : R)
    (offset : Z) :
  v_z vd <> 0 -> nonzero_double (clock * 1e-4) ->
  calibrate (uncalibrate p vd clock offset) vd clock
  = map (fun r => mkVec3 (v_x r) (v_y r)
                    (v_z r + IZR offset * (- v_z vd) / (clock * 1e-4))) p.
Proof.
  intros Hz Hc%nonzero_double_clock. unfold calibrate, uncalibrate. rewrite map_map.
  apply map_ext. intros r.
  apply Vec3_eq; unfold uncalibrate_row, calibrate_row; simpl;
    field; repeat split; lra.
Qed.

Lemma calibrate_uncalibrate_offset_witness :
  calibrate (uncalibrate [mkVec3 1 2 0.5] (mkVec3 0.5 0.25 (-1)) 1e6 7)
            (mkVec3 0.5 0.25 (-1)) 1e6
  = map (fun r => mkVec3 (v_x r) (v_y r)
                    (v_z r + IZR 7 * (- v_z (mkVec3 0.5 0.25 (-1))) / (1e6 * 1e-4)))
        [mkVec3 1 2 0.5].
Proof.
  apply (calibrate_uncalibrate_offset [mkVec3 1 2 0.5] (mkVec3 0.5 0.25 (-1)) 1e6 7).
  - simpl. lra.
  - apply nonzero_double_ge_1. lra.
Defined.

(** The time bucket [uncalibrate] assigns to a point is a function of its z
    alone, whatever its x and y; in exact arithmetic, moving z by the drift
    length of one time bucket moves the time bucket by one. *)
Theorem uncalibrate_time_bucket_step (vd : Vec3) (clock : R) (offset : Z)
    (r r' : Vec3) :
  v_z vd <> 0 -> nonzero_double (clock * 1e-4) ->
  let step := (- v_z vd) / (clock * 1e-4) in
  (v_z r' = v_z r ->
   v_z (uncalibrate_row vd clock offset r')
   = v_z (uncalibrate_row vd clock offset r)) /\
  (v_z r' = v_z r + step ->
   v_z (uncalibrate_row vd clock offset r')
   = v_z (uncalibrate_row vd clock offset r) + 1).
Proof.
  intros Hz Hc%nonzero_double_clock step. unfold step, uncalibrate_row. simpl.
  split; intros ->; [reflexivity|].
  field. repeat split; lra.
Qed.

Lemma uncalibrate_time_bucket_step_witness :
  let vd := mkVec3 0.5 0.25 (-1) in
  v_z (uncalibrate_row vd 1e6 3 (mkVec3 5 (-3) 0.5))
  = v_z (uncalibrate_row vd 1e6 3 (mkVec3 1 2 0.5)) /\
  v_z (uncalibrate_row vd 1e6 3 (mkVec3 5 (-3) 0.51))
  = v_z (uncalibrate_row vd 1e6 3 (mkVec3 1 2 0.5)) + 1.
Proof.
  intros vd.
  assert (Hz : v_z vd <> 0) by (simpl; lra).
  assert (Hc : nonzero_double (1e6 * 1e-4)) by (apply nonzero_double_ge_1; lra).
  split.
  - apply (uncalibrate_time_bucket_step vd 1e6 3 (mkVec3 1 2 0.5) (mkVec3 5 (-3) 0.5)
             Hz Hc). reflexivity.
  - apply (uncalibrate_time_bucket_step vd 1e6 3 (mkVec3 1 2 0.5) (mkVec3 5 (-3) 0.51)
             Hz Hc). simpl. lra.
Defined.

(** [unTiltAndRecenter] keeps the number of points and the x-coordinate of
    each, and, up to the shift of y by [tan tilt], the distance of each
    point from the x-axis; with zero tilt it changes nothing. *)
Theorem unTiltAndRecenter_rigid (pos : list Vec3) (tilt : R) :
  length (unTiltAndRecenter pos tilt) = length pos /\
  (forall i p, pos !! i = Some p ->
     exists q, unTiltAndRecenter pos tilt !! i = Some q /\
       v_x q = v_x p /\
       (v_y q + tan tilt) * (v_y q + tan tilt) + v_z q * v_z q
       = v_y p * v_y p + v_z p * v_z p) /\
  unTiltAndRecenter pos 0 = pos.
Proof.
  unfold unTiltAndRecenter. split; [apply length_map|]. split.
  - intros i p Hp. eexists. split.
    { rewrite list_lookup_fmap, Hp. reflexivity. }
    unfold unTiltAndRecenter_row. simpl. split; [ring|].
    rewrite cos_neg, sin_neg.
    pose proof (sin2_cos2 tilt) as H. unfold Rsqr in H.
    replace (0 * v_x p + cos tilt * v_y p + - - sin tilt * v_z p - tan tilt + tan tilt)
      with (cos tilt * v_y p + sin tilt * v_z p) by ring.
    replace (0 * v_x p + - sin tilt * v_y p + cos tilt * v_z p)
      with (cos tilt * v_z p - sin tilt * v_y p) by ring.
    transitivity ((sin tilt * sin tilt + cos tilt * cos tilt)
                  * (v_y p * v_y p + v_z p * v_z p)); [ring|].
    rewrite H. ring.
  - induction pos as [|p pos IH]; simpl; [reflexivity|]. rewrite IH. f_equal.
    unfold unTiltAndRecenter_row. rewrite Ropp_0, cos_0, sin_0, tan_0.
    apply Vec3_eq; simpl; ring.
Qed.

Lemma unTiltAndRecenter_rigid_witness :
  let pos := [mkVec3 1 2 3] in
  length (unTiltAndRecenter pos 0.1) = length pos /\
  (exists q, unTiltAndRecenter pos 0.1 !! 0%nat = Some q /\
     v_x q = 1 /\
     (v_y q + tan 0.1) * (v_y q + tan 0.1) + v_z q * v_z q = 2 * 2 + 3 * 3) /\
  unTiltAndRecenter pos 0 = pos.
Proof.
  intros pos.
  destruct (unTiltAndRecenter_rigid pos 0.1) as (Hlen & Hrow & _).
  destruct (unTiltAndRecenter_rigid pos 0) as (_ & _ & Hzero).
  split; [exact Hlen|]. split; [|exact Hzero].
  apply (Hrow 0%nat (mkVec3 1 2 3)). reflexivity.
Defined.

End CalibrationMore.

(** ** The pulse shape and the square wave *)

Section PulseMore.
Import EventGen.
Local Open Scope R_scope.

Lemma approxSin_sin_lb (t : R) : approxSin t = sin_lb t.
Proof.
  unfold approxSin, sin_lb, sin_approx. cbn [sum_f_R0]. unfold sin_term.
  rewrite !INR_IZR_INZ.
  change (Z.of_nat (fact (2 * 0 + 1))) with 1%Z.
  change (Z.of_nat (fact (2 * 1 + 1))) with 6%Z.
  change (Z.of_nat (fact (2 * 2 + 1))) with 120%Z.
  change (Z.of_nat (fact (2 * 3 + 1))) with 5040%Z.
  cbn [pow Nat.mul Nat.add]. field.
Qed.

Lemma approxSin_sin_ub (t : R) : approxSin t + t ^ 9 / 362880 = sin_ub t.
Proof.
  unfold approxSin, sin_ub, sin_approx. cbn [sum_f_R0]. unfold sin_term.
  rewrite !INR_IZR_INZ.
  change (Z.of_nat (fact (2 * 0 + 1))) with 1%Z.
  change (Z.of_nat (fact (2 * 1 + 1))) with 6%Z.
  change (Z.of_nat (fact (2 * 2 + 1))) with 120%Z.
  change (Z.of_nat (fact (2 * 3 + 1))) with 5040%Z.
  replace (Z.of_nat (fact (2 * 4 + 1))) with 362880%Z by (vm_compute; reflexivity).
  cbn [pow Nat.mul Nat.add]. field.
Qed.

Lemma approxSin_odd (t : R) : approxSin (- t) = - approxSin t.
Proof. unfold approxSin. field. Qed.

(** [approxSin] is within [|t|^9 / 9!] of the sine for [t] between [-PI]
    and [PI]; from 0 to [PI] it does not exceed the sine. *)
Theorem approxSin_error (t : R) :
  - PI <= t <= PI ->
  Rabs (sin t - approxSin t) <= Rabs t ^ 9 / 362880 /\
  (0 <= t -> approxSin t <= sin t).
Proof.
  intros [Hlo Hhi].
  assert (Hpos : forall u, 0 <= u -> u <= PI ->
            0 <= sin u - approxSin u <= u ^ 9 / 362880).
  { intros u H0 H1. pose proof (SIN u H0 H1) as [Hl Hu].
    rewrite <- approxSin_sin_lb in Hl. rewrite <- approxSin_sin_ub in Hu. lra. }
  split.
  - destruct (Rle_dec 0 t) as [Ht|Ht].
    + rewrite (Rabs_pos_eq t) by assumption.
      destruct (Hpos t Ht Hhi). rewrite Rabs_pos_eq; lra.
    + assert (Hn : 0 <= - t) by lra.
      destruct (Hpos (- t) Hn ltac:(lra)) as [H1 H2].
      rewrite sin_neg, approxSin_odd in H1, H2.
      rewrite (Rabs_left t) by lra.
      rewrite Rabs_left1 by lra. lra.
  - intros Ht. destruct (Hpos t Ht Hhi). lra.
Qed.

Lemma approxSin_error_witness :
  Rabs (sin 1 - approxSin 1) <= Rabs 1 ^ 9 / 362880 /\
  (0 <= 1 -> approxSin 1 <= sin 1).
Proof.
  apply (approxSin_error 1).
  pose proof PI2_1. pose proof PI_RGT_0. lra.
Defined.

(** [elecPulse] is linear in the amplitude: scaling the amplitude scales
    every sample, and the pulse is undefined for the same offsets. *)
Theorem elecPulse_scaling (k amplitude shape clock offset : R) :
  elecPulse (k * amplitude) shape clock offset
  = map (fun x => k * x) <$> elecPulse amplitude shape clock offset.
Proof.
  destruct (decide (0 <= Zceil offset < Z.of_N uword_modulus)%Z) as [Hr|Hr].
  - destruct (elecPulse_samples amplitude shape clock offset Hr)
      as (res & -> & Hlen & Hval).
    destruct (elecPulse_samples (k * amplitude) shape clock offset Hr)
      as (res' & -> & Hlen' & Hval').
    simpl. f_equal. apply list_eq. intros i.
    destruct (decide (i < 512)%nat) as [Hi|Hi].
    + rewrite list_lookup_fmap, Hval', Hval by assumption. simpl. f_equal.
      destruct (decide (Z.of_nat i < Zceil offset)%Z); [ring|].
      unfold pulse_sample. simpl. unfold Rdiv. ring.
    + rewrite !lookup_ge_None_2; [reflexivity| |]; [rewrite length_map|]; lia.
  - now rewrite !elecPulse_undefined by assumption.
Qed.

(** A pulse that arrives after time bucket 511 is all zero: the rows that
    [makeEvent] skips for [offset > 511] would not have added anything. *)
Theorem elecPulse_late (amplitude shape clock offset : R) :
  offset > 511 -> (Zceil offset < 2 ^ 64)%Z ->
  elecPulse amplitude shape clock offset = Some (zeros 512).
Proof.
  intros Hlate Hfit.
  assert (Hc : (512 <= Zceil offset)%Z).
  { pose proof (Zceil_bound offset) as [_ Hb].
    assert (H : (511 < Zceil offset)%Z) by (apply lt_IZR; lra). lia. }
  destruct (elecPulse_samples amplitude shape clock offset) as (res & -> & Hlen & Hval).
  { change (Z.of_N uword_modulus) with (2 ^ 64)%Z. lia. }
  f_equal. apply list_eq. intros i.
  destruct (decide (i < 512)%nat) as [Hi|Hi].
  - rewrite Hval by assumption. rewrite decide_True by lia.
    unfold zeros. now rewrite lookup_replicate_2.
  - rewrite !lookup_ge_None_2; [reflexivity| |]; [rewrite length_zeros|]; lia.
Qed.

Lemma elecPulse_late_witness : elecPulse 3 1 1 600 = Some (zeros 512).
Proof.
  apply (elecPulse_late 3 1 1 600); [lra|].
  replace (Zceil 600) with 600%Z by (symmetry; apply Zceil_eq; lra). lia.
Defined.

(** For a divisor [shape * clock] that is not zero as a double: from its
    first point on, the pulse follows the shape
    [amplitude * exp (-3 t) * approxSin t * t^3 / 0.044] with
    [t = (i - offset) / (shape * clock)]; where the offset is a whole time
    bucket the pulse starts from 0 there. *)
Theorem elecPulse_shape (amplitude shape clock offset : R) (i : nat) :
  nonzero_double (shape * clock) ->
  (0 <= Zceil offset < 2 ^ 64)%Z ->
  (i < 512)%nat -> (Zceil offset <= Z.of_nat i)%Z ->
  exists res,
    elecPulse amplitude shape clock offset = Some res /\
    res !! i = Some (pulse_sample amplitude shape clock offset (N.of_nat i)) /\
    (offset = INR i -> res !! i = Some 0).
Proof.
  intros _ Hr Hi Hge.
  destruct (elecPulse_samples amplitude shape clock offset Hr) as (res & Hres & _ & Hval).
  exists res. split; [exact Hres|].
  assert (Hs : res !! i = Some (pulse_sample amplitude shape clock offset (N.of_nat i))).
  { rewrite Hval by assumption. now rewrite decide_False by lia. }
  split; [exact Hs|].
  intros Hoff. rewrite Hs. f_equal. unfold pulse_sample, of_uword.
  rewrite nat_N_Z, <- INR_IZR_INZ, Hoff. simpl.
  unfold Rminus. rewrite Rplus_opp_r. unfold Rdiv. ring.
Qed.

(** A pulse that arrives at time bucket 2: it starts from 0 there and
    follows the shape in time bucket 3. *)
Lemma elecPulse_shape_witness :
  exists res,
    elecPulse 3 1 12.5 2 = Some res /\
    res !! 2%nat = Some 0 /\
    res !! 3%nat = Some (pulse_sample 3 1 12.5 2 3).
Proof.
  assert (Hs : nonzero_double (1 * 12.5)) by (apply nonzero_double_ge_1; lra).
  assert (Hc : Zceil 2 = 2%Z) by (apply Zceil_eq; lra).
  destruct (elecPulse_shape 3 1 12.5 2 2 Hs) as (res & Hres & _ & Hzero);
    [rewrite Hc; lia|lia|rewrite Hc; lia|].
  destruct (elecPulse_shape 3 1 12.5 2 3 Hs) as (res' & Hres' & Hshape & _);
    [rewrite Hc; lia|lia|rewrite Hc; lia|].
  assert (res' = res) as -> by congruence.
  exists res. split; [exact Hres|]. split; [|exact Hshape].
  apply Hzero. simpl. lra.
Defined.

End PulseMore.

Section SquareWave.
Import EventGen.
Local Open Scope R_scope.

Lemma squareWave_samples (size leftEdge width : N) (height : R) :
  exists res,
    squareWave size leftEdge width height = Some res /\
    length res = N.to_nat size /\
    forall i : N, (i < size)%N ->
      res !! N.to_nat i
      = Some (if decide (leftEdge <= i < uword_add leftEdge width)%N
              then height else 0).
Proof.
  unfold squareWave. set (hi := N.min (uword_add leftEdge width) size).
  destruct (decide (leftEdge <= hi)%N) as [Hle|Hgt].
  - pose (I := fun (k : N) (s : vec) =>
      length s = N.to_nat size /\
      forall i : N, (i < size)%N ->
        s !! N.to_nat i
        = Some (if decide (leftEdge <= i < k)%N then height else 0)).
    destruct (for_range_invariant I leftEdge hi (zeros (N.to_nat size))
                (fun i res => set_elem res i height)) as (res & Hres & Hlen & Hval).
    + exact Hle.
    + split; [apply length_zeros|]. intros i Hi.
      rewrite decide_False by lia. unfold zeros. apply lookup_replicate_2. lia.
    + intros k s [Hk1 Hk2] [Hlen Hval]. unfold set_elem, n_elem.
      rewrite decide_True by (unfold hi in Hk2; lia).
      eexists; split; [reflexivity|]. split; [now rewrite length_insert|].
      intros i Hi. destruct (decide (i = k)) as [->|Hne].
      * rewrite list_lookup_insert_eq by lia. now rewrite decide_True by lia.
      * rewrite list_lookup_insert_ne by lia. rewrite Hval by assumption.
        destruct (decide (leftEdge <= i < k)%N);
          [rewrite decide_True by lia|rewrite decide_False by lia]; reflexivity.
    + exists res. split; [exact Hres|]. split; [exact Hlen|].
      intros i Hi. rewrite Hval by assumption. unfold hi.
      destruct (decide (leftEdge <= i < uword_add leftEdge width)%N);
        [rewrite decide_True by lia|rewrite decide_False by lia]; reflexivity.
  - rewrite for_range_empty by lia.
    exists (zeros (N.to_nat size)). split; [reflexivity|]. split; [apply length_zeros|].
    intros i Hi. rewrite decide_False by (unfold hi in Hgt; lia).
    unfold zeros. apply lookup_replicate_2. lia.
Qed.

Lemma uword_add_small (a b : N) :
  (a + b < uword_modulus)%N -> uword_add a b = (a + b)%N.
Proof. intros H. unfold uword_add. now apply N.mod_small. Qed.

Lemma uword_add_wrap (a b : N) :
  (a < uword_modulus)%N -> (b < uword_modulus)%N ->
  (uword_modulus <= a + b)%N -> uword_add a b = (a + b - uword_modulus)%N.
Proof.
  intros Ha Hb Hge. unfold uword_add.
  replace (a + b)%N with (a + b - uword_modulus + 1 * uword_modulus)%N at 1 by lia.
  rewrite N.Div0.mod_add. apply N.mod_small. lia.
Qed.

(** [squareWave] never fails and never writes past the end: it returns
    [size] samples, [height] on the part of the window from [leftEdge] to
    [leftEdge + width] that lies below [size], and 0 elsewhere. *)
Theorem squareWave_window (size leftEdge width : N) (height : R) :
  (leftEdge + width < 2 ^ 64)%N ->
  exists res,
    squareWave size leftEdge width height = Some res /\
    length res = N.to_nat size /\
    forall i : N, (i < size)%N ->
      res !! N.to_nat i
      = Some (if decide (leftEdge <= i < leftEdge + width)%N then height else 0).
Proof.
  intros Hsmall.
  destruct (squareWave_samples size leftEdge width height) as (res & Hres & Hlen & Hval).
  exists res. split; [exact Hres|]. split; [exact Hlen|].
  intros i Hi. rewrite Hval by assumption.
  now rewrite uword_add_small by exact Hsmall.
Qed.

Lemma squareWave_window_witness :
  exists res,
    squareWave 8 6 5 2 = Some res /\
    length res = N.to_nat 8 /\
    forall i : N, (i < 8)%N ->
      res !! N.to_nat i
      = Some (if decide (6 <= i < 6 + 5)%N then 2 else 0).
Proof.
  apply (squareWave_window 8 6 5 2). vm_compute. reflexivity.
Defined.

(** When [leftEdge + width] does not fit an [arma::uword] the bound of the
    loop wraps around below [leftEdge], and the wave is all zero. *)
Theorem squareWave_wrap (size leftEdge width : N) (height : R) :
  (leftEdge < 2 ^ 64)%N -> (width < 2 ^ 64)%N ->
  (2 ^ 64 <= leftEdge + width)%N ->
  squareWave size leftEdge width height = Some (zeros (N.to_nat size)).
Proof.
  intros Ha Hb Hge.
  destruct (squareWave_samples size leftEdge width height) as (res & -> & Hlen & Hval).
  f_equal. apply list_eq. intros j.
  destruct (decide (j < N.to_nat size)%nat) as [Hj|Hj].
  - specialize (Hval (N.of_nat j) ltac:(lia)). rewrite Nat2N.id in Hval.
    rewrite Hval. rewrite uword_add_wrap by assumption.
    rewrite decide_False.
    + unfold zeros. now rewrite lookup_replicate_2.
    + change uword_modulus with (2 ^ 64)%N. lia.
  - rewrite !lookup_ge_None_2; [reflexivity| |]; [rewrite length_zeros|]; lia.
Qed.

Lemma squareWave_wrap_witness :
  squareWave 8 2 (2 ^ 64 - 1) 5 = Some (zeros (N.to_nat 8)).
Proof.
  apply (squareWave_wrap 8 2 (2 ^ 64 - 1) 5); vm_compute; (reflexivity || discriminate).
Defined.

End SquareWave.

(** ** Diffusion: charge, centre and spread *)

Section DiffuseMore.
Import Calibration EventGen.
Local Open Scope R_scope.

Lemma vec_sum_app (a b : vec) : vec_sum (a ++ b) = vec_sum a + vec_sum b.
Proof.
  induction a as [|x a IH]; simpl; [lra|]. rewrite IH. lra.
Qed.

Lemma vec_sum_center (tr : list Row4) :
  vec_sum (map r_q (map center_row tr)) = vec_sum (map r_q tr) * centerAmpl.
Proof.
  induction tr as [|t tr IH]; simpl; [lra|]. rewrite IH. lra.
Qed.

Lemma vec_sum_satellite g d (tr : list Row4) :
  vec_sum (map r_q (map (satellite_row g d) tr)) = vec_sum (map r_q tr) * diffAmpl g.
Proof.
  induction tr as [|t tr IH]; simpl; [lra|]. rewrite IH. lra.
Qed.

Lemma diffuseElectrons_Some_inv g tr out :
  diffuseElectrons g tr = Some out -> tr <> [] /\ out = diffused_rows g tr.
Proof.
  intros H. assert (Hne : tr <> []).
  { intros ->. rewrite diffuseElectrons_empty in H. discriminate. }
  split; [exact Hne|]. rewrite diffuseElectrons_some in H by assumption. congruence.
Qed.

(** Diffusion conserves the charge of the whole track: the charges of the
    rows of the output add up to the charges of the rows of the input. *)
Theorem diffuseElectrons_total_charge (g : EventGenerator) (tr out : list Row4) :
  diffuseElectrons g tr = Some out ->
  vec_sum (map r_q out) = vec_sum (map r_q tr).
Proof.
  intros (Hne & ->)%diffuseElectrons_Some_inv.
  unfold diffused_rows, diffPts. cbn [map concat].
  rewrite !map_app, !vec_sum_app, vec_sum_center, !vec_sum_satellite.
  rewrite diffAmpl_value. unfold centerAmpl. simpl. lra.
Qed.

Lemma diffuseElectrons_total_charge_witness :
  let g := mkEventGenerator (mkVec3 0 0 (-1)) 4 40 1 1 0 1 1e6 1
                            (mkPadPlane (fun _ _ => 7%N) (fun _ => (0, 0))) in
  let tr := [mkRow4 0 0 1 50; mkRow4 1 2 4 100] in
  vec_sum (map r_q (diffused_rows g tr)) = vec_sum (map r_q tr).
Proof.
  intros g tr.
  apply (diffuseElectrons_total_charge g tr (diffused_rows g tr)).
  apply diffuseElectrons_some. discriminate.
Defined.

(** Diffusion does not move a point's charge on average: the nine rows
    that come from one row with a time bucket that is not negative (so that
    its square root is defined) keep its time bucket, and their
    charge-weighted mean position in x and in y is the position of that
    row. *)
Theorem diffuseElectrons_centroid (g : EventGenerator) (tr : list Row4)
    (i : nat) (t : Row4) :
  tr !! i = Some t -> 0 <= r_z t ->
  exists out,
    diffuseElectrons g tr = Some out /\
    Forall (fun row => r_z row = r_z t) (derived_rows out (length tr) i) /\
    vec_sum (map (fun row => r_q row * r_x row) (derived_rows out (length tr) i))
      = r_q t * r_x t /\
    vec_sum (map (fun row => r_q row * r_y row) (derived_rows out (length tr) i))
      = r_q t * r_y t.
Proof.
  intros Ht _.
  destruct (diffuseElectrons_derived_rows g tr i t Ht) as (out & Hout & Hrows).
  exists out. split; [exact Hout|]. rewrite Hrows.
  unfold diffPts, satellite_row, center_row. cbn [map].
  split; [repeat constructor|].
  cbn [vec_sum foldr map r_q r_x r_y r_z fst snd].
  assert (H8 : centerAmpl + 8 * diffAmpl g = 1).
  { rewrite diffAmpl_value. unfold centerAmpl. lra. }
  split.
  - transitivity (r_q t * r_x t * (centerAmpl + 8 * diffAmpl g)); [ring|].
    rewrite H8. ring.
  - transitivity (r_q t * r_y t * (centerAmpl + 8 * diffAmpl g)); [ring|].
    rewrite H8. ring.
Qed.

Lemma diffuseElectrons_centroid_witness :
  let g := mkEventGenerator (mkVec3 0 0 (-1)) 4 40 1 1 0 1 1e6 1
                            (mkPadPlane (fun _ _ => 7%N) (fun _ => (0, 0))) in
  let t := mkRow4 1 2 4 100 in
  let tr := [mkRow4 0 0 1 50; t] in
  exists out,
    diffuseElectrons g tr = Some out /\
    Forall (fun row => r_z row = r_z t) (derived_rows out 2 1) /\
    vec_sum (map (fun row => r_q row * r_x row) (derived_rows out 2 1))
      = r_q t * r_x t /\
    vec_sum (map (fun row => r_q row * r_y row) (derived_rows out 2 1))
      = r_q t * r_y t.
Proof.
  intros g t tr. apply (diffuseElectrons_centroid g tr 1 t); [reflexivity|].
  simpl. lra.
Defined.

End DiffuseMore.

Section DiffuseSpread.
Import Calibration EventGen.
Local Open Scope R_scope.

(** For a row with time bucket [z >= 0], the four diffusion points along
    the axes lie at squared distance [diffSigma^2 * z] from it, and the
    four diagonal ones at [4 * diffSigma^2 * z], twice as far. *)
Theorem diffuseElectrons_spread (g : EventGenerator) (tr : list Row4)
    (i k : nat) (t : Row4) :
  0 <= r_z t -> tr !! i = Some t -> (k < 8)%nat ->
  exists out s,
    diffuseElectrons g tr = Some out /\
    out !! (length tr * (k + 1) + i)%nat = Some s /\
    (r_x s - r_x t) * (r_x s - r_x t) + (r_y s - r_y t) * (r_y s - r_y t)
    = (if decide (k < 4)%nat then 1 else 4) * (diffSigma g * diffSigma g) * r_z t.
Proof.
  intros Hz Ht Hk.
  assert (Hne : tr <> []) by (intros ->; discriminate Ht).
  destruct (diffuseElectrons_rows g tr Hne) as (out & Hout & _ & _ & Hsat).
  destruct (lookup_lt_is_Some_2 (diffPts g) k) as [d Hd]; [exact Hk|].
  exists out, (satellite_row g d t).
  split; [exact Hout|]. split; [now apply Hsat|].
  pose proof (sqrt_sqrt (r_z t) Hz) as Hsz.
  pose proof (sqrt_sqrt 2 ltac:(lra)) as Hs2.
  set (sz := sqrt (r_z t)) in *. set (s2 := sqrt 2) in *.
  set (sg := diffSigma g).
  assert (Hcases :
    (k < 4)%nat /\ d.1 * d.1 + d.2 * d.2 = sg * sg \/
    (4 <= k)%nat /\ d.1 * d.1 + d.2 * d.2 = 2 * (sg * sg * (s2 * s2))).
  { unfold diffPts in Hd. fold s2 in Hd. fold sg in Hd.
    do 8 (destruct k as [|k];
          [injection Hd as <-; simpl; first [left; split; [lia|ring]
                                           | right; split; [lia|ring]]|]).
    lia. }
  unfold satellite_row. simpl. fold sz.
  transitivity ((d.1 * d.1 + d.2 * d.2) * (sz * sz)); [ring|].
  rewrite Hsz.
  destruct Hcases as [[Hlt ->]|[Hge ->]].
  - rewrite decide_True by assumption. ring.
  - rewrite decide_False by lia. rewrite Hs2. ring.
Qed.

Lemma diffuseElectrons_spread_witness :
  let g := mkEventGenerator (mkVec3 0 0 (-1)) 4 40 1 1 0 1 1e6 1
                            (mkPadPlane (fun _ _ => 7%N) (fun _ => (0, 0))) in
  let t := mkRow4 1 2 4 100 in
  let tr := [mkRow4 0 0 1 50; t] in
  exists out s,
    diffuseElectrons g tr = Some out /\
    out !! (2 * (5 + 1) + 1)%nat = Some s /\
    (r_x s - r_x t) * (r_x s - r_x t) + (r_y s - r_y t) * (r_y s - r_y t)
    = (if decide (5 < 4)%nat then 1 else 4) * (diffSigma g * diffSigma g) * r_z t.
Proof.
  intros g t tr. apply (diffuseElectrons_spread g tr 1 5 t).
  - simpl. lra.
  - reflexivity.
  - lia.
Defined.

(** A track [prepareTrack] returns comes from at least two points with as
    many energies, and has nine rows per point; the nine rows of a point
    carry the time bucket [uncalibrate] gives the point after
    [unTiltAndRecenter], and the nine rows of the first point carry no
    charge. *)
Theorem prepareTrack_shape (g : EventGenerator) (pos : list Vec3) (en : vec)
    (out : list Row4) :
  prepareTrack g pos en = Some out ->
  (2 <= length pos)%nat /\ length en = length pos /\
  length out = (9 * length pos)%nat /\
  (forall i p, pos !! i = Some p ->
     length (derived_rows out (length pos) i) = 9%nat /\
     Forall (fun row =>
               r_z row = v_z (uncalibrate_row (vd g) (clock g) 0
                                (unTiltAndRecenter_row (tilt g) p)))
            (derived_rows out (length pos) i)) /\
  Forall (fun row => r_q row = 0) (derived_rows out (length pos) 0).
Proof.
  intros Hprep.
  destruct (prepareTrack_Some_inv g pos en out Hprep) as (Hlen & Hpos & ->).
  pose proof (length_prepared_points g pos en Hlen ltac:(lia)) as Hlp.
  split; [exact Hpos|]. split; [exact Hlen|].
  split; [rewrite length_diffused_rows, Hlp; lia|].
  assert (Hrows : forall i p q,
            pos !! i = Some p -> (0 :: numElec_tail g en) !! i = Some q ->
            derived_rows (diffused_rows g (prepared_points g pos en)) (length pos) i
            = center_row (prepared_point g p q)
              :: map (fun d => satellite_row g d (prepared_point g p q)) (diffPts g)).
  { intros i p q Hp Hq.
    assert (Hpp : prepared_points g pos en !! i = Some (prepared_point g p q)).
    { unfold prepared_points. rewrite lookup_zip_with, Hp. simpl. now rewrite Hq. }
    destruct (diffuseElectrons_derived_rows g _ i _ Hpp) as (out & Hout & Hd).
    rewrite diffuseElectrons_some in Hout.
    - injection Hout as <-. now rewrite Hlp in Hd.
    - intros Hnil. rewrite Hnil in Hpp. discriminate. }
  split.
  - intros i p Hp.
    destruct (lookup_lt_is_Some_2 (0 :: numElec_tail g en) i) as [q Hq].
    { simpl. rewrite length_numElec_tail. apply lookup_lt_Some in Hp. lia. }
    rewrite (Hrows i p q Hp Hq). split; [reflexivity|].
    unfold diffPts. cbn [map]. repeat constructor.
  - destruct pos as [|p pos]; [simpl in Hpos; lia|].
    rewrite (Hrows 0%nat p 0 eq_refl eq_refl).
    unfold diffPts. cbn [map]. repeat constructor; simpl; ring.
Qed.

Lemma prepareTrack_shape_witness :
  let g := mkEventGenerator (mkVec3 0 0 (-1)) 4 40 1 1 0 1 1e6 1
                            (mkPadPlane (fun _ _ => 7%N) (fun _ => (0, 0))) in
  let pos := [mkVec3 0 0 0; mkVec3 0 0 0.5] in
  let out := diffused_rows g (prepared_points g pos [3; 2]) in
  (2 <= length pos)%nat /\ length [3; 2] = length pos /\
  length out = (9 * length pos)%nat /\
  (forall i p, pos !! i = Some p ->
     length (derived_rows out (length pos) i) = 9%nat /\
     Forall (fun row =>
               r_z row = v_z (uncalibrate_row (vd g) (clock g) 0
                                (unTiltAndRecenter_row (tilt g) p)))
            (derived_rows out (length pos) i)) /\
  Forall (fun row => r_q row = 0) (derived_rows out (length pos) 0).
Proof.
  intros g pos out. apply (prepareTrack_shape g pos [3; 2] out).
  apply prepareTrack_eq; simpl; lia.
Defined.

End DiffuseSpread.

(** ** The event, the mesh signal and the hit pattern *)

Section EventKeys.
Import Calibration EventGen.
Local Open Scope R_scope.

Variable E_CHG : R.
Variable g : EventGenerator.

Lemma makeEvent_step_keys (m m' : gmap pad_t vec) (row : Row4) (pad : pad_t) :
  makeEvent_step E_CHG g m row = Some m' ->
  (is_Some (m' !! pad) <->
   is_Some (m !! pad) \/ (pad <> 20000%N /\ pad_of g row = pad)).
Proof.
  intros Hstep.
  destruct (decide (pad_of g row = 20000%N)) as [Hs|Hs].
  { rewrite makeEvent_step_sentinel in Hstep by assumption. injection Hstep as <-.
    split; [auto|]. intros [H|[H1 H2]]; [exact H|congruence]. }
  assert (Hins : forall s, is_Some (<[pad_of g row := s]> m !! pad) <->
            is_Some (m !! pad) \/ (pad <> 20000%N /\ pad_of g row = pad)).
  { intros s. rewrite lookup_insert_is_Some. split.
    - intros [H|[_ H]]; [right; split; congruence|now left].
    - intros [H|[_ H]]; [|now left].
      destruct (decide (pad_of g row = pad)); [now left|now right]. }
  destruct (decide (r_z row > 511)) as [Hz|Hz].
  { rewrite makeEvent_step_overflow in Hstep by assumption. injection Hstep as <-.
    apply Hins. }
  rewrite makeEvent_step_pulse in Hstep by assumption.
  destruct (elecPulse _ _ _ _) as [pulse|]; [|discriminate]. simpl in Hstep.
  destruct (vec_add _ pulse) as [s|]; [|discriminate]. simpl in Hstep.
  injection Hstep as <-. apply Hins.
Qed.

Lemma makeEvent_fold_keys (rows : list Row4) :
  forall (m evt : gmap pad_t vec) (pad : pad_t),
    makeEvent_fold E_CHG g m rows = Some evt ->
    (is_Some (evt !! pad) <->
     is_Some (m !! pad)
     \/ (pad <> 20000%N /\ exists row, row ∈ rows /\ pad_of g row = pad)).
Proof.
  induction rows as [|row rows IH]; intros m evt pad Hfold.
  - injection Hfold as <-. split; [auto|].
    intros [H|(_ & row & Hin & _)]; [exact H|]. now apply elem_of_nil in Hin.
  - rewrite makeEvent_fold_cons in Hfold.
    destruct (makeEvent_step E_CHG g m row) as [m'|] eqn:Hstep; [|discriminate].
    simpl in Hfold. rewrite (IH m' evt pad Hfold).
    rewrite (makeEvent_step_keys m m' row pad Hstep). split.
    + intros [[H|[H1 H2]]|(H1 & r & Hin & Hr)].
      * now left.
      * right. split; [exact H1|]. exists row. split; [left|exact H2].
      * right. split; [exact H1|]. exists r. split; [now right|exact Hr].
    + intros [H|(H1 & r & Hin & Hr)]; [now left; left|].
      apply elem_of_cons in Hin as [->|Hin].
      * left. right. now split.
      * right. split; [exact H1|]. eauto.
Qed.

End EventKeys.

Section EventMore.
Import Calibration EventGen.
Local Open Scope R_scope.

(** The keys of the event [makeEvent] returns are the pads, other than
    20000, of the rows of the prepared track but the last; every signal has
    512 samples. *)
Theorem makeEvent_keys (E_CHG : R) (g : EventGenerator) (pos : list Vec3)
    (en : vec) (uncal : list Row4) (evt : gmap pad_t vec) :
  prepareTrack g pos en = Some uncal ->
  makeEvent E_CHG g pos en = Some evt ->
  (forall pad, is_Some (evt !! pad) <->
     pad <> 20000%N /\ exists row, row ∈ removelast uncal /\ pad_of g row = pad) /\
  (forall pad sig, evt !! pad = Some sig -> length sig = 512%nat).
Proof.
  intros Hprep Hevt. split.
  - intros pad.
    rewrite (makeEvent_fold_removelast E_CHG g pos en uncal Hprep) in Hevt.
    rewrite (makeEvent_fold_keys E_CHG g _ ∅ evt pad Hevt).
    rewrite lookup_empty. split.
    + intros [[x Hx]|H]; [discriminate|exact H].
    + intros H. now right.
  - apply (makeEvent_signals_512 E_CHG g pos en evt Hevt).
Qed.

Lemma makeEvent_keys_witness :
  let g := mkEventGenerator (mkVec3 0 0 (-1)) 4 40 1 1 0 1 1e6 1
                            (mkPadPlane (fun _ _ => 7%N) (fun _ => (0, 0))) in
  let pos := [mkVec3 0 0 6; mkVec3 0 0 7] in
  let uncal := diffused_rows g (prepared_points g pos [3; 2]) in
  let evt : gmap pad_t vec := {[7%N := zeros 512]} in
  (forall pad, is_Some (evt !! pad) <->
     pad <> 20000%N /\ exists row, row ∈ removelast uncal /\ pad_of g row = pad) /\
  (forall pad sig, evt !! pad = Some sig -> length sig = 512%nat).
Proof.
  intros g pos uncal evt.
  apply (makeEvent_keys 1 g pos [3; 2] uncal evt).
  - apply prepareTrack_eq; simpl; lia.
  - apply makeEvent_all_overflow_example.
Defined.

(** A trajectory of fewer than two points, or with a number of energies
    other than the number of points, gives no prepared track, no event, no
    peaks table, no mesh signal and no hit pattern. *)
Theorem short_trajectory_no_result (E_CHG : R) (g : EventGenerator)
    (pos : list Vec3) (en : vec) :
  (length pos < 2)%nat \/ length en <> length pos ->
  prepareTrack g pos en = None /\
  makeEvent E_CHG g pos en = None /\
  makePeaksTableFromSimulation E_CHG g pos en = None /\
  makeMeshSignal E_CHG g pos en = None /\
  makeHitPattern E_CHG g pos en = None.
Proof.
  intros Hshort.
  assert (Hprep : prepareTrack g pos en = None).
  { destruct (prepareTrack g pos en) as [out|] eqn:H; [|reflexivity].
    apply prepareTrack_Some_inv in H as (H1 & H2 & _). lia. }
  assert (Hevt : makeEvent E_CHG g pos en = None).
  { unfold makeEvent. now rewrite Hprep. }
  split; [exact Hprep|]. split; [exact Hevt|].
  unfold makePeaksTableFromSimulation, makeMeshSignal, makeHitPattern.
  rewrite Hevt, Hprep. auto.
Qed.

Lemma short_trajectory_no_result_witness :
  let g := mkEventGenerator (mkVec3 0 0 (-1)) 4 40 1 1 0 1 1e6 1
                            (mkPadPlane (fun _ _ => 7%N) (fun _ => (0, 0))) in
  prepareTrack g [mkVec3 0 0 1] [3] = None /\
  makeEvent 1 g [mkVec3 0 0 1] [3] = None /\
  makePeaksTableFromSimulation 1 g [mkVec3 0 0 1] [3] = None /\
  makeMeshSignal 1 g [mkVec3 0 0 1] [3] = None /\
  makeHitPattern 1 g [mkVec3 0 0 1] [3] = None.
Proof.
  intros g. apply (short_trajectory_no_result 1 g [mkVec3 0 0 1] [3]).
  left. simpl. lia.
Defined.

End EventMore.

Section MeshSignal.
Import Calibration EventGen.
Local Open Scope R_scope.

Lemma mesh_fold (items : list (pad_t * vec)) :
  forall acc : vec,
    length acc = 512%nat ->
    Forall (fun pair => length pair.2 = 512%nat) items ->
    exists res,
      foldl (fun acc pair => res ← acc; vec_add res pair.2) (Some acc) items
      = Some res /\
      length res = 512%nat /\
      forall i a, acc !! i = Some a ->
        res !! i = Some (a + vec_sum (column i items)).
Proof.
  induction items as [|pair items IH]; intros acc Hacc Hitems.
  - exists acc. split; [reflexivity|]. split; [exact Hacc|].
    intros i a Ha. rewrite Ha. simpl. f_equal. lra.
  - apply Forall_cons in Hitems as [Hpair Hitems]. simpl.
    unfold vec_add at 2. rewrite decide_True by lia. simpl.
    destruct (IH (zip_with Rplus acc pair.2)) as (res & Hres & Hlen & Hval).
    + rewrite length_zip_with. lia.
    + exact Hitems.
    + exists res. split; [exact Hres|]. split; [exact Hlen|].
      intros i a Ha.
      destruct (lookup_lt_is_Some_2 pair.2 i) as [x Hx].
      { apply lookup_lt_Some in Ha. lia. }
      rewrite (Hval i (a + x)).
      * unfold column. simpl. rewrite Hx. simpl. f_equal. lra.
      * rewrite lookup_zip_with, Ha. simpl. now rewrite Hx.
Qed.

(** For an event whose signals have 512 samples, as those of [makeEvent]
    have, the loop of [makeMeshSignal] returns 512 samples, each the sum of
    that sample over the signals of all pads; this is what [makeMeshSignal]
    returns on every trajectory with that event. *)
Theorem makeMeshSignal_sum (evt : gmap pad_t vec) :
  signals_512 evt ->
  exists mesh,
    meshSignal_of_event evt = Some mesh /\
    length mesh = 512%nat /\
    (forall i : nat, (i < 512)%nat ->
       mesh !! i = Some (vec_sum (column i (event_items evt)))) /\
    (forall E_CHG g pos en,
       makeEvent E_CHG g pos en = Some evt ->
       makeMeshSignal E_CHG g pos en = Some mesh).
Proof.
  intros H512. unfold meshSignal_of_event.
  destruct (mesh_fold (event_items evt) (zeros 512)) as (res & Hres & Hlen & Hval).
  - apply length_zeros.
  - apply Forall_forall. intros [pad sig] Hin%event_items_elem. simpl.
    eapply H512, Hin.
  - exists res. split; [exact Hres|]. split; [exact Hlen|]. split.
    + intros i Hi. rewrite (Hval i 0).
      * f_equal. lra.
      * unfold zeros. now apply lookup_replicate_2.
    + intros E_CHG g pos en Hevt. unfold makeMeshSignal. rewrite Hevt. exact Hres.
Qed.

(** Two pads with charge in the first time buckets: the mesh sees 5 + 2 in
    time bucket 0, 3 in time bucket 1 and nothing in time bucket 2. *)
Lemma makeMeshSignal_sum_witness :
  let evt : gmap pad_t vec :=
    {[7%N := 5 :: zeros 511; 9%N := 2 :: 3 :: zeros 510]} in
  exists mesh,
    meshSignal_of_event evt = Some mesh /\
    length mesh = 512%nat /\
    mesh !! 0%nat = Some 7 /\ mesh !! 1%nat = Some 3 /\ mesh !! 2%nat = Some 0.
Proof.
  intros evt.
  assert (H512 : signals_512 evt).
  { intros pad sig Hsig. unfold evt in Hsig.
    apply lookup_insert_Some in Hsig as [[_ <-]|[_ Hsig]]; [reflexivity|].
    apply lookup_singleton_Some in Hsig as [_ <-]. reflexivity. }
  destruct (makeMeshSignal_sum evt H512) as (mesh & Hmesh & Hlen & Hval & _).
  assert (Hitems : event_items evt
                   = [(7%N, 5 :: zeros 511); (9%N, 2 :: 3 :: zeros 510)])
    by (vm_compute; reflexivity).
  exists mesh. split; [exact Hmesh|]. split; [exact Hlen|].
  rewrite !Hval by lia. rewrite Hitems. unfold column. simpl.
  repeat split; f_equal; lra.
Defined.

End MeshSignal.

Section HitPattern.
Import Calibration EventGen.
Local Open Scope R_scope.

Variable E_CHG : R.
Variable g : EventGenerator.

Lemma makeHitPattern_loop_snoc (rows : list Row4) (last : Row4) :
  makeHitPattern_loop E_CHG g (rows ++ [last])
  = hit_fold E_CHG g (zeros (N.to_nat 10240)) rows.
Proof.
  unfold makeHitPattern_loop, hit_fold.
  replace (uword_sub (n_elem (rows ++ [last])) 1) with (n_elem rows).
  - apply (for_range_rows (makeHitPattern_step E_CHG g)).
  - rewrite uword_sub_le; unfold n_elem; rewrite length_app; simpl; lia.
Qed.

Lemma makeHitPattern_removelast pos en uncal :
  prepareTrack g pos en = Some uncal ->
  makeHitPattern E_CHG g pos en
  = hit_fold E_CHG g (zeros (N.to_nat 10240)) (removelast uncal).
Proof.
  intros H. unfold makeHitPattern. rewrite H. simpl.
  rewrite (prepareTrack_snoc g pos en uncal H) at 1.
  apply makeHitPattern_loop_snoc.
Qed.

Lemma hit_fold_cons (hits : vec) (row : Row4) (rows : list Row4) :
  hit_fold E_CHG g hits (row :: rows)
  = (h ← makeHitPattern_step E_CHG g hits row; hit_fold E_CHG g h rows).
Proof.
  unfold hit_fold. simpl.
  destruct (makeHitPattern_step E_CHG g hits row); simpl; [reflexivity|].
  apply foldl_bind_None.
Qed.

Lemma makeHitPattern_step_sentinel hits row :
  pad_of g row = 20000%N -> makeHitPattern_step E_CHG g hits row = Some hits.
Proof.
  intros Hpad. unfold makeHitPattern_step. fold (pad_of g row).
  rewrite decide_False; [reflexivity|]. intros Hne. now apply Hne.
Qed.

Lemma makeHitPattern_step_in_range hits row h :
  pad_of g row <> 20000%N -> hits !! N.to_nat (pad_of g row) = Some h ->
  makeHitPattern_step E_CHG g hits row
  = Some (<[N.to_nat (pad_of g row) := h + conversionFactor E_CHG g * r_q row]> hits).
Proof.
  intros Hpad Hh. unfold makeHitPattern_step. fold (pad_of g row).
  rewrite decide_True by assumption. unfold elem. rewrite Hh. simpl.
  unfold set_elem, n_elem. apply lookup_lt_Some in Hh.
  now rewrite decide_True by lia.
Qed.

Lemma makeHitPattern_step_out_of_range hits row :
  pad_of g row <> 20000%N -> (length hits <= N.to_nat (pad_of g row))%nat ->
  makeHitPattern_step E_CHG g hits row = None.
Proof.
  intros Hpad Hlen. unfold makeHitPattern_step. fold (pad_of g row).
  rewrite decide_True by assumption. unfold elem.
  now rewrite lookup_ge_None_2.
Qed.

Lemma pad_charge_cons_eq p row rows :
  pad_of g row = p ->
  pad_charge E_CHG g p (row :: rows)
  = conversionFactor E_CHG g * r_q row + pad_charge E_CHG g p rows.
Proof.
  intros Hp. unfold pad_charge. now rewrite filter_cons_True by assumption.
Qed.

Lemma pad_charge_cons_ne p row rows :
  pad_of g row <> p ->
  pad_charge E_CHG g p (row :: rows) = pad_charge E_CHG g p rows.
Proof.
  intros Hp. unfold pad_charge. now rewrite filter_cons_False by assumption.
Qed.

Lemma hit_fold_charges (n : nat) (rows : list Row4) :
  forall hits : vec,
    length hits = n ->
    (forall row, row ∈ rows -> pad_of g row <> 20000%N ->
                 (N.to_nat (pad_of g row) < n)%nat) ->
    exists res,
      hit_fold E_CHG g hits rows = Some res /\
      length res = n /\
      forall (p : pad_t) h, hits !! N.to_nat p = Some h ->
        res !! N.to_nat p = Some (h + if decide (p = 20000%N) then 0
                                      else pad_charge E_CHG g p rows).
Proof.
  induction rows as [|row rows IH]; intros hits Hlen Hin.
  - exists hits. split; [reflexivity|]. split; [exact Hlen|].
    intros p h Hh. rewrite Hh. f_equal.
    destruct (decide (p = 20000%N)); unfold pad_charge; simpl; lra.
  - rewrite hit_fold_cons.
    assert (Hin' : forall r, r ∈ rows -> pad_of g r <> 20000%N ->
                      (N.to_nat (pad_of g r) < n)%nat).
    { intros r Hr. apply Hin. now right. }
    destruct (decide (pad_of g row = 20000%N)) as [Hs|Hs].
    + rewrite makeHitPattern_step_sentinel by assumption. simpl.
      destruct (IH hits Hlen Hin') as (res & Hres & Hl & Hval).
      exists res. split; [exact Hres|]. split; [exact Hl|].
      intros p h Hh. rewrite (Hval p h Hh). f_equal. f_equal.
      destruct (decide (p = 20000%N)); [reflexivity|].
      rewrite pad_charge_cons_ne by congruence. reflexivity.
    + destruct (lookup_lt_is_Some_2 hits (N.to_nat (pad_of g row))) as [h0 Hh0].
      { rewrite Hlen. apply Hin; [left|assumption]. }
      rewrite (makeHitPattern_step_in_range hits row h0) by assumption. simpl.
      destruct (IH (<[N.to_nat (pad_of g row) :=
                       h0 + conversionFactor E_CHG g * r_q row]> hits))
        as (res & Hres & Hl & Hval).
      { now rewrite length_insert. }
      { exact Hin'. }
      exists res. split; [exact Hres|]. split; [exact Hl|].
      intros p h Hh. destruct (decide (pad_of g row = p)) as [Heq|Hne].
      * subst p. rewrite Hh0 in Hh. injection Hh as <-.
        rewrite (Hval (pad_of g row) (h0 + conversionFactor E_CHG g * r_q row)).
        -- f_equal.
           destruct (decide (pad_of g row = 20000%N)) as [He|_]; [contradiction|].
           rewrite pad_charge_cons_eq by reflexivity. ring.
        -- apply list_lookup_insert_eq. eapply lookup_lt_Some, Hh0.
      * rewrite (Hval p h).
        -- f_equal. f_equal. destruct (decide (p = 20000%N)); [reflexivity|].
           now rewrite pad_charge_cons_ne.
        -- rewrite list_lookup_insert_ne by lia. exact Hh.
Qed.

Lemma hit_fold_length (rows : list Row4) :
  forall hits res, hit_fold E_CHG g hits rows = Some res -> length res = length hits.
Proof.
  induction rows as [|row rows IH]; intros hits res H.
  - injection H as <-. reflexivity.
  - rewrite hit_fold_cons in H.
    destruct (makeHitPattern_step E_CHG g hits row) as [h|] eqn:Hstep; [|discriminate].
    simpl in H. rewrite (IH h res H).
    unfold makeHitPattern_step in Hstep.
    destruct (decide _); [|congruence].
    destruct (elem hits _) as [x|]; [|discriminate]. simpl in Hstep.
    unfold set_elem in Hstep. destruct (decide _); [|discriminate].
    injection Hstep as <-. apply length_insert.
Qed.

Lemma hit_fold_out_of_range (rows : list Row4) :
  forall hits : vec,
    (exists row, row ∈ rows /\ pad_of g row <> 20000%N /\
                 (length hits <= N.to_nat (pad_of g row))%nat) ->
    hit_fold E_CHG g hits rows = None.
Proof.
  induction rows as [|row rows IH]; intros hits (r & Hin & Hpad & Hbig).
  - now apply elem_of_nil in Hin.
  - rewrite hit_fold_cons.
    destruct (makeHitPattern_step E_CHG g hits row) as [h|] eqn:Hstep; [|reflexivity].
    simpl. apply elem_of_cons in Hin as [->|Hin].
    + rewrite makeHitPattern_step_out_of_range in Hstep by assumption. discriminate.
    + apply IH. exists r. split; [exact Hin|]. split; [exact Hpad|].
      assert (Hl : length h = length hits).
      { apply (hit_fold_length [row] hits h). rewrite hit_fold_cons, Hstep. reflexivity. }
      lia.
Qed.

End HitPattern.

Section HitPatternClaims.
Import Calibration EventGen.
Local Open Scope R_scope.

(** When every row of the prepared track but the last falls on pad 20000
    or on a pad below 10240, [makeHitPattern] returns 10240 entries, and the
    entry of pad [p] is the amplitude [conversionFactor * numElec] summed
    over the rows on [p], whatever their time buckets: rows past time bucket
    511 count here. *)
Theorem makeHitPattern_charges (E_CHG : R) (g : EventGenerator)
    (pos : list Vec3) (en : vec) (uncal : list Row4) :
  prepareTrack g pos en = Some uncal ->
  (forall row, row ∈ removelast uncal -> pad_of g row <> 20000%N ->
               (pad_of g row < 10240)%N) ->
  exists hits,
    makeHitPattern E_CHG g pos en = Some hits /\
    length hits = N.to_nat 10240 /\
    forall p : pad_t, (p < 10240)%N ->
      hits !! N.to_nat p = Some (pad_charge E_CHG g p (removelast uncal)).
Proof.
  intros Hprep Hpads.
  rewrite (makeHitPattern_removelast E_CHG g pos en uncal Hprep).
  destruct (hit_fold_charges E_CHG g (N.to_nat 10240) (removelast uncal)
              (zeros (N.to_nat 10240))) as (hits & Hhits & Hlen & Hval).
  - apply length_zeros.
  - intros row Hrow Hpad. specialize (Hpads row Hrow Hpad). lia.
  - exists hits. split; [exact Hhits|]. split; [exact Hlen|].
    intros p Hp. rewrite (Hval p 0).
    + rewrite decide_False by lia. f_equal. lra.
    + unfold zeros. apply lookup_replicate_2. lia.
Qed.

Lemma makeHitPattern_charges_witness :
  let g := mkEventGenerator (mkVec3 0 0 (-1)) 4 40 1 1 0 1 1e6 1
                            (mkPadPlane (fun _ _ => 7%N) (fun _ => (0, 0))) in
  let pos := [mkVec3 0 0 6; mkVec3 0 0 7] in
  let uncal := diffused_rows g (prepared_points g pos [3; 2]) in
  exists hits,
    makeHitPattern 1 g pos [3; 2] = Some hits /\
    length hits = N.to_nat 10240 /\
    forall p : pad_t, (p < 10240)%N ->
      hits !! N.to_nat p = Some (pad_charge 1 g p (removelast uncal)).
Proof.
  intros g pos uncal. apply (makeHitPattern_charges 1 g pos [3; 2] uncal).
  - apply prepareTrack_eq; simpl; lia.
  - intros row _ _. vm_compute. reflexivity.
Defined.

(** A row, other than the last, on a pad numbered 10240 or more and not
    20000 is out of the bounds of the hit pattern: [makeHitPattern] has no
    result. *)
Theorem makeHitPattern_out_of_range (E_CHG : R) (g : EventGenerator)
    (pos : list Vec3) (en : vec) (uncal : list Row4) (row : Row4) :
  prepareTrack g pos en = Some uncal ->
  row ∈ removelast uncal ->
  pad_of g row <> 20000%N -> (10240 <= pad_of g row)%N ->
  makeHitPattern E_CHG g pos en = None.
Proof.
  intros Hprep Hrow Hpad Hbig.
  rewrite (makeHitPattern_removelast E_CHG g pos en uncal Hprep).
  apply hit_fold_out_of_range. exists row.
  split; [exact Hrow|]. split; [exact Hpad|]. rewrite length_zeros. lia.
Qed.

Lemma makeHitPattern_out_of_range_witness :
  let g := mkEventGenerator (mkVec3 0 0 (-1)) 4 40 1 1 0 1 1e6 1
                            (mkPadPlane (fun _ _ => 10240%N) (fun _ => (0, 0))) in
  makeHitPattern 1 g [mkVec3 0 0 6; mkVec3 0 0 7] [3; 2] = None.
Proof.
  intros g.
  set (pos := [mkVec3 0 0 6; mkVec3 0 0 7]).
  apply (makeHitPattern_out_of_range 1 g pos [3; 2]
           (diffused_rows g (prepared_points g pos [3; 2]))
           (center_row (prepared_point g (mkVec3 0 0 6) 0))).
  - apply prepareTrack_eq; simpl; lia.
  - apply (list_elem_of_lookup_2 _ 0%nat). reflexivity.
  - discriminate.
  - vm_compute. discriminate.
Defined.

End HitPatternClaims.

(** ** Peaks *)

Section MaxIndex.
Local Open Scope R_scope.

Lemma max_index_from_spec (l : vec) :
  forall (bv : R) (bi i : N) (mv : R) (mi : N),
    max_index_from bv bi i l = (mv, mi) ->
    mv = foldl Rmax bv l /\
    ((mi = bi /\ mv = bv) \/
     ((i <= mi)%N /\ l !! N.to_nat (mi - i) = Some mv /\ bv < mv /\
      forall j x, (j < N.to_nat (mi - i))%nat -> l !! j = Some x -> x < mv)).
Proof.
  induction l as [|x tl IH]; intros bv bi i mv mi H; simpl in H.
  - injection H as <- <-. split; [reflexivity|]. now left.
  - destruct (decide (x > bv)) as [Hgt|Hle].
    + destruct (IH x i (i + 1)%N mv mi H) as (Hmv & Hcase).
      split; [simpl; rewrite Rmax_right by lra; exact Hmv|].
      right. destruct Hcase as [[-> ->]|(Hi & Hlook & Hlt & Hbefore)].
      * split; [lia|]. rewrite N.sub_diag. simpl. split; [reflexivity|].
        split; [lra|]. intros j y Hj. lia.
      * split; [lia|].
        replace (N.to_nat (mi - i)) with (Datatypes.S (N.to_nat (mi - (i + 1)))) by lia.
        simpl. split; [exact Hlook|]. split; [lra|].
        intros [|j] y Hj Hy; simpl in Hy.
        -- injection Hy as <-. exact Hlt.
        -- eapply Hbefore; [|exact Hy]. lia.
    + destruct (IH bv bi (i + 1)%N mv mi H) as (Hmv & Hcase).
      split; [simpl; rewrite Rmax_left by lra; exact Hmv|].
      destruct Hcase as [H0|(Hi & Hlook & Hlt & Hbefore)]; [now left|].
      right. split; [lia|].
      replace (N.to_nat (mi - i)) with (Datatypes.S (N.to_nat (mi - (i + 1)))) by lia.
      simpl. split; [exact Hlook|]. split; [exact Hlt|].
      intros [|j] y Hj Hy; simpl in Hy.
      * injection Hy as <-. lra.
      * eapply Hbefore; [|exact Hy]. lia.
Qed.

(** [v.max(index)] gives the value of [v.max()] and the first index that
    holds it. *)
Lemma vec_max_index_spec (sig : vec) (mv : R) (mi : N) :
  vec_max_index sig = Some (mv, mi) ->
  vec_max sig = Some mv /\
  sig !! N.to_nat mi = Some mv /\
  forall j x, (j < N.to_nat mi)%nat -> sig !! j = Some x -> x < mv.
Proof.
  destruct sig as [|x tl]; [discriminate|]. simpl. intros [= H].
  destruct (max_index_from_spec tl x 0 1 mv mi H) as (Hmv & Hcase).
  split; [now rewrite Hmv|].
  destruct Hcase as [[-> ->]|(Hi & Hlook & Hlt & Hbefore)].
  - split; [reflexivity|]. intros j y Hj. simpl in Hj. lia.
  - replace (N.to_nat mi) with (Datatypes.S (N.to_nat (mi - 1))) by lia.
    simpl. split; [exact Hlook|].
    intros [|j] y Hj Hy; simpl in Hy.
    + injection Hy as <-. exact Hlt.
    + eapply Hbefore; [|exact Hy]. lia.
Qed.

Lemma vec_max_index_is_Some (sig : vec) : sig <> [] -> is_Some (vec_max_index sig).
Proof. destruct sig; [congruence|]. simpl. eauto. Qed.

End MaxIndex.

Section PeaksMap.
Import EventGen.
Local Open Scope R_scope.

Lemma makePeaks_step_peak_of (res : gmap pad_t Peak) (pair : pad_t * vec) :
  makePeaks_step res pair
  = (pk ← peak_of pair.2;
     Some (match res !! pair.1 with
           | Some _ => res
           | None => <[pair.1 := pk]> res
           end)).
Proof.
  unfold makePeaks_step, peak_of.
  destruct (vec_max_index pair.2) as [m|]; simpl; [|reflexivity].
  destruct (to_unsigned _); reflexivity.
Qed.

Lemma makePeaks_fold (items : list (pad_t * vec)) :
  forall res0 : gmap pad_t Peak,
    (forall pair, pair ∈ items -> is_Some (peak_of pair.2)) ->
    (forall pad s s', (pad, s) ∈ items -> (pad, s') ∈ items -> s = s') ->
    exists res,
      foldl (fun acc pair => res ← acc; makePeaks_step res pair) (Some res0) items
      = Some res /\
      forall pad pk,
        res !! pad = Some pk <->
        res0 !! pad = Some pk \/
        (res0 !! pad = None /\
         exists sig, (pad, sig) ∈ items /\ peak_of sig = Some pk).
Proof.
  induction items as [|[k s] items IH]; intros res0 Hsome Hfun.
  - exists res0. split; [reflexivity|]. intros pad pk. split; [auto|].
    intros [H|(_ & sig & Hin & _)]; [exact H|]. now apply elem_of_nil in Hin.
  - simpl. rewrite makePeaks_step_peak_of. simpl.
    destruct (Hsome (k, s) ltac:(left)) as [pk0 Hpk0]. simpl in Hpk0.
    rewrite Hpk0. simpl.
    assert (Hsome' : forall pair, pair ∈ items -> is_Some (peak_of pair.2)).
    { intros pair Hp. apply Hsome. now right. }
    assert (Hfun' : forall pad a b, (pad, a) ∈ items -> (pad, b) ∈ items -> a = b).
    { intros pad a b Ha Hb. eapply Hfun; right; eassumption. }
    destruct (res0 !! k) as [old|] eqn:Hk.
    + destruct (IH res0 Hsome' Hfun') as (res & Hres & Hval).
      exists res. split; [exact Hres|]. intros pad pk. rewrite Hval. split.
      * intros [H|(Hn & sig & Hin & Hp)]; [now left|].
        right. split; [exact Hn|]. exists sig. split; [now right|exact Hp].
      * intros [H|(Hn & sig & Hin & Hp)]; [now left|].
        apply elem_of_cons in Hin as [[= -> ->]|Hin]; [congruence|].
        right. split; [exact Hn|]. eauto.
    + destruct (IH (<[k := pk0]> res0) Hsome' Hfun') as (res & Hres & Hval).
      exists res. split; [exact Hres|]. intros pad pk. rewrite Hval.
      destruct (decide (k = pad)) as [->|Hne].
      * rewrite lookup_insert_eq, Hk. split.
        -- intros [[= <-]|(Hn & _)]; [|discriminate].
           right. split; [reflexivity|]. exists s. split; [left|exact Hpk0].
        -- intros [H|(_ & sig & Hin & Hp)]; [discriminate|].
           left. assert (sig = s) as ->.
           { eapply Hfun; [exact Hin|left]. }
           congruence.
      * rewrite lookup_insert_ne by assumption. split.
        -- intros [H|(Hn & sig & Hin & Hp)]; [now left|].
           right. split; [exact Hn|]. exists sig. split; [now right|exact Hp].
        -- intros [H|(Hn & sig & Hin & Hp)]; [now left|].
           apply elem_of_cons in Hin as [[= -> ->]|Hin]; [congruence|].
           right. split; [exact Hn|]. eauto.
Qed.

Lemma to_unsigned_floor (mx : R) :
  0 <= mx < 4294967296 ->
  to_unsigned (IZR (Zfloor mx)) = Some (Z.to_N (Zfloor mx)).
Proof.
  intros [Hlo Hhi]. unfold to_unsigned. rewrite Ztrunc_IZR.
  rewrite decide_True; [reflexivity|].
  pose proof (Zfloor_bound mx) as [Hb1 Hb2]. split.
  - apply Zfloor_lub. simpl. exact Hlo.
  - apply lt_IZR. change (IZR (2 ^ 32)) with 4294967296. lra.
Qed.

Lemma to_unsigned_negative (mx : R) :
  mx < 0 -> to_unsigned (IZR (Zfloor mx)) = None.
Proof.
  intros Hneg. unfold to_unsigned. rewrite Ztrunc_IZR.
  rewrite decide_False; [reflexivity|]. intros [H _].
  pose proof (Zfloor_bound mx) as [Hb1 _].
  apply IZR_le in H. simpl in H. lra.
Qed.

End PeaksMap.

Section PeaksMapClaims.
Import Calibration EventGen.
Local Open Scope R_scope.

(** For an event whose signals have 512 samples, as those of [makeEvent]
    have, and their maxima from 0 up to below 2^32,
    [makePeaksFromSimulation] gives a peak for every pad of the event and
    for no other: the time bucket is the first one, below 512, that holds
    the maximum of the signal, and the amplitude is the maximum rounded
    down. *)
Theorem makePeaks_of_event_peaks (evt : gmap pad_t vec) :
  signals_512 evt ->
  (forall pad sig mx, evt !! pad = Some sig -> vec_max sig = Some mx ->
                      0 <= mx < 4294967296) ->
  exists res,
    makePeaks_of_event evt = Some res /\
    (forall pad, evt !! pad = None -> res !! pad = None) /\
    (forall pad sig, evt !! pad = Some sig ->
       exists pk mx,
         res !! pad = Some pk /\ vec_max sig = Some mx /\
         (timeBucket pk < 512)%N /\
         sig !! N.to_nat (timeBucket pk) = Some mx /\
         (forall j x, (j < N.to_nat (timeBucket pk))%nat -> sig !! j = Some x ->
                      x < mx) /\
         Z.of_N (amplitude pk) = Zfloor mx).
Proof.
  intros H512 Hrange.
  assert (Hpeak : forall pad sig, evt !! pad = Some sig ->
            exists mx mi,
              vec_max_index sig = Some (mx, mi) /\
              peak_of sig = Some (mkPeak mi (Z.to_N (Zfloor mx))) /\
              vec_max sig = Some mx /\ (mi < 512)%N /\
              sig !! N.to_nat mi = Some mx /\
              (forall j x, (j < N.to_nat mi)%nat -> sig !! j = Some x -> x < mx) /\
              (0 <= Zfloor mx)%Z).
  { intros pad sig Hsig.
    destruct (vec_max_index_is_Some sig) as [[mx mi] Hmi].
    { intros ->. apply H512 in Hsig. discriminate. }
    destruct (vec_max_index_spec sig mx mi Hmi) as (Hmx & Hlook & Hfirst).
    pose proof (Hrange pad sig mx Hsig Hmx) as Hr.
    assert (Hlt : (mi < 512)%N).
    { apply lookup_lt_Some in Hlook. rewrite (H512 pad sig Hsig) in Hlook. lia. }
    exists mx, mi. split; [exact Hmi|]. split.
    - unfold peak_of. rewrite Hmi. simpl. rewrite to_unsigned_floor by exact Hr.
      simpl. unfold uword_to_unsigned. rewrite N.mod_small; [reflexivity|].
      eapply N.lt_trans; [exact Hlt|]. vm_compute. reflexivity.
    - split; [exact Hmx|]. split; [exact Hlt|]. split; [exact Hlook|].
      split; [exact Hfirst|]. apply Zfloor_lub. simpl. lra. }
  destruct (makePeaks_fold (event_items evt) ∅) as (res & Hres & Hval).
  - intros [pad sig] Hin%event_items_elem. simpl.
    destruct (Hpeak pad sig Hin) as (mx & mi & _ & -> & _). eauto.
  - intros pad s s' Hs%event_items_elem Hs'%event_items_elem. congruence.
  - exists res. split; [exact Hres|]. split.
    + intros pad Hnone. destruct (res !! pad) as [pk|] eqn:Hpk; [|reflexivity].
      apply Hval in Hpk as [Hpk|(_ & sig & Hin%event_items_elem & _)].
      * rewrite lookup_empty in Hpk. discriminate.
      * congruence.
    + intros pad sig Hsig.
      destruct (Hpeak pad sig Hsig) as (mx & mi & _ & Hpk & Hmx & Hlt & Hlook & Hfirst & Hpos).
      exists (mkPeak mi (Z.to_N (Zfloor mx))), mx.
      split.
      { apply Hval. right. split; [apply lookup_empty|].
        exists sig. split; [now apply event_items_elem|exact Hpk]. }
      split; [exact Hmx|]. simpl. split; [exact Hlt|]. split; [exact Hlook|].
      split; [exact Hfirst|]. lia.
Qed.

(** The signal of pad 7 reaches its maximum 5.5 in time buckets 1 and 3:
    the peak is at time bucket 1 with amplitude 5; pad 3 has no signal and
    no peak. *)
Lemma makePeaks_of_event_peaks_witness :
  let evt : gmap pad_t vec :=
    {[7%N := 1 :: 5.5 :: 2 :: 5.5 :: zeros 508; 9%N := 0.5 :: zeros 511]} in
  exists res,
    makePeaks_of_event evt = Some res /\
    res !! 7%N = Some (mkPeak 1 5) /\
    res !! 3%N = None.
Proof.
  intros evt.
  assert (H512 : signals_512 evt).
  { intros pad sig Hsig. unfold evt in Hsig.
    apply lookup_insert_Some in Hsig as [[_ <-]|[_ Hsig]]; [reflexivity|].
    apply lookup_singleton_Some in Hsig as [_ <-]. reflexivity. }
  assert (Hmx7 : vec_max (1 :: 5.5 :: 2 :: 5.5 :: zeros 508) = Some 5.5).
  { unfold vec_max. cbn [foldl]. rewrite (Rmax_right 1 5.5) by lra.
    rewrite (Rmax_left 5.5 2) by lra. rewrite (Rmax_left 5.5 5.5) by lra.
    now rewrite foldl_Rmax_zeros by lra. }
  assert (Hrange : forall pad sig mx, evt !! pad = Some sig -> vec_max sig = Some mx ->
                                      0 <= mx < 4294967296).
  { intros pad sig mx Hsig Hmx. unfold evt in Hsig.
    apply lookup_insert_Some in Hsig as [[_ <-]|[_ Hsig]].
    - rewrite Hmx7 in Hmx. injection Hmx as <-. lra.
    - apply lookup_singleton_Some in Hsig as [_ <-].
      unfold vec_max in Hmx. rewrite foldl_Rmax_zeros in Hmx by lra.
      injection Hmx as <-. lra. }
  destruct (makePeaks_of_event_peaks evt H512 Hrange) as (res & Hres & Hnone & Hsome).
  exists res. split; [exact Hres|]. split; [|now apply Hnone].
  destruct (Hsome 7%N (1 :: 5.5 :: 2 :: 5.5 :: zeros 508))
    as ([tb amp] & mx & Hpk & Hmx & _ & Hlook & Hfirst & Hamp); [reflexivity|].
  rewrite Hmx7 in Hmx. injection Hmx as <-. rewrite Hpk. simpl in *.
  assert (Htb : N.to_nat tb = 1%nat).
  { destruct (N.to_nat tb) as [|[|k]]; [|reflexivity|].
    - simpl in Hlook. injection Hlook as Hlook. lra.
    - pose proof (Hfirst 1%nat 5.5 ltac:(lia) eq_refl). lra. }
  assert (Hfl : Zfloor 5.5 = 5%Z) by (apply Zfloor_eq; lra).
  rewrite Hfl in Hamp. do 2 f_equal; lia.
Defined.

(** A signal whose maximum is negative makes the conversion of the
    amplitude to [unsigned] undefined: [makePeaksFromSimulation] has no
    result for an event with such a signal. *)
Theorem makePeaks_of_event_negative (evt : gmap pad_t vec) (pad : pad_t)
    (sig : vec) (mx : R) :
  evt !! pad = Some sig -> vec_max sig = Some mx -> mx < 0 ->
  makePeaks_of_event evt = None.
Proof.
  intros Hsig Hmx Hneg. unfold makePeaks_of_event.
  apply event_items_elem in Hsig.
  revert Hsig. generalize (event_items evt). intros items Hin.
  assert (Hgen : forall res0 : gmap pad_t Peak,
            foldl (fun acc pair => res ← acc; makePeaks_step res pair)
                  (Some res0) items = None).
  { induction items as [|pair items IH]; intros res0.
    - now apply elem_of_nil in Hin.
    - simpl. destruct (makePeaks_step res0 pair) as [res1|] eqn:Hstep; simpl.
      + apply elem_of_cons in Hin as [<-|Hin]; [|now apply IH].
        exfalso. unfold makePeaks_step in Hstep. simpl in Hstep.
        destruct (vec_max_index sig) as [[mv mi]|] eqn:Hmi; [|discriminate].
        apply vec_max_index_spec in Hmi as (Hmv & _).
        assert (mv = mx) as -> by congruence. simpl in Hstep.
        rewrite to_unsigned_negative in Hstep by assumption. discriminate.
      + apply foldl_bind_None. }
  apply Hgen.
Qed.

Lemma makePeaks_of_event_negative_witness :
  makePeaks_of_event {[7%N := [-1; -2]]} = None.
Proof.
  apply (makePeaks_of_event_negative {[7%N := [-1; -2]]} 7 [-1; -2] (-1)).
  - apply lookup_singleton_eq.
  - simpl. f_equal. apply Rmax_left. lra.
  - lra.
Defined.

End PeaksMapClaims.

Section PeaksTableOrder.
Import Calibration EventGen.
Local Open Scope R_scope.

Lemma key_le_total : Total key_le.
Proof. intros a b. unfold key_le. lia. Qed.

Lemma key_le_trans : Transitive key_le.
Proof. intros a b c. unfold key_le. lia. Qed.

Lemma event_items_sorted (evt : gmap pad_t vec) :
  StronglySorted (fun a b => (a.1 < b.1)%N) (event_items evt).
Proof.
  unfold event_items.
  assert (Hs : StronglySorted key_le (merge_sort key_le (map_to_list evt)))
    by exact (@StronglySorted_merge_sort _ key_le _ key_le_trans key_le_total _).
  assert (Hn : NoDup (merge_sort key_le (map_to_list evt)).*1).
  { rewrite merge_sort_Permutation. apply NoDup_fst_map_to_list. }
  revert Hs Hn. generalize (merge_sort key_le (map_to_list evt)).
  induction l as [|a l IH]; intros Hs Hn; [constructor|].
  apply StronglySorted_inv in Hs as [Hs Ha].
  rewrite fmap_cons in Hn. apply NoDup_cons in Hn as [Hnot Hn].
  constructor; [now apply IH|].
  rewrite Forall_forall in Ha. apply Forall_forall. intros b Hb.
  specialize (Ha b Hb). unfold key_le in Ha.
  assert (a.1 <> b.1).
  { intros Heq. apply Hnot. rewrite Heq. apply list_elem_of_fmap. eauto. }
  lia.
Qed.

Lemma length_event_items (evt : gmap pad_t vec) :
  length (event_items evt) = size evt.
Proof.
  unfold event_items. rewrite merge_sort_Permutation. apply length_map_to_list.
Qed.

Lemma peak_entry_pad g pair row :
  peak_entry g pair = Some row -> pk_pad row = of_uword pair.1.
Proof.
  unfold peak_entry. destruct (vec_max pair.2); [|discriminate]. simpl.
  destruct (decide _); [discriminate|]. now intros [= <-].
Qed.

Lemma of_uword_lt (a b : N) : (a < b)%N -> of_uword a < of_uword b.
Proof. intros H. unfold of_uword. apply IZR_lt. lia. Qed.

Lemma omap_peak_entry_sorted g (items : list (pad_t * vec)) :
  StronglySorted (fun a b => (a.1 < b.1)%N) items ->
  StronglySorted (fun r r' => pk_pad r < pk_pad r') (omap (peak_entry g) items).
Proof.
  induction 1 as [|a l Hs IH Ha]; [constructor|].
  simpl. destruct (peak_entry g a) as [row|] eqn:Hrow; [|exact IH].
  constructor; [exact IH|].
  apply Forall_forall. intros r' (b & Hb & Hr')%list_elem_of_omap.
  rewrite (peak_entry_pad g a row Hrow), (peak_entry_pad g b r' Hr').
  apply of_uword_lt. rewrite Forall_forall in Ha. now apply Ha.
Qed.

Lemma length_omap_le {A B} (f : A -> option B) (l : list A) :
  (length (omap f l) <= length l)%nat.
Proof.
  induction l as [|a l IH]; [reflexivity|].
  change (omap f (a :: l))
    with (match f a with Some y => y :: omap f l | None => omap f l end).
  destruct (f a); cbn [length]; lia.
Qed.

(** For an event whose signals have 512 samples, as those of [makeEvent]
    have, the peaks table has at most one row per pad of the event, and
    its rows are in strictly increasing order of the pad number; this is
    the table [makePeaksTableFromSimulation] returns on every trajectory
    with that event. *)
Theorem peaksTable_sorted (g : EventGenerator) (evt : gmap pad_t vec) :
  signals_512 evt ->
  exists rows,
    peaksTable_of_event g evt = Some rows /\
    (length rows <= size evt)%nat /\
    StronglySorted (fun r r' => pk_pad r < pk_pad r') rows /\
    (forall E_CHG pos en,
       makeEvent E_CHG g pos en = Some evt ->
       makePeaksTableFromSimulation E_CHG g pos en = Some rows).
Proof.
  intros H512.
  assert (Htab : peaksTable_of_event g evt
                 = Some (omap (peak_entry g) (event_items evt))).
  { apply peaksTable_of_event_some. intros pad sig Hsig ->.
    apply H512 in Hsig. discriminate. }
  exists (omap (peak_entry g) (event_items evt)).
  split; [exact Htab|]. split; [|split].
  - rewrite <- length_event_items. apply length_omap_le.
  - apply omap_peak_entry_sorted, event_items_sorted.
  - intros E_CHG pos en Hevt. unfold makePeaksTableFromSimulation.
    rewrite Hevt. exact Htab.
Qed.

(** Three pads, two of them with a peak: the table has the row of pad 3
    and then the row of pad 7. *)
Lemma peaksTable_sorted_witness :
  let g := mkEventGenerator (mkVec3 0 0 (-1)) 4 40 1 1 0 1 1e6 1
                            (mkPadPlane (fun _ _ => 7%N) (fun _ => (0, 0))) in
  let evt : gmap pad_t vec :=
    {[7%N := 2 :: zeros 511; 3%N := 5 :: zeros 511; 9%N := zeros 512]} in
  let rows := [peak_row g 3 (5 :: zeros 511) 5; peak_row g 7 (2 :: zeros 511) 2] in
  peaksTable_of_event g evt = Some rows /\
  (length rows <= size evt)%nat /\
  StronglySorted (fun r r' => pk_pad r < pk_pad r') rows.
Proof.
  intros g evt rows.
  assert (H512 : signals_512 evt).
  { intros pad sig Hsig. unfold evt in Hsig.
    apply lookup_insert_Some in Hsig as [[_ <-]|[_ Hsig]]; [reflexivity|].
    apply lookup_insert_Some in Hsig as [[_ <-]|[_ Hsig]]; [reflexivity|].
    apply lookup_singleton_Some in Hsig as [_ <-]. reflexivity. }
  destruct (peaksTable_sorted g evt H512) as (rows' & Htab & Hlen & Hsorted & _).
  assert (Hrows : rows' = rows).
  { rewrite peaksTable_of_event_some in Htab.
    2:{ intros pad sig Hsig ->. apply H512 in Hsig. discriminate. }
    injection Htab as <-.
    assert (Hitems : event_items evt
                     = [(3%N, 5 :: zeros 511); (7%N, 2 :: zeros 511); (9%N, zeros 512)])
      by (vm_compute; reflexivity).
    rewrite Hitems. cbn [omap list_omap].
    rewrite !peak_entry_single by lra.
    rewrite peak_entry_zero; [reflexivity|].
    apply Forall_forall. intros x Hx. now apply elem_of_replicate in Hx as [-> _]. }
  rewrite <- Hrows. auto.
Defined.

End PeaksTableOrder.

Section PeaksTableRange.
Import Calibration EventGen.
Local Open Scope R_scope.






End PeaksTableRange.
